(** * Maze generator and solver: a shallow embedding of [maze.js]

    The program keeps its state in global variables and in the inline
    styles of the DOM elements [grid-item0 .. grid-item(N-1)].  The
    embedding threads that state explicitly through a small state and
    error monad; [Math.random] is an external stream of numbers of the
    unit interval. *)

From Stdlib Require Import ZArith QArith Qround String List Lia.
From stdpp Require Import base tactics option list list_numbers gmap relations.

Local Open Scope Z_scope.

(** ** Values and the global state *)

(** A JavaScript exception that reaches the top level. *)
Inductive exn : Type :=
  | TypeError
  | Error (msg : string).

(** What a call does: return, throw, or exhaust the fuel of the model (the
    JavaScript loop would still be running). *)
Inductive outcome (A : Type) : Type :=
  | Returns (a : A)
  | Throws (e : exn)
  | OutOfFuel.
Arguments Returns {A} a.
Arguments Throws {A} e.
Arguments OutOfFuel {A}.

(** A cell is the two-element array [[row, column]]. *)
Abbreviation cell := (Z * Z)%type.

(** The inline style of one grid item; every colour starts out as the
    empty string. *)
Record style : Type := mkStyle {
  backgroundColor : string;
  borderTopColor : string;
  borderRightColor : string;
  borderBottomColor : string;
  borderLeftColor : string
}.

Definition fresh_style : style := mkStyle "" "" "" "" "".

(** The global variables of the script.  [document] maps [i] to the style
    of the element with id ["grid-item" + i]; [visited] is a JavaScript
    array, that is an object with integer keys: a read of a missing key
    gives [undefined], a write adds the key.  [random_calls] counts the
    calls of [Math.random] made so far. *)
Record world : Type := mkWorld {
  num_cells : Z;
  num_rows : Z;
  num_columns : Z;
  visited : gmap Z bool;
  frontier : list cell;
  cells : list cell;
  document : gmap Z style;
  random_calls : nat
}.

Definition set_visited (v : gmap Z bool) (w : world) : world :=
  mkWorld (num_cells w) (num_rows w) (num_columns w) v (frontier w)
          (cells w) (document w) (random_calls w).

Definition set_frontier (f : list cell) (w : world) : world :=
  mkWorld (num_cells w) (num_rows w) (num_columns w) (visited w) f
          (cells w) (document w) (random_calls w).

Definition set_document (d : gmap Z style) (w : world) : world :=
  mkWorld (num_cells w) (num_rows w) (num_columns w) (visited w) (frontier w)
          (cells w) d (random_calls w).

Definition set_random_calls (n : nat) (w : world) : world :=
  mkWorld (num_cells w) (num_rows w) (num_columns w) (visited w) (frontier w)
          (cells w) (document w) n.

(** The state of the page before [DOMContentLoaded]. *)
Definition page_load : world :=
  mkWorld 9 (Z.sqrt 9) (Z.sqrt 9) ∅ [] [] ∅ 0.

(** ** The monad *)

Definition M (A : Type) : Type := world -> outcome (A * world).

Definition ret {A} (a : A) : M A := fun w => Returns (a, w).

Definition bind {A B} (m : M A) (k : A -> M B) : M B :=
  fun w => match m w with
           | Returns (a, w') => k a w'
           | Throws e => Throws e
           | OutOfFuel => OutOfFuel
           end.

Definition throw {A} (e : exn) : M A := fun _ => Throws e.
Definition out_of_fuel {A} : M A := fun _ => OutOfFuel.
Definition get : M world := fun w => Returns (w, w).
Definition modify (f : world -> world) : M unit := fun w => Returns (tt, f w).

Notation "'let*' x ':=' c1 'in' c2" := (bind c1 (fun x => c2))
  (at level 10, x name, c1 at level 100, c2 at level 200).

(** [for (let x of l) body(x)] *)
Fixpoint for_of {A} (l : list A) (body : A -> M unit) : M unit :=
  match l with
  | [] => ret tt
  | x :: rest => let* _ := body x in for_of rest body
  end.

(** [while (cond) body] *)
Fixpoint while (fuel : nat) (cond : world -> bool) (body : M unit) : M unit :=
  let* w := get in
  if cond w then
    match fuel with
    | O => out_of_fuel
    | S fuel' => let* _ := body in while fuel' cond body
    end
  else ret tt.

(** ** Arrays *)

(** [array[i]] for a number [i]: [undefined] outside the array. *)
Definition at_index {A} (array : list A) (i : Z) : option A :=
  if i <? 0 then None else array !! Z.to_nat i.

(** [array.splice(start, 1)]: a negative [start] counts from the end. *)
Definition splice1 {A} (start : Z) (array : list A) : list A :=
  let len := Z.of_nat (length array) in
  let from := if start <? 0 then Z.max (len + start) 0 else Z.min start len in
  delete (Z.to_nat from) array.

(** Truthiness of [visited[i]]. *)
Definition truthy (v : option bool) : bool :=
  match v with Some true => true | _ => false end.

(** [Array(n).fill(false)] *)
Definition Array_fill_false (n : Z) : gmap Z bool :=
  list_to_map ((fun i => (i, false)) <$> seqZ 0 n).

Definition ArraysEqual (arr1 arr2 : cell) : bool :=
  (arr1.1 =? arr2.1) && (arr1.2 =? arr2.2).

Fixpoint FindCellIndex_from (i : Z) (c : cell) (array : list cell) : Z :=
  match array with
  | [] => -1
  | x :: rest => if ArraysEqual x c then i else FindCellIndex_from (i + 1) c rest
  end.

Definition FindCellIndex (c : cell) (array : list cell) : Z :=
  FindCellIndex_from 0 c array.

(** ** The DOM *)

Definition transparent : string := "transparent".

Inductive side_name : Type := Top | Right | Bottom | Left.

Definition border (s : style) (d : side_name) : string :=
  match d with
  | Top => borderTopColor s
  | Right => borderRightColor s
  | Bottom => borderBottomColor s
  | Left => borderLeftColor s
  end.

Definition with_border (d : side_name) (colour : string) (s : style) : style :=
  match d with
  | Top => mkStyle (backgroundColor s) colour (borderRightColor s) (borderBottomColor s) (borderLeftColor s)
  | Right => mkStyle (backgroundColor s) (borderTopColor s) colour (borderBottomColor s) (borderLeftColor s)
  | Bottom => mkStyle (backgroundColor s) (borderTopColor s) (borderRightColor s) colour (borderLeftColor s)
  | Left => mkStyle (backgroundColor s) (borderTopColor s) (borderRightColor s) (borderBottomColor s) colour
  end.

Definition with_background (colour : string) (s : style) : style :=
  mkStyle colour (borderTopColor s) (borderRightColor s) (borderBottomColor s) (borderLeftColor s).

(** [document.getElementById("grid-item" + idx).style]: a [TypeError] when
    there is no such element. *)
Definition get_style (idx : Z) : M style :=
  fun w => match document w !! idx with
           | Some s => Returns (s, w)
           | None => Throws TypeError
           end.

Definition update_style (idx : Z) (f : style -> style) : M unit :=
  let* s := get_style idx in
  modify (fun w => set_document (<[idx := f s]> (document w)) w).

Definition set_border (idx : Z) (d : side_name) (colour : string) : M unit :=
  update_style idx (with_border d colour).

Definition set_background (idx : Z) (colour : string) : M unit :=
  update_style idx (with_background colour).

(** [await sleep(speed_factor)] only yields to the event loop. *)
Definition sleep : M unit := ret tt.

(** ** Grid *)

(** The body of [GenerateGrid] after the [switch]: [n] is the local
    [num_cells], which shadows the global of the same name (the global
    stays 9). *)
Definition build_grid (n : Z) (w : world) : world :=
  let rows := Z.sqrt n in
  mkWorld (num_cells w) rows rows
          (Array_fill_false n)
          (frontier w)
          (i ← seqZ 0 rows; (fun j => (i, j)) <$> seqZ 0 rows)
          (list_to_map ((fun i => (i, fresh_style)) <$> seqZ 0 n))
          (random_calls w).

Definition GenerateGrid (grid_drop_value : string) : M unit :=
  if String.eqb grid_drop_value "0" then modify (build_grid 9)
  else if String.eqb grid_drop_value "1" then modify (build_grid 25)
  else if String.eqb grid_drop_value "2" then modify (build_grid 100)
  else if String.eqb grid_drop_value "3" then modify (build_grid 625)
  else if String.eqb grid_drop_value "4" then modify (build_grid 1600)
  else throw (Error "Maze dimensions not found!").

(** A grid of [side * side] cells on a freshly loaded page. *)
Definition fresh_grid (side : Z) : world := build_grid (side * side) page_load.

Definition Neighbors (w : world) (row column : Z) : list cell :=
  (if 0 <=? row - 1 then [(row - 1, column)] else []) ++
  (if column + 1 <? num_columns w then [(row, column + 1)] else []) ++
  (if row + 1 <? num_rows w then [(row + 1, column)] else []) ++
  (if 0 <=? column - 1 then [(row, column - 1)] else []).

Definition is_transparent (idx : Z) (d : side_name) : M bool :=
  let* s := get_style idx in ret (String.eqb (border s d) transparent).

(** [bounds && document.getElementById(..).style.border == "transparent"]:
    the element is looked up only when [bounds] holds. *)
Definition open_towards (bounds : bool) (idx : Z) (d : side_name) (n : cell) : M (list cell) :=
  if bounds then
    let* t := is_transparent idx d in ret (if t then [n] else [])
  else ret [].

Definition ConnectedNeighbors (row column : Z) : M (list cell) :=
  let* w := get in
  let idx := FindCellIndex (row, column) (cells w) in
  let* n := open_towards (0 <=? row - 1) idx Top (row - 1, column) in
  let* e := open_towards (column + 1 <? num_columns w) idx Right (row, column + 1) in
  let* s := open_towards (row + 1 <? num_rows w) idx Bottom (row + 1, column) in
  let* v := open_towards (0 <=? column - 1) idx Left (row, column - 1) in
  ret (n ++ e ++ s ++ v).

Definition CutEdge (cell1 cell2 : cell) : M unit :=
  let* w := get in
  let grid_cell2 := FindCellIndex cell2 (cells w) in
  let grid_cell1 := FindCellIndex cell1 (cells w) in
  if cell1.2 - 1 =? cell2.2 then
    let* _ := set_border grid_cell1 Left transparent in
    set_border grid_cell2 Right transparent
  else if cell1.2 + 1 =? cell2.2 then
    let* _ := set_border grid_cell1 Right transparent in
    set_border grid_cell2 Left transparent
  else if cell1.1 - 1 =? cell2.1 then
    let* _ := set_border grid_cell1 Top transparent in
    set_border grid_cell2 Bottom transparent
  else if cell1.1 + 1 =? cell2.1 then
    let* _ := set_border grid_cell1 Bottom transparent in
    set_border grid_cell2 Top transparent
  else ret tt.

Definition GetAllEdges (w : world) : list (cell * cell) :=
  x ← seqZ 0 (num_rows w);
  y ← seqZ 0 (num_columns w);
  (if x <? num_rows w - 1 then [((x, y), (x + 1, y))] else []) ++
  (if y <? num_columns w - 1 then [((x, y), (x, y + 1))] else []).

Definition CreateEntranceAndExit : M unit :=
  let* w := get in
  let entrance := (num_rows w - 1, num_columns w - 1) in
  let exit := (0, 0) in
  let* _ := set_border (FindCellIndex entrance (cells w)) Bottom transparent in
  set_border (FindCellIndex exit (cells w)) Top transparent.

Definition is_visited (w : world) (c : cell) : bool :=
  truthy (visited w !! FindCellIndex c (cells w)).

Definition mark_visited (c : cell) : M unit :=
  modify (fun w => set_visited (<[FindCellIndex c (cells w) := true]> (visited w)) w).

(** ** Generators *)

Section Generators.

(** [random k] is the number the [k]-th call of [Math.random] returns; it
    lies in the unit interval, [0 <= random k < 1]. *)
Variable random : nat -> Q.

Definition Math_random : M Q :=
  fun w => Returns (random (random_calls w), set_random_calls (S (random_calls w)) w).

(** [Math.floor(Math.random() * n)] *)
Definition random_below (n : Z) : M Z :=
  let* r := Math_random in ret (Qfloor (r * inject_Z n)).

(** [array[Math.floor(Math.random() * array.length)]] *)
Definition random_element {A} (array : list A) : M (option A) :=
  let* i := random_below (Z.of_nat (length array)) in ret (at_index array i).

Definition push_frontier (c : cell) : M unit :=
  modify (fun w => set_frontier (frontier w ++ [c]) w).

(** One round of the [while] loop of [PrimsAlgorithm].  Passing
    [undefined] to [FindCellIndex] or [CutEdge] is a [TypeError], raised by
    [ArraysEqual] on the first element it compares. *)
Definition PrimsAlgorithm_round : M unit :=
  let* w0 := get in
  let* picked := random_element (frontier w0) in
  match picked with
  | None => throw TypeError
  | Some randomCell =>
    let randomCellIdx := FindCellIndex randomCell (frontier w0) in
    let* _ := modify (fun w => set_frontier (splice1 randomCellIdx (frontier w)) w) in
    let* w := get in
    let randCellNeighbors := Neighbors w randomCell.1 randomCell.2 in
    let randCellVisitedNeighbors :=
      List.filter (fun neighbor => is_visited w neighbor) randCellNeighbors in
    let* chosen := random_element randCellVisitedNeighbors in
    match chosen with
    | None => throw TypeError
    | Some randomVisitedNeighbor =>
      let* _ := CutEdge randomCell randomVisitedNeighbor in
      let* _ := set_background (FindCellIndex randomCell (cells w)) "rgb(255, 240, 240)" in
      let* _ := sleep in
      let* _ := mark_visited randomCell in
      let* _ := for_of randCellNeighbors (fun neighbor =>
        let* w' := get in
        if negb (is_visited w' neighbor) && (FindCellIndex neighbor (frontier w') <? 0) then
          let* _ := push_frontier neighbor in
          set_background (FindCellIndex neighbor (cells w')) "rgb(255, 200, 200)"
        else ret tt) in
      sleep
    end
  end.

(** [PrimsAlgorithm] before its [while] loop. *)
Definition PrimsAlgorithm_setup (startRow startColumn : Z) : M unit :=
  let* w := get in
  let neighbors := Neighbors w startRow startColumn in
  let* _ := for_of neighbors (fun neighbor =>
    let idx := FindCellIndex neighbor (cells w) in
    let* _ := set_background idx "rgb(255, 200, 200)" in
    push_frontier neighbor) in
  let* _ := set_background (FindCellIndex (startRow, startColumn) (cells w)) "rgb(255, 240, 240)" in
  sleep.

Definition PrimsAlgorithm (fuel : nat) (startRow startColumn : Z) : M unit :=
  let* _ := PrimsAlgorithm_setup startRow startColumn in
  while fuel (fun w => 0 <? Z.of_nat (length (frontier w))) PrimsAlgorithm_round.

(** An entry of [cellMap]. *)
Record map_cell : Type := mkMapCell { x : Z; y : Z; set : Z }.

(** The [for] loop of [Kruskals] that looks the end points of [edge] up:
    [cell1] and [cell2] are references into [cellMap], kept here as
    positions; the last match wins. *)
Fixpoint find_endpoints (edge : cell * cell) (i : nat) (cellMap : list map_cell)
    (cell1 cell2 : option nat) : option nat * option nat :=
  match cellMap with
  | [] => (cell1, cell2)
  | c :: rest =>
    let cell1 := if (x c =? edge.1.1) && (y c =? edge.1.2) then Some i else cell1 in
    let cell2 := if (x c =? edge.2.1) && (y c =? edge.2.2) then Some i else cell2 in
    find_endpoints edge (S i) rest cell1 cell2
  end.

(** The [for] loop that merges the two sets: it walks the positions of
    [cellMap] and reads [cell1.set] anew in every round, from the array it
    is updating. *)
Fixpoint relabel (positions : list nat) (cell1 : nat) (oldSet : Z)
    (cellMap : list map_cell) : list map_cell :=
  match positions with
  | [] => cellMap
  | i :: rest =>
    match cellMap !! i, cellMap !! cell1 with
    | Some c, Some c1 =>
      if set c =? oldSet
      then relabel rest cell1 oldSet (<[i := mkMapCell (x c) (y c) (set c1)]> cellMap)
      else relabel rest cell1 oldSet cellMap
    | _, _ => relabel rest cell1 oldSet cellMap
    end
  end.

(** One round of the [do ... while] loop of [Kruskals] on its local
    variables.  The edges are distinct arrays, so [edges.indexOf(edge)] is
    the position [edge] was read from. *)
Definition Kruskals_round (edges : list (cell * cell)) (cellMap : list map_cell)
    : M (list (cell * cell) * list map_cell) :=
  let* k := random_below (Z.of_nat (length edges)) in
  match at_index edges k with
  | None => throw TypeError
  | Some edge =>
    let edges := splice1 k edges in
    match find_endpoints edge 0 cellMap None None with
    | (Some i1, Some i2) =>
      match cellMap !! i1, cellMap !! i2 with
      | Some cell1, Some cell2 =>
        if negb (set cell1 =? set cell2) then
          let oldSet := set cell2 in
          let cellMap := relabel (seq 0 (length cellMap)) i1 oldSet cellMap in
          let* w := get in
          let* _ := set_background (FindCellIndex (x cell1, y cell1) (cells w)) "rgb(255, 240, 240)" in
          let* _ := set_background (FindCellIndex (x cell2, y cell2) (cells w)) "rgb(255, 240, 240)" in
          let* _ := CutEdge (x cell1, y cell1) (x cell2, y cell2) in
          let* _ := sleep in
          ret (edges, cellMap)
        else ret (edges, cellMap)
      | _, _ => throw TypeError
      end
    | _ => throw TypeError
    end
  end.

Fixpoint Kruskals_loop (fuel : nat) (edges : list (cell * cell)) (cellMap : list map_cell)
    : M unit :=
  match fuel with
  | O => out_of_fuel
  | S fuel' =>
    let* next := Kruskals_round edges cellMap in
    if 0 <? Z.of_nat (length next.1) then Kruskals_loop fuel' next.1 next.2
    else ret tt
  end.

Definition Kruskals (fuel : nat) : M unit :=
  let* w := get in
  let edges := GetAllEdges w in
  let cellMap := imap (fun i c => mkMapCell c.1 c.2 (Z.of_nat i)) (cells w) in
  Kruskals_loop fuel edges cellMap.

(** The body of [RecursiveBacktrack] for a non-empty [path], up to the
    recursive call; [path] is a JavaScript array used as a stack, its top
    is its last element [current].  The result is [path] as the recursive
    call receives it. *)
Definition RecursiveBacktrack_body (path : list cell) (current : cell) : M (list cell) :=
  let* w0 := get in
  let idx := FindCellIndex current (cells w0) in
  let* _ := set_background idx "rgb(255, 200, 200)" in
  let* _ := sleep in
  let* w := get in
  let unvisitedNeighbors :=
    List.filter (fun neighbor => negb (is_visited w neighbor))
                (Neighbors w current.1 current.2) in
  if 0 <? Z.of_nat (length unvisitedNeighbors) then
    let* picked := random_element unvisitedNeighbors in
    match picked with
    | None => throw TypeError
    | Some randomNeighbor =>
      let* _ := CutEdge randomNeighbor current in
      let* _ := mark_visited randomNeighbor in
      ret (path ++ [randomNeighbor])
    end
  else
    let* _ := set_background (FindCellIndex current (cells w)) "rgb(255, 240, 240)" in
    ret (removelast path).

(** Every call of [RecursiveBacktrack] takes one unit of fuel. *)
Fixpoint RecursiveBacktrack (fuel : nat) (path : list cell) : M unit :=
  match fuel with
  | O => out_of_fuel
  | S fuel' =>
    match last path with
    | None => ret tt
    | Some current =>
      let* path := RecursiveBacktrack_body path current in
      RecursiveBacktrack fuel' path
    end
  end.

(** The three entries of the algorithm drop-down. *)
Inductive algorithm : Type := Prims | Backtracker | Kruskal.

Definition alg_drop_value (a : algorithm) : string :=
  match a with Prims => "0" | Backtracker => "1" | Kruskal => "2" end.

(** The first lines of [GenerateMaze]: the start cell is drawn and marked
    visited. *)
Definition pick_start : M cell :=
  let* w := get in
  let* startRow := random_below (num_rows w) in
  let* startColumn := random_below (num_columns w) in
  let* _ := mark_visited (startRow, startColumn) in
  ret (startRow, startColumn).

(** The start cell that [GenerateMaze] draws and the chosen generator, run
    to its end; for the backtracker that end comes after [GenerateMaze] has
    returned, see [GenerateMaze_settled]. *)
Definition run_generator (fuel : nat) (alg_drop : string) : M unit :=
  let* start := pick_start in
  if String.eqb alg_drop "0" then PrimsAlgorithm fuel start.1 start.2
  else if String.eqb alg_drop "1" then RecursiveBacktrack fuel [start]
  else if String.eqb alg_drop "2" then Kruskals fuel
  else ret tt.

(** [RecursiveBacktrack] calls itself without [await]: the promise of a
    call is fulfilled at the end of its own body, when the next call has
    run up to its first [await] and no further.  [RecursiveBacktrack_enter]
    is a call up to that [await], [RecursiveBacktrack_resume] the rest of
    its body, up to the recursive call. *)
Definition RecursiveBacktrack_enter (path : list cell) : M unit :=
  match last path with
  | None => ret tt
  | Some current =>
    let* w0 := get in
    set_background (FindCellIndex current (cells w0)) "rgb(255, 200, 200)"
  end.

Definition RecursiveBacktrack_resume (path : list cell) (current : cell) : M (list cell) :=
  let* w := get in
  let unvisitedNeighbors :=
    List.filter (fun neighbor => negb (is_visited w neighbor))
                (Neighbors w current.1 current.2) in
  if 0 <? Z.of_nat (length unvisitedNeighbors) then
    let* picked := random_element unvisitedNeighbors in
    match picked with
    | None => throw TypeError
    | Some randomNeighbor =>
      let* _ := CutEdge randomNeighbor current in
      let* _ := mark_visited randomNeighbor in
      ret (path ++ [randomNeighbor])
    end
  else
    let* _ := set_background (FindCellIndex current (cells w)) "rgb(255, 240, 240)" in
    ret (removelast path).

(** The call of [RecursiveBacktrack] that [GenerateMaze] awaits, up to the
    moment its promise is fulfilled: its own body, and the next call up to
    its first [await].  The result is the stack, which the detached call
    goes on with. *)
Definition RecursiveBacktrack_awaited (path : list cell) : M (list cell) :=
  match last path with
  | None => ret path
  | Some current =>
    let* _ := RecursiveBacktrack_enter path in
    let* _ := sleep in
    let* path := RecursiveBacktrack_resume path current in
    let* _ := RecursiveBacktrack_enter path in
    ret path
  end.

(** The calls that run after that: the detached call resumes behind its
    [await], and every later call runs whole. *)
Definition RecursiveBacktrack_detached (fuel : nat) (path : list cell) : M unit :=
  match last path with
  | None => ret tt
  | Some current =>
    let* _ := sleep in
    let* path := RecursiveBacktrack_resume path current in
    RecursiveBacktrack fuel path
  end.

(** [GenerateMaze] up to the end of its [await]: Prim's and Kruskal's
    algorithm run to their end, the backtracker makes its first step.  The
    result is the stack of the detached call of the backtracker, empty for
    the other algorithms. *)
Definition GenerateMaze_awaited (fuel : nat) (alg_drop : string) : M (list cell) :=
  let* start := pick_start in
  if String.eqb alg_drop "0" then
    let* _ := PrimsAlgorithm fuel start.1 start.2 in ret []
  else if String.eqb alg_drop "1" then RecursiveBacktrack_awaited [start]
  else if String.eqb alg_drop "2" then
    let* _ := Kruskals fuel in ret []
  else ret [].

(** [GenerateMaze] up to the moment it returns. *)
Definition GenerateMaze (fuel : nat) (alg_drop : string) : M unit :=
  let* _ := GenerateMaze_awaited fuel alg_drop in
  CreateEntranceAndExit.

(** [GenerateMaze] and, after it has returned, the detached calls of the
    backtracker until the last timer has fired, when nothing else is
    clicked meanwhile. *)
Definition GenerateMaze_settled (fuel : nat) (alg_drop : string) : M unit :=
  let* path := GenerateMaze_awaited fuel alg_drop in
  let* _ := CreateEntranceAndExit in
  RecursiveBacktrack_detached fuel path.

(** The states a run of the backtracker on a fresh grid goes through: the
    stack and the world at each call of [RecursiveBacktrack]. *)
Inductive backtrack_reaches (side : Z) : list cell -> world -> Prop :=
  | backtrack_first start w :
      pick_start (fresh_grid side) = Returns (start, w) ->
      backtrack_reaches side [start] w
  | backtrack_next path current w path' w' :
      backtrack_reaches side path w ->
      last path = Some current ->
      RecursiveBacktrack_body path current w = Returns (path', w') ->
      backtrack_reaches side path' w'.

(** The states a run of Prim's algorithm on a fresh grid goes through: the
    world at each test of the [while] loop. *)
Inductive prims_reaches (side : Z) : world -> Prop :=
  | prims_first start w w' :
      pick_start (fresh_grid side) = Returns (start, w) ->
      PrimsAlgorithm_setup start.1 start.2 w = Returns (tt, w') ->
      prims_reaches side w'
  | prims_next w w' :
      prims_reaches side w ->
      frontier w <> [] ->
      PrimsAlgorithm_round w = Returns (tt, w') ->
      prims_reaches side w'.

End Generators.

(** ** Solver *)

(** A number that may be [undefined] or [NaN]: a depth read from a key the
    map does not have, and what adding 1 to it gives. *)
Abbreviation number := (option Z).

Definition add1 (d : number) : number := (fun v => v + 1) <$> d.

(** [a < b] on numbers: false as soon as one side is not a number. *)
Definition number_lt (a b : number) : bool :=
  match a, b with
  | Some u, Some v => u <? v
  | _, _ => false
  end.

(** [depthMap.get(k)] *)
Definition Map_get (depthMap : gmap Z number) (k : Z) : number :=
  mjoin (depthMap !! k).

(** One call [depthMap.set(key, value)], and the index of the cell that
    was being processed when it was made ([None] for the entry the map is
    built with). *)
Record depth_write : Type := mkWrite {
  write_parent : option Z;
  write_key : Z;
  write_value : number
}.

(** The local variables of the first loop of [Dijkstras].  [writes] is an
    auxiliary history variable: the calls of [depthMap.set] made so far,
    oldest first; the program itself never reads it. *)
Record layering : Type := mkLayering {
  queue : list (cell * number);
  depthMap : gmap Z number;
  writes : list depth_write
}.

(** [queue.push([neighbor[0], neighbor[1], depth + 1]);
     depthMap.set(neighborIdx, depth + 1)] *)
Definition record_depth (idx : Z) (depth : number) (neighbor : cell) (neighborIdx : Z)
    (l : layering) : layering :=
  mkLayering (queue l ++ [(neighbor, add1 depth)])
             (<[neighborIdx := add1 depth]> (depthMap l))
             (writes l ++ [mkWrite (Some idx) neighborIdx (add1 depth)]).

(** [for (let neighbor of ConnectedNeighbors(..))] of the first loop, for
    the cell of index [idx] and depth [depth]. *)
Fixpoint discover (neighbors : list cell) (idx : Z) (depth : number) (l : layering)
    : M layering :=
  match neighbors with
  | [] => ret l
  | neighbor :: rest =>
    let* w := get in
    let neighborIdx := FindCellIndex neighbor (cells w) in
    if negb (truthy (visited w !! neighborIdx)) then
      let* _ := set_background neighborIdx "#5941f6" in
      let* _ := sleep in
      discover rest idx depth (record_depth idx depth neighbor neighborIdx l)
    else discover rest idx depth l
  end.

(** The first loop of [Dijkstras] (breadth-first layering); it ends when
    the queue is empty or at the [break]. *)
Fixpoint Dijkstras_layering (fuel : nat) (l : layering) : M layering :=
  match queue l with
  | [] => ret l
  | (c, _) :: rest =>
    match fuel with
    | O => out_of_fuel
    | S fuel' =>
      let* w := get in
      let idx := FindCellIndex (c.1, c.2) (cells w) in
      let depth := Map_get (depthMap l) idx in
      let* _ := modify (fun w => set_visited (<[idx := true]> (visited w)) w) in
      let* _ := set_background idx "#5941f6" in
      let l := mkLayering rest (depthMap l) (writes l) in
      if (c.1 =? num_rows w - 1) && (c.2 =? num_columns w - 1) then ret l
      else
        let* _ := sleep in
        let* neighbors := ConnectedNeighbors c.1 c.2 in
        let* l := discover neighbors idx depth l in
        Dijkstras_layering fuel' l
    end
  end.

(** [for (let neighbor of ConnectedNeighbors(..))] of the second loop. *)
Fixpoint descend (neighbors : list cell) (depthMap : gmap Z number)
    (maxDepth : number) (queue : list cell) : M (number * list cell) :=
  match neighbors with
  | [] => ret (maxDepth, queue)
  | neighbor :: rest =>
    let* w := get in
    let neighborIdx := FindCellIndex neighbor (cells w) in
    if number_lt (Map_get depthMap neighborIdx) maxDepth then
      let* _ := set_background neighborIdx "#c3b9ff" in
      let* _ := sleep in
      descend rest depthMap (Map_get depthMap neighborIdx) (queue ++ [neighbor])
    else descend rest depthMap maxDepth queue
  end.

(** The second loop of [Dijkstras] (walking back along decreasing depth). *)
Fixpoint Dijkstras_descent (fuel : nat) (depthMap : gmap Z number)
    (maxDepth : number) (queue : list cell) : M unit :=
  match queue with
  | [] => ret tt
  | current :: rest =>
    match fuel with
    | O => out_of_fuel
    | S fuel' =>
      let* neighbors := ConnectedNeighbors current.1 current.2 in
      let* next := descend neighbors depthMap maxDepth rest in
      Dijkstras_descent fuel' depthMap next.1 next.2
    end
  end.

(** [queue = [[0, 0, 0]]] and [depthMap = new Map([[0, 0]])] *)
Definition layering_start : layering :=
  mkLayering [((0, 0), Some 0)] {[ 0 := Some 0 ]} [mkWrite None 0 (Some 0)].

(** The first half of [Dijkstras]: the state the layering loop ends in. *)
Definition Dijkstras_phase1 (fuel : nat) : M layering :=
  let* _ := modify (fun w => set_visited (Array_fill_false (num_cells w)) w) in
  Dijkstras_layering fuel layering_start.

Definition Dijkstras (fuel : nat) : M unit :=
  let* l := Dijkstras_phase1 fuel in
  let* w := get in
  let maxDepth := Map_get (depthMap l) (num_rows w * num_columns w - 1) in
  let queue := [(num_rows w - 1, num_columns w - 1)] in
  let* _ := set_background (FindCellIndex (num_rows w - 1, num_columns w - 1) (cells w)) "#c3b9ff" in
  let* _ := sleep in
  Dijkstras_descent fuel (depthMap l) maxDepth queue.

Definition SolveMaze (fuel : nat) (solve_alg_drop : string) : M unit :=
  if String.eqb solve_alg_drop "0" then Dijkstras fuel else ret tt.

(** ** Specification vocabulary *)

(** The cells of a [side] by [side] grid, and their row-major index. *)
Definition in_grid (side : Z) (c : cell) : Prop :=
  0 <= c.1 < side /\ 0 <= c.2 < side.

Definition index_of (side : Z) (c : cell) : Z := c.1 * side + c.2.

(** Grid-adjacent: exactly one coordinate differs, by 1. *)
Definition adjacent (a b : cell) : Prop :=
  Z.abs (a.1 - b.1) + Z.abs (a.2 - b.2) = 1.

(** There is an open passage from [a] to [b]: [ConnectedNeighbors] lists [b]
    among the neighbours of [a]. *)
Definition passage (w : world) (a b : cell) : Prop :=
  exists l, ConnectedNeighbors a.1 a.2 w = Returns (l, w) /\ b ∈ l.

Definition IsOpen (w : world) (a b : cell) : bool :=
  match ConnectedNeighbors a.1 a.2 w with
  | Returns (l, _) => bool_decide (b ∈ l)
  | _ => false
  end.

(** The open passages, each grid edge counted once. *)
Definition open_passages (w : world) : list (cell * cell) :=
  List.filter (fun e => IsOpen w e.1 e.2) (GetAllEdges w).

(** A world whose grid is the one [GenerateGrid] builds for [side * side]
    cells: the global variables of the grid and one element per cell. *)
Record grid_ok (side : Z) (w : world) : Prop := mkGridOk {
  grid_side : 0 < side;
  grid_rows : num_rows w = side;
  grid_columns : num_columns w = side;
  grid_cells : cells w = cells (fresh_grid side);
  grid_elements : forall i, is_Some (document w !! i) <-> 0 <= i < side * side
}.

(** The neighbour of [c] across its border [d], the border of that
    neighbour facing back, and whether the border [d] of [c] is open. *)
Definition step_to (c : cell) (d : side_name) : cell :=
  match d with
  | Top => (c.1 - 1, c.2)
  | Right => (c.1, c.2 + 1)
  | Bottom => (c.1 + 1, c.2)
  | Left => (c.1, c.2 - 1)
  end.

Definition opposite (d : side_name) : side_name :=
  match d with Top => Bottom | Right => Left | Bottom => Top | Left => Right end.

Definition flag (w : world) (c : cell) (d : side_name) : bool :=
  match document w !! FindCellIndex c (cells w) with
  | Some s => String.eqb (border s d) transparent
  | None => false
  end.

(** What [ConnectedNeighbors] adds to its result for the border [d] of [a]. *)
Definition open_side (w : world) (a : cell) (bounds : bool) (d : side_name) : list cell :=
  if bounds && flag w a d then [step_to a d] else [].

(** The world after the border [d] of the cell [c] is made transparent,
    and after its background is painted. *)
Definition open_border (c : cell) (d : side_name) (w : world) : world :=
  set_document (alter (with_border d transparent) (FindCellIndex c (cells w)) (document w)) w.

Definition paint (c : cell) (colour : string) (w : world) : world :=
  set_document (alter (with_background colour) (FindCellIndex c (cells w)) (document w)) w.

Definition visit (c : cell) (w : world) : world :=
  set_visited (<[FindCellIndex c (cells w) := true]> (visited w)) w.

(** ** Graphs of passages *)

(** Two cells are linked when a passage leads from one to the other, in
    either direction; [linked_without a b] forgets the link between [a]
    and [b]. *)
Definition linked (w : world) (x y : cell) : Prop :=
  passage w x y \/ passage w y x.

Definition linked_without (w : world) (a b x y : cell) : Prop :=
  linked w x y /\ ~ ((x = a /\ y = b) \/ (x = b /\ y = a)).

(** No passage lies on a cycle: with the passage between [a] and [b]
    closed again, [b] cannot be reached from [a]. *)
Definition acyclic (w : world) : Prop :=
  forall a b, passage w a b -> ~ rtc (linked_without w a b) a b.

(** Every cell of the grid can be reached from every other one. *)
Definition connected (w : world) : Prop :=
  forall a b, a ∈ cells w -> b ∈ cells w -> rtc (passage w) a b.

(** The passages form a spanning tree of the grid. *)
Definition spanning_tree (w : world) : Prop :=
  connected w /\
  Z.of_nat (length (open_passages w)) = Z.of_nat (length (cells w)) - 1 /\
  acyclic w.

Definition visited_count (w : world) : nat :=
  length (List.filter (is_visited w) (cells w)).

(** ** Invariants of the generators *)

(** Prim's algorithm and the backtracker grow one tree: the passages join
    exactly the visited cells. *)
Record tree_inv (side : Z) (w : world) : Prop := mkTreeInv {
  tree_grid : grid_ok side w;
  tree_symmetric : forall a b, passage w a b -> passage w b a;
  tree_visited : forall a b, passage w a b -> is_visited w a = true;
  tree_connected : forall a b, in_grid side a -> in_grid side b ->
    is_visited w a = true -> is_visited w b = true -> rtc (passage w) a b;
  tree_count : S (length (open_passages w)) = visited_count w;
  tree_acyclic : acyclic w
}.

(** [CutEdge a (step_to a d)] as a function on worlds. *)
Definition cut (a : cell) (d : side_name) (w : world) : world :=
  open_border (step_to a d) (opposite d) (open_border a d w).

(** [Math.random] returns numbers of the unit interval. *)
Definition unit_interval (random : nat -> Q) : Prop :=
  forall k, (0 <= random k)%Q /\ (random k < 1)%Q.

(** The backtracker: the cells of [path] are visited, and a visited cell
    that has left [path] has no unvisited neighbour. *)
Record backtrack_inv (side : Z) (w : world) (path : list cell) : Prop := mkBacktrackInv {
  bt_tree : tree_inv side w;
  bt_path : forall c, c ∈ path -> in_grid side c /\ is_visited w c = true;
  bt_closed : forall c d, in_grid side c -> is_visited w c = true -> c ∉ path ->
    in_grid side (step_to c d) -> is_visited w (step_to c d) = true
}.

Definition unvisited_count (w : world) : nat :=
  (length (cells w) - visited_count w)%nat.

(** A grid on which nothing has been carved or visited yet. *)
Record blank (side : Z) (w : world) : Prop := mkBlank {
  blank_grid : grid_ok side w;
  blank_closed : forall c d, flag w c d = false;
  blank_unvisited : forall c, is_visited w c = false
}.

(** Prim's algorithm: the frontier holds exactly the unvisited cells next
    to the visited region. *)
Record prim_inv (side : Z) (w : world) : Prop := mkPrimInv {
  prim_tree : tree_inv side w;
  prim_nodup : NoDup (frontier w);
  prim_frontier : forall c, c ∈ frontier w ->
    in_grid side c /\ is_visited w c = false /\
    exists d, in_grid side (step_to c d) /\ is_visited w (step_to c d) = true;
  prim_border : forall c d, in_grid side c -> is_visited w c = true ->
    in_grid side (step_to c d) -> is_visited w (step_to c d) = false ->
    step_to c d ∈ frontier w
}.

(** The two loops of [PrimsAlgorithm] over the neighbours of a cell, as
    functions on worlds: the one before the [while] loop, and the one that
    ends each of its rounds. *)
Definition offer_first (neighbor : cell) (w : world) : world :=
  set_frontier (frontier w ++ [neighbor]) (paint neighbor "rgb(255, 200, 200)" w).

Definition offer (neighbor : cell) (w : world) : world :=
  if negb (is_visited w neighbor) && (FindCellIndex neighbor (frontier w) <? 0)
  then paint neighbor "rgb(255, 200, 200)" (set_frontier (frontier w ++ [neighbor]) w)
  else w.

(** Worlds that differ in the frontier, the backgrounds and the number of
    random draws only. *)
Definition same_maze (side : Z) (w w' : world) : Prop :=
  grid_ok side w' /\ cells w' = cells w /\ visited w' = visited w /\
  forall c d, flag w' c d = flag w c d.

(** Kruskal's algorithm: the set a cell belongs to, how many set ids are
    in use, and the invariant of the loop (two cells share a set exactly
    when passages connect them; an edge that left the pool joins two cells
    of one set). *)
Definition set_of (side : Z) (cellMap : list map_cell) (c : cell) : Z :=
  match cellMap !! Z.to_nat (index_of side c) with
  | Some m => set m
  | None => -1
  end.

Definition represented (cellMap : list map_cell) (n : Z) : nat :=
  length (List.filter (fun i => bool_decide (i ∈ (set <$> cellMap))) (seqZ 0 n)).

Definition merge_sets (oldSet newSet : Z) (m : map_cell) : map_cell :=
  if set m =? oldSet then mkMapCell (x m) (y m) newSet else m.

Record kruskal_inv (side : Z) (w : world) (edges : list (cell * cell))
    (cellMap : list map_cell) : Prop := mkKruskalInv {
  k_grid : grid_ok side w;
  k_symmetric : forall a b, passage w a b -> passage w b a;
  k_map : forall c, in_grid side c ->
    exists s, cellMap !! Z.to_nat (index_of side c) = Some (mkMapCell c.1 c.2 s) /\
              0 <= s < side * side;
  k_length : length cellMap = length (cells w);
  k_same : forall a b, in_grid side a -> in_grid side b ->
    set_of side cellMap a = set_of side cellMap b -> rtc (passage w) a b;
  k_linked : forall a b, linked w a b -> set_of side cellMap a = set_of side cellMap b;
  k_pool : forall e, e ∈ edges -> e ∈ GetAllEdges w;
  k_done : forall e, e ∈ GetAllEdges w -> e ∉ edges ->
    set_of side cellMap e.1 = set_of side cellMap e.2;
  k_count : (length (open_passages w) + represented cellMap (side * side))%nat
            = length (cells w);
  k_acyclic : acyclic w
}.

(** ** Invariant of the layering loop of the solver *)

(** A step of the search tree: from a cell that has been taken off the
    queue along a passage. *)
Definition tree_step (w0 w : world) (a b : cell) : Prop :=
  is_visited w a = true /\ passage w0 a b.

(** What the history of [depthMap.set] has to satisfy: no key is written
    twice, the map holds what was written, and a cell found from the cell
    of index [p] gets the depth of [p] plus 1. *)
Record written_once (l : layering) : Prop := mkWrittenOnce {
  once_keys : NoDup (write_key <$> writes l);
  once_kept : forall e, e ∈ writes l -> depthMap l !! write_key e = Some (write_value e);
  once_parent : forall e, e ∈ writes l ->
    match write_parent e with
    | None => write_key e = 0 /\ write_value e = Some 0
    | Some p => exists d, depthMap l !! p = Some (Some d) /\ write_value e = Some (d + 1)
    end
}.

(** [w0] is the maze being solved, [w] the world during the search. *)
Record bfs_inv (side : Z) (w0 w : world) (l : layering) : Prop := mkBfsInv {
  bfs_grid : grid_ok side w;
  bfs_walls : forall c d, flag w c d = flag w0 c d;
  bfs_queue : forall c d, (c, d) ∈ queue l ->
    in_grid side c /\ is_visited w c = false /\ depthMap l !! index_of side c = Some d;
  bfs_queue_nodup : NoDup ((queue l).*1);
  bfs_keys : forall k, k ∈ (write_key <$> writes l) <->
    exists c, in_grid side c /\ k = index_of side c /\
              (is_visited w c = true \/ c ∈ (queue l).*1);
  bfs_dom : forall k v, depthMap l !! k = Some v -> k ∈ (write_key <$> writes l);
  bfs_once : written_once l;
  bfs_tree : forall c, in_grid side c ->
    is_visited w c = true \/ c ∈ (queue l).*1 -> rtc (tree_step w0 w) (0, 0) c
}.

(** The result of [discover] as a function. *)
Definition discovered (w : world) (idx : Z) (depth : number) (l : layering)
    (neighbors : list cell) : layering :=
  foldl (fun l n => if negb (is_visited w n)
                    then record_depth idx depth n (FindCellIndex n (cells w)) l
                    else l) l neighbors.

(** The cells [discover] puts on the queue. *)
Definition found (w : world) (neighbors : list cell) : list cell :=
  List.filter (fun n => negb (is_visited w n)) neighbors.

(** ** Passage-opening operations *)

(** The worlds that opening passages between adjacent cells of a grid
    leads to, entrance and exit included. *)
Inductive carved (side : Z) : world -> Prop :=
  | carved_grid w0 : carved side (build_grid (side * side) w0)
  | carved_CutEdge w a b w' :
      carved side w -> in_grid side a -> in_grid side b -> adjacent a b ->
      CutEdge a b w = Returns (tt, w') -> carved side w'
  | carved_entrance w w' :
      carved side w -> CreateEntranceAndExit w = Returns (tt, w') -> carved side w'.

(** The borders between neighbouring cells are open on both sides or on
    none. *)
Definition symmetric_borders (side : Z) (w : world) : Prop :=
  forall c d, in_grid side c -> in_grid side (step_to c d) ->
    flag w c d = flag w (step_to c d) (opposite d).

(** Two computations that do the same in every world. *)
Definition agree {A} (m1 m2 : M A) : Prop := forall w, m1 w = m2 w.

(** ** Two concrete mazes *)

(** A random source that always picks the first candidate. *)
Definition always_first : nat -> Q := fun _ => 0%Q.

(** The 3 by 3 maze the backtracker carves when every draw is 0. *)
Definition serpentine : world :=
  match run_generator always_first 18 "1" (fresh_grid 3) with
  | Returns (_, w) => w
  | _ => fresh_grid 3
  end.

(** A 3 by 3 grid with one passage, the entrance and the exit. *)
Definition small_maze : world :=
  open_border (0, 0) Top (open_border (2, 2) Bottom (cut (0, 0) Right (fresh_grid 3))).

(** The 3 by 3 grid at the first test of the [while] loop of Prim's
    algorithm when every draw is 0. *)
Definition prims_started : world :=
  match (let* start := pick_start always_first in
         PrimsAlgorithm_setup start.1 start.2) (fresh_grid 3) with
  | Returns (_, w) => w
  | _ => fresh_grid 3
  end.

(** ** Measure of the second loop of the solver *)

(** The indices of the grid whose recorded depth lies below [maxDepth]. *)
Definition below (side : Z) (depthMap : gmap Z number) (maxDepth : number) : list Z :=
  List.filter (fun k => number_lt (Map_get depthMap k) maxDepth) (seqZ 0 (side * side)).

(** ** The first version of the program

    [src/maze.js] is an earlier version with Prim's algorithm only.  Its
    [Neighbors], [FindCellIndex], [ArraysEqual] and the [while] loop of
    [PrimsAlgorithm] read as in the later version; [GenerateGrid] has four
    sizes and leaves [visited] and [cells] to [GenerateMaze]; [CutEdge]
    also paints its first cell. *)

Definition set_cells (c : list cell) (w : world) : world :=
  mkWorld (num_cells w) (num_rows w) (num_columns w) (visited w) (frontier w)
          c (document w) (random_calls w).

(** The body of the first [GenerateGrid] after the [switch]; [n] is the
    parameter [numCells], which shadows the global. *)
Definition build_grid_v1 (n : Z) (w : world) : world :=
  let rows := Z.sqrt n in
  mkWorld (num_cells w) rows rows (visited w) (frontier w) []
          (list_to_map ((fun i => (i, fresh_style)) <$> seqZ 0 n))
          (random_calls w).

Definition GenerateGrid_v1 (grid_drop_value : string) : M unit :=
  if String.eqb grid_drop_value "0" then modify (build_grid_v1 9)
  else if String.eqb grid_drop_value "1" then modify (build_grid_v1 25)
  else if String.eqb grid_drop_value "2" then modify (build_grid_v1 100)
  else if String.eqb grid_drop_value "3" then modify (build_grid_v1 625)
  else throw (Error "Maze dimensions not found!").

Definition CutEdge_v1 (cell1 cell2 : cell) : M unit :=
  let* w := get in
  let gridCell2 := FindCellIndex cell2 (cells w) in
  let gridCell1 := FindCellIndex cell1 (cells w) in
  let* _ :=
    (if cell1.2 - 1 =? cell2.2 then
       let* _ := set_border gridCell1 Left transparent in
       set_border gridCell2 Right transparent
     else if cell1.2 + 1 =? cell2.2 then
       let* _ := set_border gridCell1 Right transparent in
       set_border gridCell2 Left transparent
     else if cell1.1 - 1 =? cell2.1 then
       let* _ := set_border gridCell1 Top transparent in
       set_border gridCell2 Bottom transparent
     else if cell1.1 + 1 =? cell2.1 then
       let* _ := set_border gridCell1 Bottom transparent in
       set_border gridCell2 Top transparent
     else ret tt) in
  set_background gridCell1 "rgb(255, 240, 240)".

Section FirstVersion.

Variable random : nat -> Q.

(** One round of the [while] loop of the first [PrimsAlgorithm]. *)
Definition PrimsAlgorithm_round_v1 : M unit :=
  let* w0 := get in
  let* picked := random_element random (frontier w0) in
  match picked with
  | None => throw TypeError
  | Some randomCell =>
    let randomCellIdx := FindCellIndex randomCell (frontier w0) in
    let* _ := modify (fun w => set_frontier (splice1 randomCellIdx (frontier w)) w) in
    let* w := get in
    let randCellNeighbors := Neighbors w randomCell.1 randomCell.2 in
    let randCellVisitedNeighbors :=
      List.filter (fun neighbor => is_visited w neighbor) randCellNeighbors in
    let* chosen := random_element random randCellVisitedNeighbors in
    match chosen with
    | None => throw TypeError
    | Some randomVisitedNeighbor =>
      let* _ := CutEdge_v1 randomCell randomVisitedNeighbor in
      let* _ := sleep in
      let* _ := mark_visited randomCell in
      let* _ := for_of randCellNeighbors (fun neighbor =>
        let* w' := get in
        if negb (is_visited w' neighbor) && (FindCellIndex neighbor (frontier w') <? 0) then
          let* _ := push_frontier neighbor in
          set_background (FindCellIndex neighbor (cells w')) "rgb(255, 200, 200)"
        else ret tt) in
      sleep
    end
  end.

Definition PrimsAlgorithm_v1 (fuel : nat) : M unit :=
  while fuel (fun w => 0 <? Z.of_nat (length (frontier w))) PrimsAlgorithm_round_v1.

(** The first [GenerateMaze]: it resets [visited] (with the global
    [numCells]), fills [cells], and then draws the start cell and offers
    its neighbours to the frontier with the statements that the later
    version has in [GenerateMaze] and at the head of [PrimsAlgorithm]. *)
Definition GenerateMaze_v1 (fuel : nat) : M unit :=
  let* _ := modify (fun w => set_visited (Array_fill_false (num_cells w)) w) in
  let* _ := modify (fun w =>
    set_cells (cells w ++ (i ← seqZ 0 (num_rows w);
                           (fun j => (i, j)) <$> seqZ 0 (num_columns w))) w) in
  let* start := pick_start random in
  let* _ := PrimsAlgorithm_setup start.1 start.2 in
  PrimsAlgorithm_v1 fuel.

End FirstVersion.

(** ** The stack of the backtracker *)

(** Consecutive cells of [path] are joined by passages. *)
Fixpoint walk (w : world) (path : list cell) : Prop :=
  match path with
  | [] => True
  | a :: rest =>
    match rest with
    | [] => True
    | b :: _ => passage w a b /\ walk w rest
    end
  end.

(** ** The layering loop finds every cell it can reach *)

(** The search has started, and every passage out of a cell that has been
    taken off the queue leads to a cell that has been taken off too or
    waits on the queue. *)
Definition bfs_closed (w0 w : world) (l : layering) : Prop :=
  (is_visited w (0, 0) = true \/ (0, 0) ∈ (queue l).*1) /\
  forall a b, is_visited w a = true -> passage w0 a b ->
    is_visited w b = true \/ b ∈ (queue l).*1.

(** ** The draws a computation reads *)

(** [m] makes no call of [Math.random]. *)
Definition quiet {A} (m : M A) : Prop :=
  forall w a w', m w = Returns (a, w') -> random_calls w' = random_calls w.

(** [m2], run with the draws [random2], does what [m1] does with the
    draws [random1] whenever the two streams agree on the draws that [m1]
    makes: the calls of [Math.random] are numbered by [random_calls], and a
    computation reads the draws between the count it starts with and the
    count it ends with, and no others. *)
Definition follows {A} (random1 random2 : nat -> Q) (m1 m2 : M A) : Prop :=
  forall w a w', m1 w = Returns (a, w') ->
    (random_calls w <= random_calls w')%nat /\
    ((forall k, (random_calls w <= k < random_calls w')%nat -> (random1 k == random2 k)%Q) ->
     m2 w = Returns (a, w')).


(** * Arrays and the cell list *)

Lemma ArraysEqual_true (a b : cell) : ArraysEqual a b = true <-> a = b.
Proof.
  destruct a as [a1 a2], b as [b1 b2]. unfold ArraysEqual. simpl.
  rewrite andb_true_iff, !Z.eqb_eq. split; [intros [-> ->]; done | intros [= -> ->]; done].
Qed.

Lemma ArraysEqual_false (a b : cell) : ArraysEqual a b = false <-> a <> b.
Proof.
  rewrite <- ArraysEqual_true. destruct (ArraysEqual a b); split; congruence.
Qed.

Lemma FindCellIndex_from_lookup (l : list cell) : forall i (n : nat) c,
  NoDup l -> l !! n = Some c -> FindCellIndex_from i c l = i + Z.of_nat n.
Proof.
  induction l as [|x l IH]; intros i n c Hnd Hl; [done|].
  apply NoDup_cons in Hnd as [Hx Hnd]. simpl.
  destruct n as [|n]; simpl in Hl.
  - injection Hl as ->. rewrite (proj2 (ArraysEqual_true c c)) by done. lia.
  - assert (x <> c) as Hne.
    { intros ->. apply Hx. by eapply list_elem_of_lookup_2. }
    rewrite (proj2 (ArraysEqual_false x c)) by done.
    rewrite (IH (i + 1) n c) by done. lia.
Qed.

Lemma FindCellIndex_from_notin (l : list cell) : forall i c,
  c ∉ l -> FindCellIndex_from i c l = -1.
Proof.
  induction l as [|x l IH]; intros i c Hc; [done|]. simpl.
  apply not_elem_of_cons in Hc as [Hne Hc].
  rewrite (proj2 (ArraysEqual_false x c)) by done. by apply IH.
Qed.

Lemma FindCellIndex_from_elem (l : list cell) : forall i c,
  c ∈ l -> i <= FindCellIndex_from i c l < i + Z.of_nat (length l).
Proof.
  induction l as [|x l IH]; intros i c Hc; [by apply elem_of_nil in Hc|]. simpl.
  destruct (ArraysEqual x c) eqn:E; [lia|].
  apply ArraysEqual_false in E. apply elem_of_cons in Hc as [->|Hc]; [done|].
  specialize (IH (i + 1) c Hc). lia.
Qed.

Lemma FindCellIndex_lookup (l : list cell) (n : nat) c :
  NoDup l -> l !! n = Some c -> FindCellIndex c l = Z.of_nat n.
Proof. intros. unfold FindCellIndex. by rewrite (FindCellIndex_from_lookup l 0 n). Qed.

Lemma FindCellIndex_negative (l : list cell) c :
  (FindCellIndex c l <? 0) = true <-> c ∉ l.
Proof.
  unfold FindCellIndex. rewrite Z.ltb_lt. split.
  - intros H Hc. apply (FindCellIndex_from_elem l 0) in Hc. lia.
  - intros Hc. rewrite FindCellIndex_from_notin by done. lia.
Qed.

(** * The grid *)

Lemma cells_fresh_grid side : 0 <= side ->
  cells (fresh_grid side) = (i ← seqZ 0 side; (fun j => (i, j)) <$> seqZ 0 side).
Proof. intros H. unfold fresh_grid, build_grid. simpl. by rewrite Z.sqrt_square. Qed.

Lemma elem_of_grid_cells side c : 0 <= side ->
  c ∈ cells (fresh_grid side) <-> in_grid side c.
Proof.
  intros H. rewrite cells_fresh_grid by done. unfold in_grid.
  rewrite list_elem_of_bind. split.
  - intros (i & Hc & Hi). apply list_elem_of_fmap in Hc as (j & -> & Hj).
    apply elem_of_seqZ in Hi, Hj. simpl. lia.
  - intros [H1 H2]. exists c.1. split.
    + apply list_elem_of_fmap. exists c.2. split; [by destruct c|].
      apply elem_of_seqZ. lia.
    + apply elem_of_seqZ. lia.
Qed.

Lemma NoDup_grid_cells side : 0 <= side -> NoDup (cells (fresh_grid side)).
Proof.
  intros H. rewrite cells_fresh_grid by done. apply NoDup_bind.
  - intros i1 i2 c _ _ H1 H2.
    apply list_elem_of_fmap in H1 as (j1 & -> & _).
    apply list_elem_of_fmap in H2 as (j2 & [= -> _] & _). done.
  - intros i _. apply NoDup_fmap_2_strong; [|apply NoDup_seqZ].
    intros j1 j2 _ _ [= ->]. done.
  - apply NoDup_seqZ.
Qed.

Lemma lookup_rows {A} (f : Z -> list A) (L : nat) (n : nat) : forall m (k j : nat),
  (forall i, length (f i) = L) -> (k < n)%nat -> (j < L)%nat ->
  (seqZ m (Z.of_nat n) ≫= f) !! (k * L + j)%nat = f (m + Z.of_nat k) !! j.
Proof.
  induction n as [|n IH]; intros m k j Hlen Hk Hj; [lia|].
  rewrite seqZ_cons by lia. rewrite bind_cons.
  destruct k as [|k].
  - rewrite lookup_app_l by (rewrite Hlen; lia). simpl. by rewrite Z.add_0_r.
  - rewrite lookup_app_r by (rewrite Hlen; lia). rewrite Hlen.
    replace (S k * L + j - L)%nat with (k * L + j)%nat by lia.
    replace (Z.pred (Z.of_nat (S n))) with (Z.of_nat n) by lia.
    rewrite IH by (done || lia). f_equal. f_equal. lia.
Qed.

Lemma lookup_grid_cells side c : in_grid side c ->
  cells (fresh_grid side) !! Z.to_nat (index_of side c) = Some c.
Proof.
  intros [H1 H2]. rewrite cells_fresh_grid by lia.
  replace (Z.to_nat (index_of side c)) with (Z.to_nat c.1 * Z.to_nat side + Z.to_nat c.2)%nat
    by (unfold index_of; nia).
  pose proof (lookup_rows (fun i => (fun j => (i, j)) <$> seqZ 0 side)
                (Z.to_nat side) (Z.to_nat side) 0 (Z.to_nat c.1) (Z.to_nat c.2)) as Hl.
  rewrite Z2Nat.id in Hl by lia. etrans; [apply Hl|].
  - intros i. by rewrite length_fmap, length_seqZ.
  - lia.
  - lia.
  - rewrite list_lookup_fmap, lookup_seqZ_lt by lia. simpl.
    destruct c as [r c]. simpl in *. f_equal. f_equal; lia.
Qed.

Lemma index_of_range side c : in_grid side c -> 0 <= index_of side c < side * side.
Proof. intros [H1 H2]. unfold index_of. nia. Qed.

Lemma index_of_inj side a b :
  in_grid side a -> in_grid side b -> index_of side a = index_of side b -> a = b.
Proof.
  intros [H1 H2] [H3 H4]. unfold index_of. destruct a as [a1 a2], b as [b1 b2].
  simpl in *. intros H. assert (a1 = b1) by nia. subst. f_equal. lia.
Qed.

Lemma FindCellIndex_grid_cells side c : in_grid side c ->
  FindCellIndex c (cells (fresh_grid side)) = index_of side c.
Proof.
  intros Hc. pose proof (index_of_range side c Hc).
  rewrite (FindCellIndex_lookup _ (Z.to_nat (index_of side c))).
  - lia.
  - apply NoDup_grid_cells. destruct Hc. lia.
  - by apply lookup_grid_cells.
Qed.

Lemma length_grid_cells side : 0 <= side ->
  Z.of_nat (length (cells (fresh_grid side))) = side * side.
Proof.
  intros H. rewrite cells_fresh_grid by done.
  assert (forall (n : nat) m, length (seqZ m (Z.of_nat n) ≫= fun i => (fun j => (i, j)) <$> seqZ 0 side)
                         = (n * Z.to_nat side)%nat) as Hl.
  { induction n as [|n IH]; intros m; [done|].
    rewrite (seqZ_cons m) by lia. rewrite bind_cons, length_app, length_fmap, length_seqZ.
    replace (Z.pred (Z.of_nat (S n))) with (Z.of_nat n) by lia. rewrite IH. lia. }
  specialize (Hl (Z.to_nat side) 0). rewrite Z2Nat.id in Hl by done.
  etrans; [apply f_equal, Hl|]. rewrite Nat2Z.inj_mul, Z2Nat.id by done. done.
Qed.

(** * The primitives on a well-formed grid *)

Section Grid.
Context (side : Z).

Lemma grid_ok_index w c : grid_ok side w -> in_grid side c ->
  FindCellIndex c (cells w) = index_of side c.
Proof. intros Hg Hc. rewrite (grid_cells _ _ Hg). by apply FindCellIndex_grid_cells. Qed.

Lemma grid_ok_element w c : grid_ok side w -> in_grid side c ->
  is_Some (document w !! FindCellIndex c (cells w)).
Proof.
  intros Hg Hc. rewrite (grid_ok_index w c) by done.
  apply (grid_elements _ _ Hg). by apply index_of_range.
Qed.

Lemma grid_ok_set_document w k s :
  grid_ok side w -> is_Some (document w !! k) ->
  grid_ok side (set_document (<[k := s]> (document w)) w).
Proof.
  intros [H1 H2 H3 H4 H5] Hk. split; simpl; try done.
  intros i. rewrite <- H5. destruct (decide (k = i)) as [->|Hne].
  - rewrite lookup_insert_eq. split; [done|eauto].
  - by rewrite lookup_insert_ne.
Qed.

Lemma grid_ok_set_visited w v : grid_ok side w -> grid_ok side (set_visited v w).
Proof. intros [H1 H2 H3 H4 H5]. by split. Qed.

Lemma grid_ok_set_frontier w f : grid_ok side w -> grid_ok side (set_frontier f w).
Proof. intros [H1 H2 H3 H4 H5]. by split. Qed.

Lemma grid_ok_set_random_calls w n : grid_ok side w -> grid_ok side (set_random_calls n w).
Proof. intros [H1 H2 H3 H4 H5]. by split. Qed.

Lemma grid_ok_fresh_grid : 0 < side -> grid_ok side (fresh_grid side).
Proof.
  intros H. split; try done.
  - unfold fresh_grid, build_grid. simpl. apply Z.sqrt_square. lia.
  - unfold fresh_grid, build_grid. simpl. apply Z.sqrt_square. lia.
  - intros i. unfold fresh_grid, build_grid. simpl.
    rewrite <- elem_of_dom, dom_list_to_map_L, elem_of_list_to_set.
    rewrite <- list_fmap_compose, list_elem_of_fmap. simpl.
    setoid_rewrite elem_of_seqZ. split; [intros (j & -> & Hj); lia | intros Hi; exists i; lia].
Qed.

(** ** Neighbours *)

Lemma Neighbors_spec w a b : grid_ok side w -> in_grid side a ->
  b ∈ Neighbors w a.1 a.2 <-> exists d, b = step_to a d /\ in_grid side b.
Proof.
  intros Hg [Ha1 Ha2]. unfold Neighbors.
  rewrite (grid_rows _ _ Hg), (grid_columns _ _ Hg). unfold in_grid.
  rewrite !elem_of_app. split.
  - intros [H|[H|[H|H]]]; case_match; try (by apply elem_of_nil in H);
      apply list_elem_of_singleton in H as ->;
      [exists Top | exists Right | exists Bottom | exists Left]; simpl; split; (done || lia).
  - intros (d & -> & [H1 H2]). destruct d; simpl in *.
    + left. case_match; [apply list_elem_of_singleton; done | lia].
    + right; left. case_match; [apply list_elem_of_singleton; done | lia].
    + right; right; left. case_match; [apply list_elem_of_singleton; done | lia].
    + right; right; right. case_match; [apply list_elem_of_singleton; done | lia].
Qed.

Lemma step_to_adjacent a b : adjacent a b <-> exists d, b = step_to a d.
Proof.
  unfold adjacent. destruct a as [a1 a2], b as [b1 b2]. simpl. split.
  - intros H.
    assert ((b1 = a1 - 1 /\ b2 = a2) \/ (b1 = a1 /\ b2 = a2 + 1) \/
            (b1 = a1 + 1 /\ b2 = a2) \/ (b1 = a1 /\ b2 = a2 - 1)) as Hc by lia.
    destruct Hc as [[-> ->]|[[-> ->]|[[-> ->]|[-> ->]]]];
      [exists Top | exists Right | exists Bottom | exists Left]; reflexivity.
  - intros [d H]. destruct d; simpl in H; simplify_eq; lia.
Qed.

Lemma Neighbors_adjacent w a b : grid_ok side w -> in_grid side a ->
  b ∈ Neighbors w a.1 a.2 <-> in_grid side b /\ adjacent a b.
Proof.
  intros Hg Ha. rewrite Neighbors_spec by done. rewrite step_to_adjacent.
  split; [intros (d & -> & Hb); eauto | intros (Hb & d & ->); eauto].
Qed.

Lemma NoDup_Neighbors w r c : NoDup (Neighbors w r c).
Proof.
  unfold Neighbors.
  repeat case_match; simpl; repeat (apply NoDup_cons; split);
    try apply NoDup_nil_2; rewrite ?not_elem_of_cons; repeat split;
    try apply not_elem_of_nil; intros [= ]; lia.
Qed.

Lemma step_to_opposite a d : step_to (step_to a d) (opposite d) = a.
Proof. destruct a, d; simpl; f_equal; lia. Qed.

Lemma step_to_inj a d d' : step_to a d = step_to a d' -> d = d'.
Proof. destruct a, d, d'; simpl; intros [= ]; (done || lia). Qed.

Lemma step_to_neq a d : step_to a d <> a.
Proof. destruct a, d; simpl; intros [= ]; lia. Qed.


(** ** Open borders *)

Lemma open_towards_grid w a bounds d n : grid_ok side w -> in_grid side a ->
  n = step_to a d ->
  open_towards bounds (FindCellIndex a (cells w)) d n w = Returns (open_side w a bounds d, w).
Proof.
  intros Hg Ha ->. destruct (grid_ok_element w a Hg Ha) as [s Hs].
  unfold open_towards, open_side, flag. rewrite Hs.
  destruct bounds; [|done]. rewrite andb_true_l.
  unfold is_transparent, get_style, bind, ret. rewrite Hs.
  by destruct (String.eqb (border s d) transparent).
Qed.

Lemma ConnectedNeighbors_grid w a : grid_ok side w -> in_grid side a ->
  ConnectedNeighbors a.1 a.2 w =
  Returns (open_side w a (0 <=? a.1 - 1) Top ++
           open_side w a (a.2 + 1 <? side) Right ++
           open_side w a (a.1 + 1 <? side) Bottom ++
           open_side w a (0 <=? a.2 - 1) Left, w).
Proof.
  intros Hg Ha. unfold ConnectedNeighbors.
  unfold bind at 1. unfold get.
  rewrite (grid_rows _ _ Hg), (grid_columns _ _ Hg).
  replace (a.1, a.2) with a by (by destruct a).
  unfold bind. rewrite !(open_towards_grid w a) by done. done.
Qed.

Lemma passage_spec w a b : grid_ok side w -> in_grid side a ->
  passage w a b <-> exists d, b = step_to a d /\ in_grid side b /\ flag w a d = true.
Proof.
  intros Hg Ha. unfold passage. rewrite ConnectedNeighbors_grid by done.
  destruct Ha as [Ha1 Ha2]. unfold open_side, in_grid. split.
  - intros (l & [= <-] & Hb). rewrite !elem_of_app in Hb.
    destruct Hb as [H|[H|[H|H]]];
      (destruct (flag w a _) eqn:Hf; [|rewrite andb_false_r in H; by apply elem_of_nil in H]);
      case_match; simpl in H; try (by apply elem_of_nil in H);
      apply list_elem_of_singleton in H as ->;
      [exists Top | exists Right | exists Bottom | exists Left]; simpl; repeat split; (done || lia).
  - intros (d & -> & [H1 H2] & Hf). eexists; split; [done|].
    rewrite !elem_of_app. destruct d; simpl in *; rewrite Hf, andb_true_r.
    + left. case_match; [apply list_elem_of_singleton; done | lia].
    + right; left. case_match; [apply list_elem_of_singleton; done | lia].
    + right; right; left. case_match; [apply list_elem_of_singleton; done | lia].
    + right; right; right. case_match; [apply list_elem_of_singleton; done | lia].
Qed.

Lemma IsOpen_passage w a b : grid_ok side w -> in_grid side a ->
  IsOpen w a b = true <-> passage w a b.
Proof.
  intros Hg Ha. unfold IsOpen, passage. rewrite ConnectedNeighbors_grid by done.
  rewrite bool_decide_eq_true. split; [eauto | by intros (l & [= <-] & H)].
Qed.

Lemma passage_in_grid w a b : grid_ok side w -> in_grid side a -> passage w a b ->
  in_grid side b /\ adjacent a b.
Proof.
  intros Hg Ha (d & -> & Hb & _)%passage_spec; [|done..]. split; [done|].
  apply step_to_adjacent. eauto.
Qed.


(** ** Writing to the DOM *)

Lemma update_style_eq w k f : is_Some (document w !! k) ->
  update_style k f w = Returns (tt, set_document (alter f k (document w)) w).
Proof.
  intros [s Hs]. unfold update_style, bind, get_style, modify. rewrite Hs.
  do 3 f_equal. apply map_eq. intros i. destruct (decide (k = i)) as [->|Hne].
  - by rewrite lookup_insert_eq, lookup_alter_eq, Hs.
  - by rewrite lookup_insert_ne, lookup_alter_ne.
Qed.

Lemma set_border_grid w c d : grid_ok side w -> in_grid side c ->
  set_border (FindCellIndex c (cells w)) d transparent w = Returns (tt, open_border c d w).
Proof. intros Hg Hc. apply update_style_eq. by apply grid_ok_element. Qed.

Lemma set_background_grid w c colour : grid_ok side w -> in_grid side c ->
  set_background (FindCellIndex c (cells w)) colour w = Returns (tt, paint c colour w).
Proof. intros Hg Hc. apply update_style_eq. by apply grid_ok_element. Qed.

Lemma grid_ok_alter w k f :
  grid_ok side w -> grid_ok side (set_document (alter f k (document w)) w).
Proof.
  intros [H1 H2 H3 H4 H5]. split; simpl; try done.
  intros i. rewrite <- H5. destruct (decide (k = i)) as [->|Hne].
  - rewrite lookup_alter_eq. apply fmap_is_Some.
  - by rewrite lookup_alter_ne.
Qed.

Lemma grid_ok_open_border w c d : grid_ok side w -> grid_ok side (open_border c d w).
Proof. apply grid_ok_alter. Qed.

Lemma grid_ok_paint w c colour : grid_ok side w -> grid_ok side (paint c colour w).
Proof. apply grid_ok_alter. Qed.

Lemma grid_ok_visit w c : grid_ok side w -> grid_ok side (visit c w).
Proof. apply grid_ok_set_visited. Qed.

Lemma flag_open_border w c d c' d' :
  grid_ok side w -> in_grid side c -> in_grid side c' ->
  flag (open_border c d w) c' d' = true <-> flag w c' d' = true \/ (c' = c /\ d' = d).
Proof.
  intros Hg Hc Hc'. unfold flag, open_border. simpl.
  destruct (grid_ok_element w c' Hg Hc') as [s Hs].
  destruct (decide (c' = c)) as [->|Hne].
  - rewrite lookup_alter_eq, Hs. simpl.
    destruct d, d', s; simpl; split; intros H;
      try done; try (by left); try (by right); try tauto;
      try (destruct H as [H|[_ [=]]]; done).
  - rewrite lookup_alter_ne, Hs.
    + split; [by left | intros [H|[H _]]; done].
    + rewrite !(grid_ok_index w) by done. intros H. apply Hne.
      symmetry. by apply (index_of_inj side).
Qed.

Lemma flag_paint w c colour c' d' :
  flag (paint c colour w) c' d' = flag w c' d'.
Proof.
  unfold flag, paint. simpl.
  destruct (decide (FindCellIndex c (cells w) = FindCellIndex c' (cells w))) as [E|Hne].
  - rewrite E, lookup_alter_eq. destruct (document w !! _) as [s|]; [|done]. by destruct d', s.
  - by rewrite lookup_alter_ne.
Qed.

Lemma flag_visit w c c' d' : flag (visit c w) c' d' = flag w c' d'.
Proof. done. Qed.

Lemma passage_paint w c colour a b : grid_ok side w -> in_grid side a ->
  passage (paint c colour w) a b <-> passage w a b.
Proof.
  intros Hg Ha. rewrite !passage_spec by (done || by apply grid_ok_paint).
  by setoid_rewrite flag_paint.
Qed.

Lemma passage_visit w c a b : grid_ok side w -> in_grid side a ->
  passage (visit c w) a b <-> passage w a b.
Proof.
  intros Hg Ha. rewrite !passage_spec by (done || by apply grid_ok_visit). done.
Qed.

(** ** Cutting an edge *)

Lemma CutEdge_step w a d : grid_ok side w -> in_grid side a -> in_grid side (step_to a d) ->
  CutEdge a (step_to a d) w =
  Returns (tt, open_border (step_to a d) (opposite d) (open_border a d w)).
Proof.
  intros Hg Ha Hb. unfold CutEdge, bind, get.
  pose proof (set_border_grid w a d Hg Ha) as H1.
  pose proof (set_border_grid (open_border a d w) (step_to a d) (opposite d)
                (grid_ok_open_border w a d Hg) Hb) as H2.
  destruct a as [r c], d; simpl in *;
    repeat match goal with
    | |- context [?u =? ?v] =>
        first [ rewrite (Z.eqb_refl u)
              | rewrite (proj2 (Z.eqb_eq u v)) by lia
              | rewrite (proj2 (Z.eqb_neq u v)) by lia ]
    end; rewrite H1; exact H2.
Qed.

Lemma passage_CutEdge w a d x y :
  grid_ok side w -> in_grid side a -> in_grid side (step_to a d) -> in_grid side x ->
  passage (open_border (step_to a d) (opposite d) (open_border a d w)) x y <->
  passage w x y \/ (x = a /\ y = step_to a d) \/ (x = step_to a d /\ y = a).
Proof.
  intros Hg Ha Hb Hx.
  rewrite !passage_spec by (done || by repeat apply grid_ok_open_border).
  split.
  - intros (d' & -> & Hy & Hf).
    apply flag_open_border in Hf; [|by apply grid_ok_open_border|done..].
    destruct Hf as [Hf|[-> ->]].
    + apply flag_open_border in Hf; [|done..].
      destruct Hf as [Hf|[-> ->]]; [left; eauto | right; left; done].
    + right; right. by rewrite step_to_opposite.
  - intros [(d' & -> & Hy & Hf)|[[-> ->]|[-> ->]]].
    + exists d'. split; [done|]. split; [done|].
      apply flag_open_border; [by apply grid_ok_open_border|done..|].
      left. apply flag_open_border; [done..|]. by left.
    + exists d. split; [done|]. split; [done|].
      apply flag_open_border; [by apply grid_ok_open_border|done..|].
      left. apply flag_open_border; [done..|]. by right.
    + exists (opposite d). rewrite step_to_opposite. split; [done|]. split; [done|].
      apply flag_open_border; [by apply grid_ok_open_border|done..|]. by right.
Qed.

End Grid.

(** * Counting *)

Lemma filter_flip {A} (f g : A -> bool) (l : list A) (x : A) :
  NoDup l -> x ∈ l -> f x = false -> g x = true ->
  (forall y, y ∈ l -> y <> x -> g y = f y) ->
  length (List.filter g l) = S (length (List.filter f l)).
Proof.
  intros Hnd Hx Hf Hg Hother.
  assert (forall l', x ∉ l' -> (forall y, y ∈ l' -> g y = f y) ->
                List.filter g l' = List.filter f l') as Hsame.
  { induction l' as [|y l' IH]; intros Hn Hy; [done|]. simpl.
    apply not_elem_of_cons in Hn as [Hne Hn].
    rewrite (Hy y) by left. rewrite IH; [done..|]. intros z Hz. apply Hy. by right. }
  induction l as [|y l IH]; [by apply elem_of_nil in Hx|].
  apply NoDup_cons in Hnd as [Hy Hnd]. simpl.
  apply elem_of_cons in Hx as [->|Hx].
  - rewrite Hf, Hg. simpl. f_equal. rewrite Hsame; [done..|].
    intros z Hz. apply Hother; [by right|]. intros ->. done.
  - assert (y <> x) as Hne by (intros ->; done).
    rewrite (Hother y) by (done || left).
    destruct (f y); simpl; rewrite IH; try done; intros z Hz; apply Hother; by right.
Qed.

Lemma filter_same {A} (f g : A -> bool) (l : list A) :
  (forall y, y ∈ l -> g y = f y) -> List.filter g l = List.filter f l.
Proof.
  induction l as [|y l IH]; intros Hy; [done|]. simpl.
  rewrite (Hy y) by left. rewrite IH; [done|]. intros z Hz. apply Hy. by right.
Qed.

(** * Relations: adding one undirected edge *)

Section AddEdge.
Context (w w' : world) (a b : cell).
Hypothesis Hadd : forall x y,
  passage w' x y <-> passage w x y \/ (x = a /\ y = b) \/ (x = b /\ y = a).

Lemma passage_mono x y : passage w x y -> passage w' x y.
Proof. intros H. apply Hadd. by left. Qed.

Lemma reach_mono x y : rtc (passage w) x y -> rtc (passage w') x y.
Proof. apply rtc_subrel. exact passage_mono. Qed.

Lemma linked_add x y :
  linked w' x y <-> linked w x y \/ (x = a /\ y = b) \/ (x = b /\ y = a).
Proof. unfold linked. rewrite !Hadd. tauto. Qed.

Lemma linked_sym v x y : linked v x y -> linked v y x.
Proof. unfold linked. tauto. Qed.

Lemma linked_without_sym v p q x y : linked_without v p q x y -> linked_without v p q y x.
Proof. unfold linked_without, linked. tauto. Qed.

Lemma rtc_linked_without_sym v p q x y :
  rtc (linked_without v p q) x y -> rtc (linked_without v p q) y x.
Proof.
  induction 1 as [|x y z Hxy _ IH]; [done|].
  eapply rtc_r; [exact IH|]. by apply linked_without_sym.
Qed.

Lemma rtc_linked_sym v x y : rtc (linked v) x y -> rtc (linked v) y x.
Proof.
  induction 1 as [|x y z Hxy _ IH]; [done|].
  eapply rtc_r; [exact IH|]. by apply linked_sym.
Qed.

Lemma linked_without_linked v p q x y :
  rtc (linked_without v p q) x y -> rtc (linked v) x y.
Proof. apply rtc_subrel. by intros ?? [? _]. Qed.

Lemma acyclic_add_edge :
  a <> b -> acyclic w -> ~ rtc (linked w) a b -> acyclic w'.
Proof.
  intros Hab Hacyc Hsep x y Hxy Hpath.
  apply Hadd in Hxy as [Hxy|Hnew].
  - (* an old passage: a path around it either avoids the new edge or
       connects [a] and [b] in the old graph *)
    assert (forall z, rtc (linked_without w' x y) x z ->
              rtc (linked_without w x y) x z \/
              ((rtc (linked_without w x y) x a \/ rtc (linked_without w x y) x b) /\
               (rtc (linked_without w x y) a z \/ rtc (linked_without w x y) b z))) as Hcases.
    { apply rtc_ind_r; [by left|]. intros z z' Hz Hstep IH.
      destruct Hstep as [Hl Hn]. apply linked_add in Hl as [Hl|[[-> ->]|[-> ->]]].
      - assert (linked_without w x y z z') as Hs by done.
        destruct IH as [IH|[IH1 [IH2|IH2]]].
        + left. by eapply rtc_r.
        + right. split; [done|]. left. by eapply rtc_r.
        + right. split; [done|]. right. by eapply rtc_r.
      - right. destruct IH as [IH|[IH1 _]]; (split; [tauto | by right]).
      - right. destruct IH as [IH|[IH1 _]]; (split; [tauto | by left]). }
    destruct (Hcases y Hpath) as [H|[[H1|H1] [H2|H2]]].
    + by apply (Hacyc x y).
    + apply (Hacyc x y); [done|]. by etrans.
    + apply Hsep. etrans; [apply rtc_linked_sym, (linked_without_linked _ _ _ _ _ H1)|].
      etrans; [apply rtc_once; left; exact Hxy|].
      apply rtc_linked_sym, (linked_without_linked _ _ _ _ _ H2).
    + apply Hsep. etrans; [apply (linked_without_linked _ _ _ _ _ H2)|].
      etrans; [apply rtc_once; right; exact Hxy|].
      apply (linked_without_linked _ _ _ _ _ H1).
    + apply (Hacyc x y); [done|]. by etrans.
  - (* the new passage: a path around it lies in the old graph *)
    assert (rtc (linked w) x y) as Hold.
    { eapply rtc_subrel; [|exact Hpath]. intros u v [Hl Hn].
      apply linked_add in Hl as [Hl|Hl]; [done|]. exfalso. apply Hn.
      destruct Hnew as [[-> ->]|[-> ->]]; tauto. }
    destruct Hnew as [[-> ->]|[-> ->]]; [done|]. by apply Hsep, rtc_linked_sym.
Qed.

End AddEdge.

Section Edges.
Context (side : Z).

(** * Passages stay inside the grid *)

Lemma FindCellIndex_outside w c : grid_ok side w -> ~ in_grid side c ->
  document w !! FindCellIndex c (cells w) = None.
Proof.
  intros Hg Hc. unfold FindCellIndex. rewrite FindCellIndex_from_notin.
  - apply eq_None_not_Some. rewrite (grid_elements _ _ Hg). lia.
  - rewrite (grid_cells _ _ Hg), elem_of_grid_cells; [done|].
    pose proof (grid_side _ _ Hg). lia.
Qed.

Lemma passage_in_grid_l w a b : grid_ok side w -> passage w a b -> in_grid side a.
Proof.
  intros Hg (l & Hl & Hb). destruct (decide (in_grid side a)) as [|Hout]; [done|exfalso].
  pose proof (FindCellIndex_outside w a Hg Hout) as Hnone.
  unfold ConnectedNeighbors in Hl. unfold bind at 1 in Hl. unfold get in Hl.
  replace (a.1, a.2) with a in Hl by (by destruct a).
  assert (forall bounds d n, open_towards bounds (FindCellIndex a (cells w)) d n w =
            if bounds then Throws TypeError else Returns ([], w)) as Ho.
  { intros bounds d n. unfold open_towards, is_transparent, get_style, bind, ret.
    destruct bounds; [|done]. by rewrite Hnone. }
  unfold bind in Hl.
  do 4 (rewrite Ho in Hl;
        match type of Hl with context [if ?c then _ else _] => destruct c end; [done|]).
  unfold ret in Hl. simplify_eq. by apply elem_of_nil in Hb.
Qed.

Lemma passage_cells w a b : grid_ok side w -> passage w a b ->
  in_grid side a /\ in_grid side b /\ adjacent a b.
Proof.
  intros Hg H. pose proof (passage_in_grid_l w a b Hg H) as Ha.
  split; [done|]. by apply (passage_in_grid side w).
Qed.

Lemma passage_cut w a d x y :
  grid_ok side w -> in_grid side a -> in_grid side (step_to a d) ->
  passage (open_border (step_to a d) (opposite d) (open_border a d w)) x y <->
  passage w x y \/ (x = a /\ y = step_to a d) \/ (x = step_to a d /\ y = a).
Proof.
  intros Hg Ha Hb. destruct (decide (in_grid side x)) as [Hx|Hx].
  - by apply (passage_CutEdge side).
  - split.
    + intros H%passage_in_grid_l; [done|]. by repeat apply grid_ok_open_border.
    + intros [H%passage_in_grid_l|[[-> _]|[-> _]]]; done.
Qed.

Lemma passage_paint_all w c colour x y : grid_ok side w ->
  passage (paint c colour w) x y <-> passage w x y.
Proof.
  intros Hg. destruct (decide (in_grid side x)) as [Hx|Hx].
  - by apply (passage_paint side).
  - split; intros H%passage_in_grid_l; try done. by apply grid_ok_paint.
Qed.

Lemma passage_full w x y : grid_ok side w ->
  passage w x y <->
  in_grid side x /\ exists d, y = step_to x d /\ in_grid side y /\ flag w x d = true.
Proof.
  intros Hg. split.
  - intros H. pose proof (passage_in_grid_l w x y Hg H) as Hx. split; [done|].
    by apply (passage_spec side).
  - intros [Hx H]. by apply (passage_spec side).
Qed.

Lemma passage_flag_ext w w' x y : grid_ok side w -> grid_ok side w' ->
  (forall c d, flag w' c d = flag w c d) ->
  passage w' x y <-> passage w x y.
Proof. intros Hg Hg' Hf. rewrite !passage_full by done. by setoid_rewrite Hf. Qed.

(** * Visited cells *)

Lemma is_visited_visit w c c' : grid_ok side w -> in_grid side c -> in_grid side c' ->
  is_visited (visit c w) c' = true <-> c' = c \/ is_visited w c' = true.
Proof.
  intros Hg Hc Hc'. unfold is_visited, visit. simpl.
  destruct (decide (c' = c)) as [->|Hne].
  - rewrite lookup_insert_eq. simpl. tauto.
  - rewrite lookup_insert_ne; [tauto|].
    rewrite !(grid_ok_index side w) by done. intros H. apply Hne.
    symmetry. by apply (index_of_inj side).
Qed.

Lemma is_visited_visit_same w c : is_visited (visit c w) c = true.
Proof. unfold is_visited, visit. simpl. by rewrite lookup_insert_eq. Qed.

Lemma is_visited_visit_other w c c' : grid_ok side w -> in_grid side c -> in_grid side c' ->
  c' <> c -> is_visited (visit c w) c' = is_visited w c'.
Proof.
  intros Hg Hc Hc' Hne. unfold is_visited, visit. simpl.
  rewrite lookup_insert_ne; [done|].
  rewrite !(grid_ok_index side w) by done. intros H. apply Hne.
  symmetry. by apply (index_of_inj side).
Qed.

Lemma visited_count_visit w c : grid_ok side w -> in_grid side c ->
  is_visited w c = false -> visited_count (visit c w) = S (visited_count w).
Proof.
  intros Hg Hc Hv. unfold visited_count.
  assert (cells (visit c w) = cells w) as -> by done.
  pose proof (grid_side _ _ Hg).
  apply (filter_flip _ _ _ c).
  - rewrite (grid_cells _ _ Hg). apply NoDup_grid_cells. lia.
  - rewrite (grid_cells _ _ Hg). apply elem_of_grid_cells; [lia|done].
  - done.
  - apply is_visited_visit_same.
  - intros y Hy Hne. apply is_visited_visit_other; try done.
    rewrite (grid_cells _ _ Hg) in Hy. apply elem_of_grid_cells in Hy; [done|lia].
Qed.

(** * The edges of the grid *)

Lemma elem_of_GetAllEdges w e : grid_ok side w ->
  e ∈ GetAllEdges w <->
  in_grid side e.1 /\ in_grid side e.2 /\
  (e.2 = step_to e.1 Bottom \/ e.2 = step_to e.1 Right).
Proof.
  intros Hg. unfold GetAllEdges. rewrite (grid_rows _ _ Hg), (grid_columns _ _ Hg).
  rewrite list_elem_of_bind. setoid_rewrite list_elem_of_bind.
  setoid_rewrite elem_of_app. setoid_rewrite elem_of_seqZ. unfold in_grid. split.
  - intros (x & (y & [He|He] & Hy) & Hx).
    + destruct (Z.ltb_spec x (side - 1)); [|by apply elem_of_nil in He].
      apply list_elem_of_singleton in He as ->. simpl. split; [lia|]. split; [lia|]. by left.
    + destruct (Z.ltb_spec y (side - 1)); [|by apply elem_of_nil in He].
      apply list_elem_of_singleton in He as ->. simpl. split; [lia|]. split; [lia|]. by right.
  - destruct e as [[x y] [x' y']]. simpl. intros ([??] & [??] & [[= -> ->]|[= -> ->]]).
    + exists x. split; [|lia]. exists y. split; [|lia]. left.
      destruct (Z.ltb_spec x (side - 1)); [apply list_elem_of_singleton; done | lia].
    + exists x. split; [|lia]. exists y. split; [|lia]. right.
      destruct (Z.ltb_spec y (side - 1)); [apply list_elem_of_singleton; done | lia].
Qed.

Lemma NoDup_GetAllEdges w : NoDup (GetAllEdges w).
Proof.
  unfold GetAllEdges. apply NoDup_bind; [| |apply NoDup_seqZ].
  - intros x1 x2 e _ _ H1 H2.
    apply list_elem_of_bind in H1 as (y1 & H1 & _), H2 as (y2 & H2 & _).
    apply elem_of_app in H1, H2.
    destruct H1 as [H1|H1], H2 as [H2|H2]; repeat case_match;
      try (by apply elem_of_nil in H1); try (by apply elem_of_nil in H2);
      apply list_elem_of_singleton in H1, H2; by simplify_eq.
  - intros x _. apply NoDup_bind; [| |apply NoDup_seqZ].
    + intros y1 y2 e _ _ H1 H2. apply elem_of_app in H1, H2.
      destruct H1 as [H1|H1], H2 as [H2|H2]; repeat case_match;
        try (by apply elem_of_nil in H1); try (by apply elem_of_nil in H2);
        apply list_elem_of_singleton in H1, H2; by simplify_eq.
    + intros y _. repeat case_match; simpl; repeat (apply NoDup_cons; split);
        try apply NoDup_nil_2; try apply not_elem_of_nil.
      rewrite list_elem_of_singleton. intros [= ]. lia.
Qed.

(** The grid edge between [a] and its neighbour across [d], the way
    [GetAllEdges] orients it. *)
Lemma oriented_edge w a d : grid_ok side w ->
  in_grid side a -> in_grid side (step_to a d) ->
  let e := match d with
           | Bottom | Right => (a, step_to a d)
           | Top | Left => (step_to a d, a)
           end in
  e ∈ GetAllEdges w /\ (e.2, e.1) ∉ GetAllEdges w.
Proof.
  intros Hg Ha Hb e. rewrite !elem_of_GetAllEdges by done.
  destruct a as [r c]. destruct d; subst e; simpl in *; unfold in_grid in *; simpl in *;
    (split; [repeat split; try lia; (left; f_equal; lia) || (right; f_equal; lia)
            | intros (_ & _ & [[= ]|[= ]]); lia]).
Qed.

Lemma open_passages_cut w a d : grid_ok side w ->
  in_grid side a -> in_grid side (step_to a d) ->
  ~ passage w a (step_to a d) -> ~ passage w (step_to a d) a ->
  length (open_passages (open_border (step_to a d) (opposite d) (open_border a d w)))
  = S (length (open_passages w)).
Proof.
  intros Hg Ha Hb Hc1 Hc2. set (w' := open_border _ _ _).
  assert (grid_ok side w') as Hg' by (by repeat apply grid_ok_open_border).
  destruct (oriented_edge w a d Hg Ha Hb) as [He Hrev].
  set (e := match d with Bottom | Right => (a, step_to a d) | _ => (step_to a d, a) end) in *.
  unfold open_passages. assert (GetAllEdges w' = GetAllEdges w) as -> by done.
  assert (e = (a, step_to a d) \/ e = (step_to a d, a)) as Hcase by (destruct d; auto).
  apply (filter_flip _ _ _ e); [apply NoDup_GetAllEdges|done|..].
  - apply not_true_is_false. intros Ho. apply (IsOpen_passage side) in Ho; [|done|].
    + destruct Hcase as [->| ->]; done.
    + by apply elem_of_GetAllEdges in He as (? & _).
  - apply (IsOpen_passage side); [done|by apply elem_of_GetAllEdges in He as (? & _)|].
    apply passage_cut; [done..|]. destruct Hcase as [->| ->]; simpl; tauto.
  - intros f Hf Hne. apply elem_of_GetAllEdges in Hf as Hf'; [|done].
    destruct Hf' as (Hf1 & _).
    apply eq_true_iff_eq. rewrite !(IsOpen_passage side) by done.
    unfold w'. rewrite passage_cut by done. split; [|tauto].
    intros [H|[[H1 H2]|[H1 H2]]]; [done|exfalso..].
    + destruct Hcase as [E|E].
      * apply Hne. rewrite E. destruct f; simpl in *; by subst.
      * apply Hrev. rewrite E. simpl. by replace (a, step_to a d) with f by (destruct f; simpl in *; by subst).
    + destruct Hcase as [E|E].
      * apply Hrev. rewrite E. simpl. by replace (step_to a d, a) with f by (destruct f; simpl in *; by subst).
      * apply Hne. rewrite E. destruct f; simpl in *; by subst.
Qed.

End Edges.

Section Tree.
Context (side : Z).

(** * Worlds with the same passages *)

Lemma open_passages_ext w w' : grid_ok side w -> grid_ok side w' ->
  (forall x y, passage w' x y <-> passage w x y) ->
  open_passages w' = open_passages w.
Proof.
  intros Hg Hg' Hp. unfold open_passages.
  assert (GetAllEdges w' = GetAllEdges w) as ->.
  { unfold GetAllEdges. by rewrite (grid_rows _ _ Hg), (grid_columns _ _ Hg),
      (grid_rows _ _ Hg'), (grid_columns _ _ Hg'). }
  apply filter_same. intros e He. apply (elem_of_GetAllEdges side) in He as (He & _); [|done].
  apply eq_true_iff_eq. by rewrite !(IsOpen_passage side).
Qed.

Lemma linked_without_ext w w' a b x y :
  (forall x y, passage w' x y <-> passage w x y) ->
  linked_without w' a b x y <-> linked_without w a b x y.
Proof. intros Hp. unfold linked_without, linked. by rewrite !Hp. Qed.

Lemma acyclic_ext w w' :
  (forall x y, passage w' x y <-> passage w x y) -> acyclic w -> acyclic w'.
Proof.
  intros Hp Hac a b Hab Hpath. apply (Hac a b); [by apply Hp|].
  eapply rtc_subrel; [|exact Hpath]. intros x y. by apply linked_without_ext.
Qed.

Lemma visited_count_ext w w' : cells w' = cells w ->
  (forall c, is_visited w' c = is_visited w c) -> visited_count w' = visited_count w.
Proof.
  intros Hc Hv. unfold visited_count. rewrite Hc. f_equal. by apply filter_same.
Qed.

Lemma tree_inv_ext w w' : grid_ok side w' -> cells w' = cells w ->
  (forall x y, passage w' x y <-> passage w x y) ->
  (forall c, is_visited w' c = is_visited w c) ->
  tree_inv side w -> tree_inv side w'.
Proof.
  intros Hg' Hc Hp Hv [Hg Hs Hvis Hconn Hcount Hac]. split.
  - done.
  - intros a b. rewrite !Hp. apply Hs.
  - intros a b. rewrite Hp, Hv. apply Hvis.
  - intros a b Ha Hb. rewrite !Hv. intros Hva Hvb.
    eapply rtc_subrel; [|by apply Hconn]. intros x y. by apply Hp.
  - rewrite (open_passages_ext w w'), (visited_count_ext w w') by done. done.
  - by apply (acyclic_ext w).
Qed.

Lemma tree_inv_paint w c colour : tree_inv side w -> tree_inv side (paint c colour w).
Proof.
  intros Ht. pose proof (tree_grid _ _ Ht) as Hg.
  apply (tree_inv_ext w); [by apply grid_ok_paint|done| |done|done].
  intros x y. by apply (passage_paint_all side).
Qed.

Lemma tree_inv_set_frontier w f : tree_inv side w -> tree_inv side (set_frontier f w).
Proof.
  intros Ht. pose proof (tree_grid _ _ Ht) as Hg.
  apply (tree_inv_ext w); [by apply grid_ok_set_frontier|done| |done|done].
  intros x y. apply (passage_flag_ext side); [done|by apply grid_ok_set_frontier|done].
Qed.

Lemma tree_inv_set_random_calls w n : tree_inv side w -> tree_inv side (set_random_calls n w).
Proof.
  intros Ht. pose proof (tree_grid _ _ Ht) as Hg.
  apply (tree_inv_ext w); [by apply grid_ok_set_random_calls|done| |done|done].
  intros x y. apply (passage_flag_ext side); [done|by apply grid_ok_set_random_calls|done].
Qed.

(** * Growing the tree by one cell *)

Lemma CutEdge_cut w a d : grid_ok side w -> in_grid side a -> in_grid side (step_to a d) ->
  CutEdge a (step_to a d) w = Returns (tt, cut a d w).
Proof. apply CutEdge_step. Qed.

Lemma CutEdge_back w c d : grid_ok side w -> in_grid side c -> in_grid side (step_to c d) ->
  CutEdge (step_to c d) c w = Returns (tt, cut (step_to c d) (opposite d) w).
Proof.
  intros Hg Hc Hn. pose proof (CutEdge_step side w (step_to c d) (opposite d) Hg Hn) as H.
  rewrite step_to_opposite in H. unfold cut. rewrite step_to_opposite. by apply H.
Qed.

Lemma passage_grow w a d x y :
  grid_ok side w -> in_grid side a -> in_grid side (step_to a d) ->
  passage (visit a (cut a d w)) x y <->
  passage w x y \/ (x = a /\ y = step_to a d) \/ (x = step_to a d /\ y = a).
Proof.
  intros Hg Ha Hb. rewrite <- (passage_cut side) by done.
  apply (passage_flag_ext side); [by repeat apply grid_ok_open_border| |done].
  by apply grid_ok_visit; repeat apply grid_ok_open_border.
Qed.

Lemma unvisited_isolated w a b : tree_inv side w -> is_visited w a = false ->
  a <> b -> ~ rtc (linked w) a b.
Proof.
  intros Ht Hv Hne Hpath. apply rtc_inv in Hpath as [->|(z & [H|H] & _)]; [done|..].
  - apply (tree_visited _ _ Ht) in H. congruence.
  - apply (tree_symmetric _ _ Ht), (tree_visited _ _ Ht) in H. congruence.
Qed.

Lemma tree_grow w a d :
  tree_inv side w -> in_grid side a -> in_grid side (step_to a d) ->
  is_visited w a = false -> is_visited w (step_to a d) = true ->
  tree_inv side (visit a (cut a d w)).
Proof.
  intros Ht Ha Hb Hva Hvb. pose proof Ht as [Hg Hs Hvis Hconn Hcount Hac].
  set (b := step_to a d) in *. set (w' := visit a (cut a d w)).
  assert (grid_ok side (cut a d w)) as Hgc by (by repeat apply grid_ok_open_border).
  assert (grid_ok side w') as Hg' by (by apply grid_ok_visit).
  assert (forall x y, passage w' x y <-> passage w x y \/ (x = a /\ y = b) \/ (x = b /\ y = a))
    as Hadd by (intros; by apply passage_grow).
  assert (forall c, in_grid side c -> is_visited w' c = true <-> c = a \/ is_visited w c = true) as Hv'.
  { intros c Hc. unfold w'. rewrite (is_visited_visit side) by done. done. }
  assert (a <> b) as Hab by (intros E; congruence).
  assert (passage w' a b) as Hnew1 by (apply Hadd; tauto).
  assert (passage w' b a) as Hnew2 by (apply Hadd; tauto).
  split.
  - done.
  - intros x y. rewrite !Hadd. intros [H|[[-> ->]|[-> ->]]]; [left; by apply Hs|tauto..].
  - intros x y Hxy. pose proof (passage_in_grid_l side w' x y Hg' Hxy) as Hx.
    apply Hv'; [done|]. apply Hadd in Hxy as [H|[[-> _]|[-> _]]]; [right; by eapply Hvis|by left|by right].
  - intros x y Hx Hy Hvx Hvy. apply Hv' in Hvx, Hvy; [|done..].
    destruct Hvx as [->|Hvx], Hvy as [->|Hvy].
    + done.
    + eapply rtc_l; [exact Hnew1|]. apply (reach_mono w w' a b Hadd). by apply Hconn.
    + eapply rtc_r; [|exact Hnew2]. apply (reach_mono w w' a b Hadd). by apply Hconn.
    + apply (reach_mono w w' a b Hadd). by apply Hconn.
  - unfold w'. rewrite (visited_count_visit side) by done.
    assert (visited_count (cut a d w) = visited_count w) as -> by done.
    rewrite <- Hcount. f_equal.
    rewrite (open_passages_ext (cut a d w) (visit a (cut a d w))); [| done | done |].
    + unfold cut. apply (open_passages_cut side); try done.
      * intros H. apply Hvis in H. congruence.
      * intros H. apply Hs, Hvis in H. congruence.
    + intros x y. by apply (passage_flag_ext side).
  - apply (acyclic_add_edge w w' a b Hadd Hab Hac). by apply unvisited_isolated.
Qed.

End Tree.

(** * The grid is connected *)

Lemma grid_closed side (P : cell -> Prop) (c0 : cell) :
  in_grid side c0 -> P c0 ->
  (forall a d, in_grid side a -> in_grid side (step_to a d) -> P a -> P (step_to a d)) ->
  forall c, in_grid side c -> P c.
Proof.
  intros H0 HP0 Hstep.
  assert (forall (n : nat) c, in_grid side c ->
            Z.abs (c.1 - c0.1) + Z.abs (c.2 - c0.2) = Z.of_nat n -> P c) as Hind.
  { induction n as [|n IH]; intros c Hc Hd.
    - replace c with c0; [done|]. destruct c, c0; simpl in *; f_equal; lia.
    - destruct H0 as [H01 H02], Hc as [Hc1 Hc2].
      destruct c as [r k], c0 as [r0 k0]; simpl in *.
      destruct (decide (r0 < r)); [|destruct (decide (r < r0)); [|destruct (decide (k0 < k))]].
      + replace (r, k) with (step_to (r - 1, k) Bottom) by (simpl; f_equal; lia).
        apply Hstep; [split; simpl; lia..|]. apply IH; [split; simpl; lia | simpl; lia].
      + replace (r, k) with (step_to (r + 1, k) Top) by (simpl; f_equal; lia).
        apply Hstep; [split; simpl; lia..|]. apply IH; [split; simpl; lia | simpl; lia].
      + replace (r, k) with (step_to (r, k - 1) Right) by (simpl; f_equal; lia).
        apply Hstep; [split; simpl; lia..|]. apply IH; [split; simpl; lia | simpl; lia].
      + replace (r, k) with (step_to (r, k + 1) Left) by (simpl; f_equal; lia).
        apply Hstep; [split; simpl; lia..|]. apply IH; [split; simpl; lia | simpl; lia]. }
  intros c Hc.
  apply (Hind (Z.to_nat (Z.abs (c.1 - c0.1) + Z.abs (c.2 - c0.2))) c Hc). lia.
Qed.

(** * Random draws *)

Lemma Qfloor_unit (r : Q) (n : Z) :
  (0 <= r)%Q -> (r < 1)%Q -> 0 < n -> 0 <= Qfloor (r * inject_Z n) < n.
Proof.
  intros H0 H1 Hn.
  assert (0 < inject_Z n)%Q as Hq by (replace 0%Q with (inject_Z 0) by done; by rewrite <- Zlt_Qlt).
  split.
  - replace 0 with (Qfloor 0) by done. apply Qfloor_resp_le.
    apply Qmult_le_0_compat; [done|]. by apply Qlt_le_weak.
  - rewrite Zlt_Qlt. eapply Qle_lt_trans; [apply Qfloor_le|].
    eapply Qlt_le_trans; [apply Qmult_lt_compat_r; [exact Hq|exact H1]|].
    rewrite Qmult_1_l. apply Qle_refl.
Qed.

Lemma random_below_eq random n w :
  random_below random n w =
  Returns (Qfloor (random (random_calls w) * inject_Z n), set_random_calls (S (random_calls w)) w).
Proof. done. Qed.

Lemma random_element_eq {A} random (l : list A) w :
  random_element random l w =
  Returns (at_index l (Qfloor (random (random_calls w) * inject_Z (Z.of_nat (length l)))),
           set_random_calls (S (random_calls w)) w).
Proof. done. Qed.

Lemma random_element_nonempty {A} random (l : list A) w :
  unit_interval random -> l <> [] ->
  exists (k : nat) x, l !! k = Some x /\
    Qfloor (random (random_calls w) * inject_Z (Z.of_nat (length l))) = Z.of_nat k /\
    random_element random l w = Returns (Some x, set_random_calls (S (random_calls w)) w).
Proof.
  intros Hr Hl. rewrite random_element_eq.
  destruct (Hr (random_calls w)) as [H0 H1].
  assert (0 < Z.of_nat (length l)) as Hlen by (destruct l; [done|simpl; lia]).
  pose proof (Qfloor_unit _ _ H0 H1 Hlen) as Hk.
  set (k := Qfloor _) in *.
  destruct (lookup_lt_is_Some_2 l (Z.to_nat k)) as [x Hx]; [lia|].
  exists (Z.to_nat k), x. split; [done|]. split; [lia|].
  unfold at_index. destruct (Z.ltb_spec k 0); [lia|]. by rewrite Hx.
Qed.

(** * From all cells visited to a spanning tree *)

Section Spanning.
Context (side : Z).

Lemma visited_count_le w : (visited_count w <= length (cells w))%nat.
Proof. unfold visited_count. apply List.filter_length_le. Qed.

Lemma filter_all {A} (f : A -> bool) (l : list A) :
  (forall x, x ∈ l -> f x = true) -> List.filter f l = l.
Proof.
  induction l as [|x l IH]; intros H; [done|]. simpl.
  rewrite (H x) by left. f_equal. apply IH. intros y Hy. apply H. by right.
Qed.

Lemma tree_some_visited w : tree_inv side w ->
  exists c, in_grid side c /\ is_visited w c = true.
Proof.
  intros Ht. pose proof (tree_count _ _ Ht) as Hc. unfold visited_count in Hc.
  destruct (List.filter (is_visited w) (cells w)) as [|c l] eqn:E; [done|].
  assert (c ∈ List.filter (is_visited w) (cells w)) as Hin by (rewrite E; left).
  apply list_elem_of_In, List.filter_In in Hin as [Hin Hv]. apply list_elem_of_In in Hin.
  exists c. split; [|done]. pose proof (tree_grid _ _ Ht) as Hg.
  rewrite (grid_cells _ _ Hg) in Hin. apply elem_of_grid_cells in Hin; [done|].
  pose proof (grid_side _ _ Hg). lia.
Qed.

Lemma tree_all_visited w : tree_inv side w ->
  (forall c d, in_grid side c -> is_visited w c = true -> in_grid side (step_to c d) ->
               is_visited w (step_to c d) = true) ->
  forall c, in_grid side c -> is_visited w c = true.
Proof.
  intros Ht Hclosed. destruct (tree_some_visited w Ht) as (c0 & Hc0 & Hv0).
  apply (grid_closed side (fun c => is_visited w c = true) c0 Hc0 Hv0).
  intros a d Ha Hb Hva. by apply Hclosed.
Qed.

Lemma tree_spanning w : tree_inv side w ->
  (forall c, in_grid side c -> is_visited w c = true) -> spanning_tree w.
Proof.
  intros Ht Hall. pose proof Ht as [Hg Hs Hvis Hconn Hcount Hac].
  pose proof (grid_side _ _ Hg) as Hside.
  assert (forall c, c ∈ cells w -> in_grid side c) as Hcells.
  { intros c Hc. rewrite (grid_cells _ _ Hg) in Hc. apply elem_of_grid_cells in Hc; [done|lia]. }
  split; [|split].
  - intros a b Ha Hb. apply Hconn; auto.
  - unfold visited_count in Hcount. rewrite filter_all in Hcount by auto. lia.
  - done.
Qed.

End Spanning.

(** * The recursive backtracker *)

Section Backtracker.
Context (side : Z) (random : nat -> Q).
Hypothesis random_unit : unit_interval random.

Lemma removelast_snoc {A} (l : list A) x : removelast (l ++ [x]) = l.
Proof. by rewrite removelast_last. Qed.

Lemma last_Some_snoc {A} (l : list A) x : last l = Some x -> exists l', l = l' ++ [x].
Proof. apply last_Some. Qed.

Lemma filter_unvisited_nil w c :
  List.filter (fun n => negb (is_visited w n)) (Neighbors w c.1 c.2) = [] ->
  forall n, n ∈ Neighbors w c.1 c.2 -> is_visited w n = true.
Proof.
  intros E n Hn. destruct (is_visited w n) eqn:Hv; [done|].
  assert (n ∈ List.filter (fun n => negb (is_visited w n)) (Neighbors w c.1 c.2)) as H.
  { apply list_elem_of_In, List.filter_In. split; [by apply list_elem_of_In|by rewrite Hv]. }
  rewrite E in H. by apply elem_of_nil in H.
Qed.

(** One call: it either visits a new cell and pushes it, or pops. *)
Lemma RecursiveBacktrack_body_spec w path current :
  backtrack_inv side w path -> last path = Some current ->
  exists path' w',
    RecursiveBacktrack_body random path current w = Returns (path', w') /\
    backtrack_inv side w' path' /\
    ((visited_count w' = S (visited_count w) /\ length path' = S (length path)) \/
     (visited_count w' = visited_count w /\ S (length path') = length path)).
Proof.
  intros [Ht Hpath Hclosed] Hlast. pose proof (tree_grid _ _ Ht) as Hg.
  apply last_Some_snoc in Hlast as [rest ->].
  destruct (Hpath current) as [Hcur Hvcur]; [apply elem_of_app; right; left|].
  unfold RecursiveBacktrack_body. unfold bind at 1. unfold get at 1.
  unfold bind at 1. rewrite (set_background_grid side) by done.
  unfold bind at 1. unfold sleep at 1, ret at 1. unfold bind at 1. unfold get at 1.
  set (w1 := paint current _ w).
  assert (tree_inv side w1) as Ht1 by (by apply tree_inv_paint).
  assert (grid_ok side w1) as Hg1 by (by apply grid_ok_paint).
  set (unv := List.filter _ _).
  destruct unv as [|n0 unv0] eqn:Eunv.
  - (* dead end: pop *)
    change (0 <? Z.of_nat (length (@nil cell))) with false. cbv iota.
    unfold bind. rewrite (set_background_grid side w1 current) by done. unfold ret.
    set (w2 := paint current _ w1).
    exists (removelast (rest ++ [current])), w2. split; [done|].
    rewrite removelast_snoc. split; [|right; split; [done|rewrite length_app; simpl; lia]].
    split.
    + by apply tree_inv_paint.
    + intros c Hc. apply (Hpath c). apply elem_of_app. by left.
    + intros c d Hc Hvc Hnot Hstep.
      destruct (decide (c = current)) as [->|Hne].
      * apply (filter_unvisited_nil w current Eunv).
        apply (Neighbors_spec side); eauto.
      * apply (Hclosed c d); try done. rewrite elem_of_app, list_elem_of_singleton. tauto.
  - (* an unvisited neighbour: cut the edge and push *)
    assert ((0 <? Z.of_nat (length (n0 :: unv0))) = true) as -> by (apply Z.ltb_lt; simpl; lia).
    destruct (random_element_nonempty random (n0 :: unv0) w1 random_unit) as (k & n & Hk & _ & Hrand);
      [done|].
    unfold bind at 1. rewrite Hrand. set (w2 := set_random_calls _ w1).
    assert (n ∈ List.filter (fun n => negb (is_visited w1 n)) (Neighbors w1 current.1 current.2)) as Hn.
    { fold unv. rewrite Eunv. by eapply list_elem_of_lookup_2. }
    apply list_elem_of_In, List.filter_In in Hn as [Hn Hvn]. apply list_elem_of_In in Hn.
    apply negb_true_iff in Hvn.
    apply (Neighbors_spec side) in Hn as (d & -> & Hnin); [|done..].
    assert (tree_inv side w2) as Ht2 by (by apply tree_inv_set_random_calls).
    assert (grid_ok side w2) as Hg2 by (by apply grid_ok_set_random_calls).
    unfold bind at 1. rewrite (CutEdge_back side w2 current d) by done.
    set (n := step_to current d) in *.
    unfold bind, mark_visited, modify, ret.
    fold (visit n (cut n (opposite d) w2)).
    set (w3 := visit n (cut n (opposite d) w2)).
    assert (step_to n (opposite d) = current) as Hback by apply step_to_opposite.
    assert (grid_ok side (cut n (opposite d) w2)) as Hgc by (by repeat apply grid_ok_open_border).
    assert (tree_inv side w3) as Ht3.
    { apply tree_grow; try done; rewrite Hback; done. }
    assert (forall c, in_grid side c -> is_visited w c = true -> is_visited w3 c = true) as Hmono.
    { intros c Hc Hv. apply (is_visited_visit side); [done..|]. by right. }
    exists ((rest ++ [current]) ++ [n]), w3. split; [done|]. split.
    + split; [done| |].
      * intros c Hc. apply elem_of_app in Hc as [Hc|Hc%list_elem_of_singleton].
        -- destruct (Hpath c Hc) as [? ?]. auto.
        -- subst c. split; [done|]. apply is_visited_visit_same.
      * intros c e Hc Hvc Hnot Hstep.
        apply not_elem_of_app in Hnot as [Hnot Hne]. rewrite list_elem_of_singleton in Hne.
        pose proof (is_visited_visit side (cut n (opposite d) w2) n c Hgc Hnin Hc) as Hiff.
        apply Hiff in Hvc as [?|Hvc]; [done|].
        apply Hmono; [done|]. by apply (Hclosed c e).
    + left. split; [|rewrite !length_app; simpl; lia].
      unfold w3. rewrite (visited_count_visit side); done.
Qed.

End Backtracker.

(** * The start of a generator *)

Section Start.
Context (side : Z).

Lemma blank_fresh_grid : 0 < side -> blank side (fresh_grid side).
Proof.
  intros H. split.
  - by apply grid_ok_fresh_grid.
  - intros c d. unfold flag, fresh_grid, build_grid. simpl.
    destruct (list_to_map _ !! _) as [s|] eqn:E; [|done].
    apply elem_of_list_to_map_2, list_elem_of_fmap in E as (i & [= _ ->] & _). by destruct d.
  - intros c. unfold is_visited, fresh_grid, build_grid, Array_fill_false. simpl.
    destruct (list_to_map _ !! _) as [v|] eqn:E; [|done].
    apply elem_of_list_to_map_2, list_elem_of_fmap in E as (i & [= _ ->] & _). done.
Qed.

Lemma blank_set_random_calls w n : blank side w -> blank side (set_random_calls n w).
Proof. intros [Hg Hf Hv]. split; [by apply grid_ok_set_random_calls|done..]. Qed.

Lemma blank_no_passage w a b : blank side w -> ~ passage w a b.
Proof.
  intros [Hg Hf Hv] H. apply (passage_full side) in H as (_ & d & _ & _ & H); [|done].
  by rewrite Hf in H.
Qed.

Lemma filter_none {A} (f : A -> bool) (l : list A) :
  (forall x, x ∈ l -> f x = false) -> List.filter f l = [].
Proof.
  induction l as [|x l IH]; intros H; [done|]. simpl.
  rewrite (H x) by left. apply IH. intros y Hy. apply H. by right.
Qed.

Lemma tree_inv_start w start : blank side w -> in_grid side start ->
  tree_inv side (visit start w).
Proof.
  intros Hb Hs. pose proof Hb as [Hg Hf Hv].
  assert (grid_ok side (visit start w)) as Hg' by (by apply grid_ok_visit).
  assert (forall a b, ~ passage (visit start w) a b) as Hno.
  { intros a b H. apply (passage_flag_ext side w) in H; [|done..]. by eapply blank_no_passage. }
  split.
  - done.
  - intros a b H. by apply Hno in H.
  - intros a b H. by apply Hno in H.
  - intros a b Ha Hb' Hva Hvb.
    apply (is_visited_visit side) in Hva as [->|Hva]; [|by rewrite Hv in Hva|done..].
    apply (is_visited_visit side) in Hvb as [->|Hvb]; [|by rewrite Hv in Hvb|done..].
    done.
  - rewrite (visited_count_visit side) by done. f_equal.
    unfold open_passages, visited_count. rewrite !filter_none; [done|..].
    + intros c _. apply Hv.
    + intros e He. apply not_true_is_false. intros H.
      apply (elem_of_GetAllEdges side) in He as (He & _); [|done].
      apply (IsOpen_passage side) in H; [|done..]. by apply Hno in H.
  - intros a b H. by apply Hno in H.
Qed.

Lemma random_start random w : unit_interval random -> grid_ok side w ->
  in_grid side (Qfloor (random (random_calls w) * inject_Z side),
                Qfloor (random (S (random_calls w)) * inject_Z side)).
Proof.
  intros Hr Hg. pose proof (grid_side _ _ Hg).
  destruct (Hr (random_calls w)), (Hr (S (random_calls w))).
  split; simpl; by apply Qfloor_unit.
Qed.

End Start.

(** * The backtracker terminates with a spanning tree *)

Section BacktrackerRun.
Context (side : Z) (random : nat -> Q).
Hypothesis random_unit : unit_interval random.

Lemma RecursiveBacktrack_terminates : forall fuel w path,
  backtrack_inv side w path ->
  (2 * length (cells w) + length path < fuel + 2 * visited_count w)%nat ->
  exists w', RecursiveBacktrack random fuel path w = Returns (tt, w') /\
             backtrack_inv side w' [].
Proof.
  induction fuel as [|fuel IH]; intros w path Hinv Hfuel.
  - pose proof (visited_count_le w). lia.
  - simpl. destruct (last path) as [current|] eqn:Hlast.
    + destruct (RecursiveBacktrack_body_spec side random random_unit w path current Hinv Hlast)
        as (path' & w' & Hbody & Hinv' & Hm).
      unfold bind. rewrite Hbody.
      apply IH; [done|].
      assert (cells w' = cells w) as ->.
      { rewrite (grid_cells _ _ (tree_grid _ _ (bt_tree _ _ _ Hinv'))).
        by rewrite (grid_cells _ _ (tree_grid _ _ (bt_tree _ _ _ Hinv))). }
      lia.
    + apply last_None in Hlast as ->. by exists w.
Qed.

Lemma backtrack_inv_start w start : blank side w -> in_grid side start ->
  backtrack_inv side (visit start w) [start].
Proof.
  intros Hb Hs. pose proof Hb as [Hg Hf Hv]. split.
  - by apply tree_inv_start.
  - intros c ->%list_elem_of_singleton. split; [done|]. apply is_visited_visit_same.
  - intros c d Hc Hvc Hnot. exfalso. apply Hnot, list_elem_of_singleton.
    apply (is_visited_visit side) in Hvc as [->|Hvc]; [done|by rewrite Hv in Hvc|done..].
Qed.

Lemma backtrack_inv_done w : backtrack_inv side w [] -> spanning_tree w.
Proof.
  intros [Ht _ Hclosed]. apply (tree_spanning side); [done|].
  apply tree_all_visited; [done|]. intros c d Hc Hv Hn. apply (Hclosed c d); try done.
  apply not_elem_of_nil.
Qed.

Lemma run_generator_start alg fuel w :
  run_generator random fuel alg w =
  (let start := (Qfloor (random (random_calls w) * inject_Z (num_rows w)),
                 Qfloor (random (S (random_calls w)) * inject_Z (num_columns w))) in
   let w' := visit start (set_random_calls (S (S (random_calls w))) w) in
   if String.eqb alg "0" then PrimsAlgorithm random fuel start.1 start.2 w'
   else if String.eqb alg "1" then RecursiveBacktrack random fuel [start] w'
   else if String.eqb alg "2" then Kruskals random fuel w'
   else Returns (tt, w')).
Proof.
  unfold run_generator, pick_start, bind, get, random_below, Math_random, mark_visited, modify, ret.
  simpl. repeat case_match; done.
Qed.

Lemma visited_count_start w start : blank side w -> in_grid side start ->
  visited_count (visit start w) = 1%nat.
Proof.
  intros [Hg Hf Hv] Hs. rewrite (visited_count_visit side) by done. f_equal.
  unfold visited_count. rewrite filter_none; [done|]. intros c _. apply Hv.
Qed.

Lemma backtracker_run w : blank side w ->
  exists w', run_generator random (Z.to_nat (2 * side * side)) "1" w = Returns (tt, w') /\
             backtrack_inv side w' [].
Proof.
  intros Hb. pose proof (blank_grid _ _ Hb) as Hg. pose proof (grid_side _ _ Hg) as Hside.
  rewrite run_generator_start. cbv zeta.
  change (String.eqb "1" "0") with false. change (String.eqb "1" "1") with true. cbv iota.
  rewrite (grid_rows _ _ Hg), (grid_columns _ _ Hg).
  set (start := (_, _)). set (w1 := set_random_calls _ w).
  assert (in_grid side start) as Hs by (by apply random_start).
  assert (blank side w1) as Hb1 by (by apply blank_set_random_calls).
  apply RecursiveBacktrack_terminates; [by apply backtrack_inv_start|].
  rewrite visited_count_start by done.
  assert (cells (visit start w1) = cells (fresh_grid side)) as -> by apply (grid_cells _ _ Hg).
  pose proof (length_grid_cells side ltac:(lia)) as Hl.
  replace (2 * side * side) with (2 * Z.of_nat (length (cells (fresh_grid side))))
    by (rewrite Hl; ring).
  simpl length. lia.
Qed.

End BacktrackerRun.

(** * Prim's algorithm *)

Lemma elem_of_delete_NoDup {A} (l : list A) (k : nat) (x c : A) :
  NoDup l -> l !! k = Some x -> c ∈ delete k l <-> c ∈ l /\ c <> x.
Proof.
  intros Hnd Hk. rewrite delete_take_drop.
  rewrite <- (take_drop_middle l k x Hk) in Hnd at 1.
  rewrite <- (take_drop_middle l k x Hk) at 3.
  apply NoDup_app in Hnd as (_ & H1 & Hnd). apply NoDup_cons in Hnd as [H2 _].
  rewrite !elem_of_app, elem_of_cons. split.
  - intros [H|H]; (split; [tauto|]); intros ->; [by apply (H1 x); [|left] | done].
  - tauto.
Qed.

Lemma NoDup_delete {A} (l : list A) (k : nat) : NoDup l -> NoDup (delete k l).
Proof.
  intros Hnd. exact (sublist_NoDup _ _ Hnd (sublist_delete l k)).
Qed.

Lemma splice1_delete {A} (l : list A) (k : nat) :
  (k < length l)%nat -> splice1 (Z.of_nat k) l = delete k l.
Proof.
  intros Hk. unfold splice1. destruct (Z.ltb_spec (Z.of_nat k) 0); [lia|].
  f_equal. lia.
Qed.

Lemma filter_length_all {A} (f : A -> bool) (l : list A) :
  length (List.filter f l) = length l -> forall x, x ∈ l -> f x = true.
Proof.
  induction l as [|y l IH]; intros Hlen x Hx; [by apply elem_of_nil in Hx|].
  simpl in Hlen. pose proof (List.filter_length_le f l).
  destruct (f y) eqn:E; simpl in Hlen; [|lia].
  apply elem_of_cons in Hx as [->|Hx]; [done|]. apply IH; [lia|done].
Qed.

Section Prim.
Context (side : Z) (random : nat -> Q).
Hypothesis random_unit : unit_interval random.

Lemma same_maze_refl w : grid_ok side w -> same_maze side w w.
Proof. by intros ?. Qed.

Lemma same_maze_trans w1 w2 w3 : same_maze side w1 w2 -> same_maze side w2 w3 -> same_maze side w1 w3.
Proof.
  intros (? & E1 & E2 & E3) (? & F1 & F2 & F3). split; [done|]. split; [congruence|].
  split; [congruence|]. intros c d. by rewrite F3, E3.
Qed.

Lemma same_maze_visited w w' c : same_maze side w w' -> is_visited w' c = is_visited w c.
Proof. intros (_ & E1 & E2 & _). unfold is_visited. by rewrite E1, E2. Qed.

Lemma same_maze_tree w w' : same_maze side w w' -> tree_inv side w -> tree_inv side w'.
Proof.
  intros Hs Ht. pose proof Hs as (Hg' & E1 & E2 & E3).
  apply (tree_inv_ext side w); [done|done| | |done].
  - intros x y. apply (passage_flag_ext side); [apply (tree_grid _ _ Ht)|done..].
  - intros c. by apply same_maze_visited.
Qed.

Lemma same_maze_paint w c colour : grid_ok side w -> same_maze side w (paint c colour w).
Proof.
  intros Hg. split; [by apply grid_ok_paint|]. split; [done|]. split; [done|].
  intros c' d. apply flag_paint.
Qed.

Lemma same_maze_set_frontier w f : grid_ok side w -> same_maze side w (set_frontier f w).
Proof. intros Hg. split; [by apply grid_ok_set_frontier|]. done. Qed.

Lemma same_maze_set_random_calls w n : grid_ok side w -> same_maze side w (set_random_calls n w).
Proof. intros Hg. split; [by apply grid_ok_set_random_calls|]. done. Qed.

(** ** The loop that offers the neighbours of a cell to the frontier *)

Lemma offer_loop l : forall w,
  grid_ok side w -> (forall n, n ∈ l -> in_grid side n) ->
  for_of l (fun neighbor =>
    let* w' := get in
    if negb (is_visited w' neighbor) && (FindCellIndex neighbor (frontier w') <? 0) then
      let* _ := push_frontier neighbor in
      set_background (FindCellIndex neighbor (cells w')) "rgb(255, 200, 200)"
    else ret tt) w
  = Returns (tt, foldl (fun w n => offer n w) w l).
Proof.
  induction l as [|n l IH]; intros w Hg Hl; [done|].
  simpl. unfold bind at 1. unfold bind at 1. unfold get at 1.
  assert (in_grid side n) as Hn by (apply Hl; left).
  assert (forall v, v ∈ l -> in_grid side v) as Hl' by (intros v Hv; apply Hl; by right).
  unfold offer at 2.
  destruct (negb (is_visited w n) && (FindCellIndex n (frontier w) <? 0)) eqn:E.
  - unfold bind at 1. unfold push_frontier, modify.
    pose proof (set_background_grid side (set_frontier (frontier w ++ [n]) w) n
                  "rgb(255, 200, 200)" (grid_ok_set_frontier side w _ Hg) Hn) as Hp.
    simpl in Hp. rewrite Hp. apply IH; [|done].
    by apply grid_ok_paint, grid_ok_set_frontier.
  - unfold ret at 1. by apply IH.
Qed.

Lemma offer_spec w n : grid_ok side w -> NoDup (frontier w) ->
  same_maze side w (offer n w) /\ NoDup (frontier (offer n w)) /\
  forall c, c ∈ frontier (offer n w) <->
            c ∈ frontier w \/ (c = n /\ is_visited w n = false).
Proof.
  intros Hg Hnd. unfold offer.
  destruct (is_visited w n) eqn:Hv; simpl.
  { split; [by apply same_maze_refl|]. split; [done|]. intros c. split; [tauto|].
    intros [?|[_ ?]]; done. }
  destruct (FindCellIndex n (frontier w) <? 0) eqn:Hf; simpl.
  - apply FindCellIndex_negative in Hf. split; [|split].
    + eapply same_maze_trans; [by apply same_maze_set_frontier|].
      apply same_maze_paint. by apply grid_ok_set_frontier.
    + apply NoDup_app. split; [done|]. split; [|apply NoDup_singleton].
      intros x Hx ->%list_elem_of_singleton. done.
    + intros c. rewrite elem_of_app, list_elem_of_singleton. tauto.
  - split; [by apply same_maze_refl|]. split; [done|]. intros c. split; [tauto|].
    intros [?|[-> _]]; [done|].
    destruct (decide (n ∈ frontier w)) as [|Hnot]; [done|].
    apply FindCellIndex_negative in Hnot. congruence.
Qed.

Lemma offer_fold l : forall w, grid_ok side w -> NoDup (frontier w) ->
  let w' := foldl (fun w n => offer n w) w l in
  same_maze side w w' /\ NoDup (frontier w') /\
  forall c, c ∈ frontier w' <-> c ∈ frontier w \/ (c ∈ l /\ is_visited w c = false).
Proof.
  induction l as [|n l IH]; intros w Hg Hnd; simpl.
  - split; [by apply same_maze_refl|]. split; [done|]. intros c. split; [tauto|].
    intros [?|[H%elem_of_nil _]]; done.
  - destruct (offer_spec w n Hg Hnd) as (Hs & Hnd' & Hin).
    destruct (IH (offer n w) (proj1 Hs) Hnd') as (Hs2 & Hnd2 & Hin2).
    split; [by eapply same_maze_trans|]. split; [done|].
    intros c. rewrite Hin2, Hin, elem_of_cons. rewrite (same_maze_visited w (offer n w)) by done.
    split.
    + intros [[?|[-> ?]]|[? ?]]; tauto.
    + intros [?|[[->|?] ?]]; tauto.
Qed.


(** ** One round *)

Lemma PrimsAlgorithm_round_spec w : prim_inv side w -> frontier w <> [] ->
  exists w', PrimsAlgorithm_round random w = Returns (tt, w') /\
             prim_inv side w' /\ visited_count w' = S (visited_count w).
Proof.
  intros [Ht Hnd Hfr Hbd] Hne. pose proof (tree_grid _ _ Ht) as Hg.
  unfold PrimsAlgorithm_round. unfold bind at 1. unfold get at 1.
  destruct (random_element_nonempty random (frontier w) w random_unit Hne)
    as (k & rc & Hk & Hkz & Hrand).
  unfold bind at 1. rewrite Hrand. set (w1 := set_random_calls _ w).
  assert (rc ∈ frontier w) as Hin by (by eapply list_elem_of_lookup_2).
  destruct (Hfr rc Hin) as (Hrc & Hvrc & d0 & Hd0 & Hvd0).
  unfold bind at 1. unfold modify at 1.
  rewrite (FindCellIndex_lookup (frontier w) k rc Hnd Hk).
  change (frontier w1) with (frontier w).
  rewrite splice1_delete by (by eapply lookup_lt_Some).
  set (w2 := set_frontier (delete k (frontier w)) w1).
  unfold bind at 1. unfold get at 1.
  set (nbs := Neighbors w2 rc.1 rc.2).
  assert (grid_ok side w2) as Hg2 by (by apply grid_ok_set_frontier, grid_ok_set_random_calls).
  assert (forall n, n ∈ nbs <-> exists d, n = step_to rc d /\ in_grid side n) as Hnbs.
  { intros n. by apply (Neighbors_spec side). }
  set (vis := List.filter _ nbs).
  assert (forall n, n ∈ vis <-> n ∈ nbs /\ is_visited w n = true) as Hvis.
  { intros n. unfold vis. rewrite list_elem_of_In, List.filter_In, <- list_elem_of_In. done. }
  assert (vis <> []) as Hvne.
  { intros E. assert (step_to rc d0 ∈ vis) as H by (apply Hvis; split; [apply Hnbs; eauto|done]).
    rewrite E in H. by apply elem_of_nil in H. }
  destruct (random_element_nonempty random vis w2 random_unit Hvne)
    as (j & v & Hj & _ & Hrand2).
  unfold bind at 1. rewrite Hrand2. set (w3 := set_random_calls _ w2).
  assert (v ∈ vis) as Hv by (by eapply list_elem_of_lookup_2).
  apply Hvis in Hv as [Hv Hvv]. apply Hnbs in Hv as (d & -> & Hvin).
  assert (same_maze side w w3) as Hs3.
  { eapply same_maze_trans; [by apply same_maze_set_random_calls|].
    eapply same_maze_trans; [apply same_maze_set_frontier; by apply grid_ok_set_random_calls|].
    by apply same_maze_set_random_calls. }
  assert (grid_ok side w3) as Hg3 by apply Hs3.
  assert (tree_inv side w3) as Ht3 by (by apply (same_maze_tree w)).
  unfold bind at 1. rewrite (CutEdge_cut side w3 rc d) by done.
  assert (grid_ok side (cut rc d w3)) as Hgc by (by repeat apply grid_ok_open_border).
  unfold bind at 1. change (cells w2) with (cells (cut rc d w3)).
  rewrite (set_background_grid side) by done.
  unfold bind at 1. unfold sleep at 1, ret at 1.
  unfold bind at 1. unfold mark_visited, modify.
  set (w4 := set_visited _ _).
  assert (w4 = paint rc "rgb(255, 240, 240)" (visit rc (cut rc d w3))) as Hw4 by done.
  assert (tree_inv side w4) as Ht4.
  { rewrite Hw4. apply tree_inv_paint. by apply tree_grow. }
  assert (grid_ok side w4) as Hg4 by apply Ht4.
  assert (forall c, in_grid side c -> is_visited w4 c = true <-> c = rc \/ is_visited w c = true) as Hv4.
  { intros c Hc. rewrite Hw4.
    apply (is_visited_visit side (cut rc d w3) rc c Hgc Hrc Hc). }
  unfold bind at 1. rewrite offer_loop; [|done|intros n Hn; apply Hnbs in Hn as (? & _ & ?); done].
  unfold sleep, ret.
  destruct (offer_fold nbs w4 Hg4) as (Hs5 & Hnd5 & Hin5).
  { change (frontier w4) with (delete k (frontier w)). by apply NoDup_delete. }
  set (w5 := foldl _ w4 nbs) in *.
  assert (forall c, c ∈ frontier w4 <-> c ∈ frontier w /\ c <> rc) as Hf4.
  { intros c. change (frontier w4) with (delete k (frontier w)). by apply elem_of_delete_NoDup. }
  assert (forall c, in_grid side c -> is_visited w5 c = true <-> c = rc \/ is_visited w c = true) as Hv5.
  { intros c Hc. rewrite (same_maze_visited w4 w5) by done. by apply Hv4. }
  exists w5. split; [done|]. split; [split|].
  - by apply (same_maze_tree w4).
  - done.
  - intros c Hc. apply Hin5 in Hc as [Hc|[Hc Hvc]].
    + apply Hf4 in Hc as [Hc Hcne]. destruct (Hfr c Hc) as (Hcin & Hcv & e & He & Hve).
      split; [done|]. split.
      * apply not_true_is_false. intros H. apply Hv5 in H as [?|?]; [done|congruence|done].
      * exists e. split; [done|]. apply Hv5; [done|]. by right.
    + apply Hnbs in Hc as (e & -> & Hcin). split; [done|].
      split; [by rewrite (same_maze_visited w4 w5)|].
      exists (opposite e). rewrite step_to_opposite. split; [done|]. apply Hv5; [done|]. by left.
  - intros c e Hc Hvc He Hve.
    assert (is_visited w4 (step_to c e) = false) as Hve4 by (by rewrite <- (same_maze_visited w4 w5)).
    apply Hin5. destruct (proj1 (Hv5 c Hc) Hvc) as [->|Hvc'].
    + right. split; [|done]. apply Hnbs. eauto.
    + left. apply Hf4. split.
      * apply (Hbd c e); try done. apply not_true_is_false. intros H.
        assert (is_visited w4 (step_to c e) = true) as H4 by (apply Hv4; [done|by right]).
        congruence.
      * intros E. assert (is_visited w4 (step_to c e) = true) as H4 by (apply Hv4; [done|by left]).
        congruence.
  - rewrite (visited_count_ext w4 w5); [|apply Hs5|intros c; by apply same_maze_visited].
    rewrite Hw4. transitivity (visited_count (visit rc (cut rc d w3))); [done|].
    rewrite (visited_count_visit side) by done. done.
Qed.

End Prim.

Section PrimRun.
Context (side : Z) (random : nat -> Q).
Hypothesis random_unit : unit_interval random.

(** * The loop of Prim's algorithm *)

Lemma prim_frontier_unvisited w c : prim_inv side w -> c ∈ frontier w ->
  (visited_count w < length (cells w))%nat.
Proof.
  intros Hp Hc. destruct (prim_frontier _ _ Hp c Hc) as (Hin & Hv & _).
  pose proof (visited_count_le w) as Hle.
  destruct (decide (visited_count w = length (cells w))) as [E|]; [|lia].
  pose proof (tree_grid _ _ (prim_tree _ _ Hp)) as Hg. pose proof (grid_side _ _ Hg).
  rewrite (filter_length_all _ _ E c) in Hv; [done|].
  rewrite (grid_cells _ _ Hg). apply elem_of_grid_cells; [lia|done].
Qed.

Lemma PrimsAlgorithm_while fuel : forall w,
  prim_inv side w -> (length (cells w) <= fuel + visited_count w)%nat ->
  exists w', while fuel (fun w => 0 <? Z.of_nat (length (frontier w)))
                   (PrimsAlgorithm_round random) w = Returns (tt, w') /\
             prim_inv side w' /\ frontier w' = [].
Proof.
  induction fuel as [|fuel IH]; intros w Hp Hfuel.
  - destruct (frontier w) as [|c l] eqn:E.
    + exists w. split; [|done]. unfold while, bind, get. by rewrite E.
    + pose proof (prim_frontier_unvisited w c Hp) as H. rewrite E in H.
      specialize (H ltac:(left)). lia.
  - destruct (frontier w) as [|c l] eqn:E.
    + exists w. split; [|done]. unfold while, bind, get. by rewrite E.
    + destruct (PrimsAlgorithm_round_spec side random random_unit w Hp) as (w' & Hr & Hp' & Hc);
        [by rewrite E|].
      simpl. unfold bind at 1. unfold get at 1. rewrite E.
      assert ((0 <? Z.of_nat (length (c :: l))) = true) as -> by (apply Z.ltb_lt; simpl; lia).
      unfold bind at 1. rewrite Hr. apply IH; [done|].
      assert (cells w' = cells w) as ->.
      { rewrite (grid_cells _ _ (tree_grid _ _ (prim_tree _ _ Hp'))).
        by rewrite (grid_cells _ _ (tree_grid _ _ (prim_tree _ _ Hp))). }
      lia.
Qed.

Lemma prim_inv_done w : prim_inv side w -> frontier w = [] -> spanning_tree w.
Proof.
  intros [Ht Hnd Hfr Hbd] E. apply (tree_spanning side); [done|].
  apply tree_all_visited; [done|]. intros c d Hc Hv Hn.
  destruct (is_visited w (step_to c d)) eqn:Hvn; [done|].
  pose proof (Hbd c d Hc Hv Hn Hvn) as H. rewrite E in H. by apply elem_of_nil in H.
Qed.

(** * Before the loop *)

Lemma offer_first_loop l : forall w w0,
  grid_ok side w -> cells w0 = cells w -> (forall n, n ∈ l -> in_grid side n) ->
  for_of l (fun neighbor =>
    let* _ := set_background (FindCellIndex neighbor (cells w0)) "rgb(255, 200, 200)" in
    push_frontier neighbor) w
  = Returns (tt, foldl (fun w n => offer_first n w) w l).
Proof.
  induction l as [|n l IH]; intros w w0 Hg Hc Hl; [done|].
  simpl. unfold bind at 1. unfold bind at 1. rewrite Hc.
  rewrite (set_background_grid side) by (done || apply Hl; left).
  unfold push_frontier, modify. fold (offer_first n w).
  apply IH; [|done|intros v Hv; apply Hl; by right].
  by apply grid_ok_set_frontier, grid_ok_paint.
Qed.

Lemma offer_first_fold l : forall w, grid_ok side w ->
  let w' := foldl (fun w n => offer_first n w) w l in
  same_maze side w w' /\ frontier w' = frontier w ++ l.
Proof.
  induction l as [|n l IH]; intros w Hg; simpl.
  - split; [by apply same_maze_refl|]. by rewrite app_nil_r.
  - assert (same_maze side w (offer_first n w)) as Hs.
    { eapply same_maze_trans; [by apply same_maze_paint|].
      apply same_maze_set_frontier. by apply grid_ok_paint. }
    destruct (IH (offer_first n w) (proj1 Hs)) as [Hs' Hf].
    split; [by eapply same_maze_trans|]. rewrite Hf. simpl. by rewrite <- app_assoc.
Qed.

Lemma PrimsAlgorithm_setup_spec w start : blank side w -> frontier w = [] ->
  in_grid side start ->
  exists w', PrimsAlgorithm_setup start.1 start.2 (visit start w) = Returns (tt, w') /\
             prim_inv side w' /\ visited_count w' = 1%nat.
Proof.
  intros Hb Hf Hs. pose proof Hb as [Hg Hflag Hunv].
  assert (tree_inv side (visit start w)) as Ht by (by apply tree_inv_start).
  assert (grid_ok side (visit start w)) as Hgv by (by apply grid_ok_visit).
  unfold PrimsAlgorithm_setup. unfold bind at 1. unfold get at 1.
  set (nbs := Neighbors (visit start w) start.1 start.2).
  assert (forall n, n ∈ nbs <-> exists d, n = step_to start d /\ in_grid side n) as Hnbs.
  { intros n. by apply (Neighbors_spec side). }
  unfold bind at 1.
  rewrite (offer_first_loop nbs (visit start w) (visit start w));
    [|done|done|intros n Hn; apply Hnbs in Hn as (? & _ & ?); done].
  destruct (offer_first_fold nbs (visit start w) Hgv) as [Hs1 Hf1].
  set (w1 := foldl _ _ nbs) in *.
  assert (grid_ok side w1) as Hg1 by apply Hs1.
  unfold bind at 1. replace (start.1, start.2) with start by (by destruct start).
  change (cells (visit start w)) with (cells w).
  replace (cells w) with (cells w1) by apply Hs1.
  rewrite (set_background_grid side) by done.
  unfold sleep, ret.
  set (w2 := paint start _ w1).
  assert (same_maze side (visit start w) w2) as Hs2.
  { eapply same_maze_trans; [exact Hs1|]. by apply same_maze_paint. }
  assert (forall c, is_visited w2 c = is_visited (visit start w) c) as Hv2
    by (intros c; by apply (same_maze_visited side)).
  assert (forall c, in_grid side c -> is_visited w2 c = true <-> c = start) as Hv2'.
  { intros c Hc. rewrite Hv2, (is_visited_visit side) by done. rewrite Hunv. split; [|tauto].
    intros [?|?]; done. }
  exists w2. split; [done|]. split.
  - split.
    + by apply (same_maze_tree side (visit start w)).
    + change (frontier w2) with (frontier w1). rewrite Hf1. change (frontier (visit start w)) with (frontier w).
      rewrite Hf. apply NoDup_Neighbors.
    + intros c Hc. change (frontier w2) with (frontier w1) in Hc. rewrite Hf1 in Hc.
      change (frontier (visit start w)) with (frontier w) in Hc. rewrite Hf in Hc.
      apply Hnbs in Hc as (d & -> & Hin). split; [done|]. split.
      * apply not_true_is_false. intros H. apply Hv2' in H; [|done]. by apply step_to_neq in H.
      * exists (opposite d). rewrite step_to_opposite. split; [done|]. by apply Hv2'.
    + intros c d Hc Hvc Hn _. apply Hv2' in Hvc as ->; [|done].
      change (frontier w2) with (frontier w1). rewrite Hf1.
      change (frontier (visit start w)) with (frontier w). rewrite Hf. apply Hnbs. eauto.
  - rewrite (visited_count_ext (visit start w) w2); [|apply Hs2|done].
    by rewrite (visited_count_start side).
Qed.

Lemma PrimsAlgorithm_spec fuel w start : blank side w -> frontier w = [] ->
  in_grid side start -> (length (cells w) <= S fuel)%nat ->
  exists w', PrimsAlgorithm random fuel start.1 start.2 (visit start w) = Returns (tt, w') /\
             prim_inv side w' /\ frontier w' = [].
Proof.
  intros Hb Hf Hs Hfuel.
  destruct (PrimsAlgorithm_setup_spec w start Hb Hf Hs) as (w2 & Hset & Hp & Hc).
  unfold PrimsAlgorithm, bind. rewrite Hset.
  apply PrimsAlgorithm_while; [done|].
  rewrite Hc. replace (cells w2) with (cells w); [lia|].
  rewrite (grid_cells _ _ (tree_grid _ _ (prim_tree _ _ Hp))).
  by rewrite (grid_cells _ _ (blank_grid _ _ Hb)).
Qed.

Lemma prims_run w : blank side w -> frontier w = [] ->
  exists w', run_generator random (Z.to_nat (2 * side * side)) "0" w = Returns (tt, w') /\
             prim_inv side w' /\ frontier w' = [].
Proof.
  intros Hb Hf. pose proof (blank_grid _ _ Hb) as Hg. pose proof (grid_side _ _ Hg) as Hside.
  rewrite run_generator_start. cbv zeta.
  change (String.eqb "0" "0") with true. cbv iota.
  rewrite (grid_rows _ _ Hg), (grid_columns _ _ Hg).
  set (start := (_, _)). set (w1 := set_random_calls _ w).
  assert (in_grid side start) as Hs by (by apply random_start).
  assert (blank side w1) as Hb1 by (by apply blank_set_random_calls).
  apply PrimsAlgorithm_spec; try done.
  assert (cells w1 = cells (fresh_grid side)) as -> by apply (grid_cells _ _ Hg).
  pose proof (length_grid_cells side ltac:(lia)) as Hl. nia.
Qed.

End PrimRun.

(** * The loops of Kruskal's algorithm over [cellMap] *)

(** Merging two sets: [cell1] is never relabelled, so reading [cell1.set]
    from the array under update always gives the same id. *)
Lemma relabel_lookup positions : forall cellMap cell1 oldSet c1 j,
  NoDup positions -> cellMap !! cell1 = Some c1 -> set c1 <> oldSet ->
  relabel positions cell1 oldSet cellMap !! j =
  if bool_decide (j ∈ positions) then merge_sets oldSet (set c1) <$> cellMap !! j
  else cellMap !! j.
Proof.
  induction positions as [|i rest IH]; intros cellMap cell1 oldSet c1 j Hnd H1 Hne.
  { cbn [relabel]. by rewrite bool_decide_eq_false_2 by apply not_elem_of_nil. }
  apply NoDup_cons in Hnd as [Hi Hnd]. cbn [relabel]. rewrite H1.
  destruct (cellMap !! i) as [c|] eqn:Hc.
  - destruct (Z.eqb_spec (set c) oldSet) as [E|E].
    + assert (i <> cell1) as Hi1 by (intros ->; congruence).
      rewrite (IH _ cell1 oldSet c1 j Hnd); [|by rewrite list_lookup_insert_ne|done].
      destruct (decide (j = i)) as [->|Hji].
      * rewrite bool_decide_eq_false_2 by done.
        rewrite bool_decide_eq_true_2 by left.
        rewrite list_lookup_insert_eq by (by eapply lookup_lt_Some).
        rewrite Hc. simpl. unfold merge_sets. by rewrite (proj2 (Z.eqb_eq _ _) E).
      * rewrite list_lookup_insert_ne by done.
        destruct (decide (j ∈ rest)).
        -- rewrite !bool_decide_eq_true_2; [done|by right|done].
        -- rewrite !bool_decide_eq_false_2; [done| |done].
           rewrite elem_of_cons. tauto.
    + rewrite (IH _ cell1 oldSet c1 j Hnd H1 Hne).
      destruct (decide (j = i)) as [->|Hji].
      * rewrite bool_decide_eq_false_2 by done.
        rewrite bool_decide_eq_true_2 by left.
        rewrite Hc. simpl. unfold merge_sets. by rewrite (proj2 (Z.eqb_neq _ _) E).
      * destruct (decide (j ∈ rest)).
        -- rewrite !bool_decide_eq_true_2; [done|by right|done].
        -- rewrite !bool_decide_eq_false_2; [done| |done].
           rewrite elem_of_cons. tauto.
  - rewrite (IH _ cell1 oldSet c1 j Hnd H1 Hne).
    destruct (decide (j = i)) as [->|Hji].
    + rewrite bool_decide_eq_false_2 by done.
      rewrite bool_decide_eq_true_2 by left. by rewrite Hc.
    + destruct (decide (j ∈ rest)).
      * rewrite !bool_decide_eq_true_2; [done|by right|done].
      * rewrite !bool_decide_eq_false_2; [done| |done].
        rewrite elem_of_cons. tauto.
Qed.

Lemma relabel_all cellMap cell1 oldSet c1 :
  cellMap !! cell1 = Some c1 -> set c1 <> oldSet ->
  relabel (seq 0 (length cellMap)) cell1 oldSet cellMap
  = merge_sets oldSet (set c1) <$> cellMap.
Proof.
  intros H1 Hne. apply list_eq. intros j.
  rewrite (relabel_lookup _ _ _ _ c1 j (NoDup_seq 0 _) H1 Hne), list_lookup_fmap.
  destruct (decide (j ∈ seq 0 (length cellMap))) as [Hj|Hj].
  - by rewrite bool_decide_eq_true_2.
  - rewrite bool_decide_eq_false_2 by done.
    rewrite elem_of_seq in Hj. rewrite lookup_ge_None_2; [done|lia].
Qed.

(** Looking the end points up: with distinct coordinates in [cellMap] the
    last match is the only one. *)
Lemma find_endpoints_none edge cellMap : forall i o1 o2,
  (forall m, m ∈ cellMap -> (x m, y m) <> edge.1) ->
  (find_endpoints edge i cellMap o1 o2).1 = o1.
Proof.
  induction cellMap as [|c rest IH]; intros i o1 o2 Hno; [done|]. cbn [find_endpoints].
  match goal with |- context [if ?b then Some i else o1] => assert (b = false) as -> end.
  { apply not_true_is_false. rewrite andb_true_iff, !Z.eqb_eq. intros [E1 E2].
    apply (Hno c); [left|]. destruct edge as [[??]?]. simpl in *. by subst. }
  apply IH. intros m Hm. apply Hno. by right.
Qed.

Lemma find_endpoints_none_2 edge cellMap : forall i o1 o2,
  (forall m, m ∈ cellMap -> (x m, y m) <> edge.2) ->
  (find_endpoints edge i cellMap o1 o2).2 = o2.
Proof.
  induction cellMap as [|c rest IH]; intros i o1 o2 Hno; [done|]. cbn [find_endpoints].
  match goal with |- context [if ?b then Some i else o2] => assert (b = false) as -> end.
  { apply not_true_is_false. rewrite andb_true_iff, !Z.eqb_eq. intros [E1 E2].
    apply (Hno c); [left|]. destruct edge as [?[??]]. simpl in *. by subst. }
  apply IH. intros m Hm. apply Hno. by right.
Qed.

Lemma find_endpoints_1 edge cellMap : forall i o1 o2 p m,
  NoDup ((fun m => (x m, y m)) <$> cellMap) ->
  cellMap !! p = Some m -> (x m, y m) = edge.1 ->
  (find_endpoints edge i cellMap o1 o2).1 = Some (i + p)%nat.
Proof.
  induction cellMap as [|c rest IH]; intros i o1 o2 p m Hnd Hp Hm; [done|].
  simpl in Hnd. apply NoDup_cons in Hnd as [Hc Hnd]. cbn [find_endpoints].
  destruct p as [|p]; simpl in Hp.
  - injection Hp as ->.
    match goal with |- context [if ?b then Some i else o1] => assert (b = true) as -> end.
    { destruct edge as [[??]?]. simpl in *. simplify_eq. by rewrite !Z.eqb_refl. }
    rewrite find_endpoints_none; [f_equal; lia|].
    intros m' Hm' E. apply Hc. rewrite Hm, <- E. by apply (list_elem_of_fmap_2 (fun m => (x m, y m))).
  - match goal with |- context [if ?b then Some i else o1] => assert (b = false) as -> end.
    { apply not_true_is_false. rewrite andb_true_iff, !Z.eqb_eq. intros [E1 E2].
      apply Hc. replace (x c, y c) with (x m, y m).
      - apply (list_elem_of_fmap_2 (fun m => (x m, y m))). by eapply list_elem_of_lookup_2.
      - rewrite Hm. destruct edge as [[??]?]. simpl in *. by subst. }
    rewrite (IH (S i) o1 _ p m Hnd Hp Hm). f_equal. lia.
Qed.

Lemma find_endpoints_2 edge cellMap : forall i o1 o2 p m,
  NoDup ((fun m => (x m, y m)) <$> cellMap) ->
  cellMap !! p = Some m -> (x m, y m) = edge.2 ->
  (find_endpoints edge i cellMap o1 o2).2 = Some (i + p)%nat.
Proof.
  induction cellMap as [|c rest IH]; intros i o1 o2 p m Hnd Hp Hm; [done|].
  simpl in Hnd. apply NoDup_cons in Hnd as [Hc Hnd]. cbn [find_endpoints].
  destruct p as [|p]; simpl in Hp.
  - injection Hp as ->.
    match goal with |- context [if ?b then Some i else o2] => assert (b = true) as -> end.
    { destruct edge as [?[??]]. simpl in *. simplify_eq. by rewrite !Z.eqb_refl. }
    rewrite find_endpoints_none_2; [f_equal; lia|].
    intros m' Hm' E. apply Hc. rewrite Hm, <- E. by apply (list_elem_of_fmap_2 (fun m => (x m, y m))).
  - match goal with |- context [if ?b then Some i else o2] => assert (b = false) as -> end.
    { apply not_true_is_false. rewrite andb_true_iff, !Z.eqb_eq. intros [E1 E2].
      apply Hc. replace (x c, y c) with (x m, y m).
      - apply (list_elem_of_fmap_2 (fun m => (x m, y m))). by eapply list_elem_of_lookup_2.
      - rewrite Hm. destruct edge as [?[??]]. simpl in *. by subst. }
    rewrite (IH (S i) _ o2 p m Hnd Hp Hm). f_equal. lia.
Qed.

Lemma elem_of_delete_or {A} (l : list A) (k : nat) (x c : A) :
  l !! k = Some x -> c ∈ l -> c ∈ delete k l \/ c = x.
Proof.
  intros Hk Hc. rewrite delete_take_drop.
  rewrite <- (take_drop_middle l k x Hk) in Hc.
  rewrite !elem_of_app, elem_of_cons in Hc. rewrite elem_of_app. tauto.
Qed.

Lemma length_bind_le {A B} (f : A -> list B) (n : nat) (l : list A) :
  (forall a, length (f a) <= n)%nat -> (length (l ≫= f) <= length l * n)%nat.
Proof.
  intros Hf. induction l as [|a l IH]; [done|].
  rewrite bind_cons, length_app. specialize (Hf a). simpl. lia.
Qed.

Lemma length_GetAllEdges w :
  (length (GetAllEdges w) <= Z.to_nat (num_rows w) * (Z.to_nat (num_columns w) * 2))%nat.
Proof.
  unfold GetAllEdges.
  etrans; [apply (length_bind_le _ (Z.to_nat (num_columns w) * 2))|by rewrite length_seqZ].
  intros r. etrans; [apply (length_bind_le _ 2)|by rewrite length_seqZ].
  intros c. rewrite length_app. repeat case_match; simpl; lia.
Qed.

(** * Kruskal's algorithm *)

Section Kruskal.
Context (side : Z).

Lemma lookup_grid_cells_inv (j : nat) c : 0 <= side ->
  cells (fresh_grid side) !! j = Some c ->
  in_grid side c /\ j = Z.to_nat (index_of side c).
Proof.
  intros Hs Hj.
  assert (in_grid side c) as Hc.
  { apply elem_of_grid_cells; [done|]. by eapply list_elem_of_lookup_2. }
  split; [done|].
  eapply NoDup_lookup; [by apply NoDup_grid_cells|exact Hj|by apply lookup_grid_cells].
Qed.

Lemma GetAllEdges_same w w' : grid_ok side w -> grid_ok side w' ->
  GetAllEdges w' = GetAllEdges w.
Proof.
  intros Hg Hg'. unfold GetAllEdges.
  by rewrite (grid_rows _ _ Hg), (grid_columns _ _ Hg), (grid_rows _ _ Hg'), (grid_columns _ _ Hg').
Qed.

Lemma set_of_linked w cellMap a b :
  (forall a b, linked w a b -> set_of side cellMap a = set_of side cellMap b) ->
  rtc (linked w) a b -> set_of side cellMap a = set_of side cellMap b.
Proof.
  intros Hl. induction 1 as [|a b c Hab _ IH]; [done|]. rewrite <- IH. by apply Hl.
Qed.

Lemma kruskal_coordinates w edges cellMap : kruskal_inv side w edges cellMap ->
  (fun m => (x m, y m)) <$> cellMap = cells w.
Proof.
  intros Hk. pose proof (k_grid _ _ _ _ Hk) as Hg. pose proof (grid_side _ _ Hg).
  apply list_eq. intros j. rewrite list_lookup_fmap.
  destruct (decide (j < length (cells w))%nat) as [Hlt|Hge].
  - destruct (lookup_lt_is_Some_2 _ _ Hlt) as [c Hc].
    transitivity (Some c); [|symmetry; exact Hc].
    rewrite (grid_cells _ _ Hg) in Hc.
    apply lookup_grid_cells_inv in Hc as [Hin ->]; [|lia].
    destruct (k_map _ _ _ _ Hk c Hin) as (s & -> & _). simpl. by destruct c.
  - apply Nat.nlt_ge in Hge.
    transitivity (@None cell); [|symmetry; apply lookup_ge_None_2; exact Hge].
    rewrite (lookup_ge_None_2 cellMap j); [done|]. rewrite (k_length _ _ _ _ Hk). exact Hge.
Qed.

Lemma kruskal_set_of w edges cellMap c : kruskal_inv side w edges cellMap ->
  in_grid side c ->
  cellMap !! Z.to_nat (index_of side c) = Some (mkMapCell c.1 c.2 (set_of side cellMap c)) /\
  0 <= set_of side cellMap c < side * side.
Proof.
  intros Hk Hc. destruct (k_map _ _ _ _ Hk c Hc) as (s & Hs & Hr).
  unfold set_of. by rewrite Hs.
Qed.

Lemma kruskal_inv_ext w w' edges cellMap : same_maze side w w' ->
  kruskal_inv side w edges cellMap -> kruskal_inv side w' edges cellMap.
Proof.
  intros (Hg' & Hc & Hv & Hf) [Hg Hs Hmap Hlen Hsame Hlink Hpool Hdone Hcount Hac].
  assert (forall x y, passage w' x y <-> passage w x y) as Hp.
  { intros x y. by apply (passage_flag_ext side). }
  split; try done.
  - intros a b. rewrite !Hp. apply Hs.
  - by rewrite Hc.
  - intros a b Ha Hb E. eapply rtc_subrel; [|by apply Hsame]. intros ??. by apply Hp.
  - intros a b Hl. apply Hlink. unfold linked in *. by rewrite <- !Hp.
  - intros e He. rewrite (GetAllEdges_same w w') by done. by apply Hpool.
  - intros e He. rewrite (GetAllEdges_same w w') in He by done. by apply Hdone.
  - by rewrite (open_passages_ext side w w'), Hc.
  - by apply (acyclic_ext w).
Qed.

(** The drawn edge joins two cells of one set: it only leaves the pool. *)
Lemma kruskal_skip w edges cellMap k e : kruskal_inv side w edges cellMap ->
  edges !! k = Some e -> set_of side cellMap e.1 = set_of side cellMap e.2 ->
  kruskal_inv side w (delete k edges) cellMap.
Proof.
  intros [Hg Hs Hmap Hlen Hsame Hlink Hpool Hdone Hcount Hac] Hk He.
  split; try done.
  - intros f Hf. apply Hpool. by eapply list_elem_of_delete_inv.
  - intros f Hf Hnot. destruct (decide (f ∈ edges)) as [Hin|Hin]; [|by apply Hdone].
    destruct (elem_of_delete_or edges k e f Hk Hin) as [?|E]; [done|by subst].
Qed.

End Kruskal.

Section KruskalMerge.
Context (side : Z).

Lemma set_of_merge w edges cellMap oldSet newSet c :
  kruskal_inv side w edges cellMap -> in_grid side c ->
  set_of side (merge_sets oldSet newSet <$> cellMap) c =
  if set_of side cellMap c =? oldSet then newSet else set_of side cellMap c.
Proof.
  intros Hk Hc. destruct (kruskal_set_of side w edges cellMap c Hk Hc) as [Hs _].
  unfold set_of at 1. rewrite list_lookup_fmap, Hs. simpl. unfold merge_sets. simpl.
  by destruct (set_of side cellMap c =? oldSet).
Qed.

Lemma represented_merge w edges cellMap a b :
  kruskal_inv side w edges cellMap -> in_grid side a -> in_grid side b ->
  set_of side cellMap a <> set_of side cellMap b ->
  represented cellMap (side * side) =
  S (represented (merge_sets (set_of side cellMap b) (set_of side cellMap a) <$> cellMap)
                 (side * side)).
Proof.
  intros Hk Ha Hb Hne. unfold represented.
  destruct (kruskal_set_of side w edges cellMap a Hk Ha) as [Hsa Hra].
  destruct (kruskal_set_of side w edges cellMap b Hk Hb) as [Hsb Hrb].
  set (sa := set_of side cellMap a) in *. set (sb := set_of side cellMap b) in *.
  apply (filter_flip _ _ _ sb).
  - apply NoDup_seqZ.
  - apply elem_of_seqZ. lia.
  - apply bool_decide_eq_false_2. intros (m' & E & Hm')%list_elem_of_fmap.
    apply list_elem_of_fmap in Hm' as (m & -> & Hm). unfold merge_sets in E.
    destruct (Z.eqb_spec (set m) sb); simpl in E; congruence.
  - apply bool_decide_eq_true_2. apply list_elem_of_fmap.
    exists (mkMapCell b.1 b.2 sb). split; [done|by eapply list_elem_of_lookup_2].
  - intros i _ Hi. apply bool_decide_ext. rewrite !list_elem_of_fmap. split.
    + intros (m & -> & Hm). exists (merge_sets sb sa m). split; [|by apply list_elem_of_fmap_2].
      unfold merge_sets. destruct (Z.eqb_spec (set m) sb); [done|done].
    + intros (m' & -> & Hm'). apply list_elem_of_fmap in Hm' as (m & -> & Hm).
      unfold merge_sets. destruct (Z.eqb_spec (set m) sb); simpl.
      * exists (mkMapCell a.1 a.2 sa). split; [done|by eapply list_elem_of_lookup_2].
      * by exists m.
Qed.

(** The drawn edge joins two sets: they merge and the passage opens. *)
Lemma kruskal_merge w edges cellMap k a d :
  kruskal_inv side w edges cellMap ->
  edges !! k = Some (a, step_to a d) ->
  set_of side cellMap a <> set_of side cellMap (step_to a d) ->
  kruskal_inv side (cut a d w) (delete k edges)
    (merge_sets (set_of side cellMap (step_to a d)) (set_of side cellMap a) <$> cellMap).
Proof.
  intros Hk Hedge Hne. pose proof Hk as [Hg Hs Hmap Hlen Hsame Hlink Hpool Hdone Hcount Hac].
  set (b := step_to a d) in *.
  assert ((a, b) ∈ GetAllEdges w) as Hab by (apply Hpool; by eapply list_elem_of_lookup_2).
  apply (elem_of_GetAllEdges side) in Hab as (Ha & Hb & _); [|done]. simpl in Ha, Hb.
  set (sa := set_of side cellMap a) in *. set (sb := set_of side cellMap b) in *.
  set (cm' := merge_sets sb sa <$> cellMap).
  set (w' := cut a d w).
  assert (grid_ok side w') as Hg' by (by repeat apply grid_ok_open_border).
  assert (forall x y, passage w' x y <-> passage w x y \/ (x = a /\ y = b) \/ (x = b /\ y = a)) as Hadd.
  { intros x y. by apply (passage_cut side). }
  assert (forall c, in_grid side c ->
            set_of side cm' c = if set_of side cellMap c =? sb then sa else set_of side cellMap c) as Hset.
  { intros c Hc. by apply (set_of_merge w edges). }
  assert (set_of side cm' a = sa) as Hsa'.
  { rewrite Hset by done. fold sa. by rewrite (proj2 (Z.eqb_neq _ _) Hne). }
  assert (set_of side cm' b = sa) as Hsb'.
  { rewrite Hset by done. fold sb. by rewrite Z.eqb_refl. }
  assert (a <> b) as Hanb by (intros E; apply Hne; unfold sa, sb; by rewrite <- E).
  assert (~ passage w a b) as Hc1.
  { intros H. apply Hne. apply Hlink. by left. }
  assert (~ passage w b a) as Hc2.
  { intros H. apply Hne. apply Hlink. by right. }
  assert (passage w' a b) as Hnew1 by (apply Hadd; tauto).
  assert (passage w' b a) as Hnew2 by (apply Hadd; tauto).
  split.
  - done.
  - intros x y. rewrite !Hadd. intros [H|[[-> ->]|[-> ->]]]; [left; by apply Hs|tauto..].
  - intros c Hc. destruct (kruskal_set_of side w edges cellMap c Hk Hc) as [Hsc Hrc].
    destruct (kruskal_set_of side w edges cellMap a Hk Ha) as [_ Hra].
    unfold cm'. rewrite list_lookup_fmap, Hsc. simpl. unfold merge_sets. simpl.
    destruct (set_of side cellMap c =? sb); eauto.
  - unfold cm'. by rewrite length_fmap.
  - intros u v Hu Hv. rewrite !Hset by done.
    destruct (Z.eqb_spec (set_of side cellMap u) sb) as [Eu|Eu],
             (Z.eqb_spec (set_of side cellMap v) sb) as [Ev|Ev]; intros E.
    + apply (reach_mono w w' a b Hadd). apply Hsame; [done..|congruence].
    + etrans; [apply (reach_mono w w' a b Hadd), (Hsame u b); done|].
      eapply rtc_l; [exact Hnew2|].
      apply (reach_mono w w' a b Hadd), (Hsame a v); [done..|]. by fold sa.
    + etrans; [apply (reach_mono w w' a b Hadd), (Hsame u a); [done..|by fold sa]|].
      eapply rtc_l; [exact Hnew1|].
      apply (reach_mono w w' a b Hadd), (Hsame b v); [done..|]. by fold sb.
    + apply (reach_mono w w' a b Hadd). by apply Hsame.
  - intros u v Hl. apply (linked_add w w' a b Hadd) in Hl as [Hl|[[-> ->]|[-> ->]]].
    + assert (in_grid side u /\ in_grid side v) as [Hu Hv].
      { destruct Hl as [H|H]; apply (passage_cells side) in H as (? & ? & _); done. }
      rewrite !Hset by done. by rewrite (Hlink u v Hl).
    + congruence.
    + congruence.
  - intros e He. rewrite (GetAllEdges_same side w w') by done.
    apply Hpool. by eapply list_elem_of_delete_inv.
  - intros e He Hnot. rewrite (GetAllEdges_same side w w') in He by done.
    destruct (decide (e ∈ edges)) as [Hin|Hin].
    + destruct (elem_of_delete_or edges k (a, b) e Hedge Hin) as [?|E]; [done|].
      subst e. simpl. congruence.
    + apply (elem_of_GetAllEdges side) in He as He'; [|done]. destruct He' as (H1 & H2 & _).
      rewrite !Hset by done. by rewrite (Hdone e He Hin).
  - assert (cells w' = cells w) as -> by done. rewrite <- Hcount.
    unfold w', cut. rewrite (open_passages_cut side) by done.
    rewrite (represented_merge w edges cellMap a b Hk Ha Hb Hne). fold sa sb cm'. lia.
  - apply (acyclic_add_edge w w' a b Hadd Hanb Hac).
    intros Hpath. apply Hne. by apply (set_of_linked side w).
Qed.

End KruskalMerge.

Section KruskalRun.
Context (side : Z) (random : nat -> Q).
Hypothesis random_unit : unit_interval random.

(** * One round *)

Lemma Kruskals_round_spec w edges cellMap :
  kruskal_inv side w edges cellMap -> edges <> [] ->
  exists edges' cellMap' w',
    Kruskals_round random edges cellMap w = Returns ((edges', cellMap'), w') /\
    kruskal_inv side w' edges' cellMap' /\ length edges = S (length edges').
Proof.
  intros Hk Hne. pose proof Hk as [Hg Hs Hmap Hlen Hsame Hlink Hpool Hdone Hcount Hac].
  pose proof (grid_side _ _ Hg) as Hside.
  destruct (random_element_nonempty random edges w random_unit Hne)
    as (k & edge & Hedge & Hkz & _).
  unfold Kruskals_round. unfold bind at 1. rewrite random_below_eq, Hkz.
  set (w1 := set_random_calls _ w).
  assert (same_maze side w w1) as Hs1 by (by apply same_maze_set_random_calls).
  assert (kruskal_inv side w1 edges cellMap) as Hk1 by (by apply (kruskal_inv_ext side w)).
  assert (grid_ok side w1) as Hg1 by apply Hs1.
  assert (at_index edges (Z.of_nat k) = Some edge) as ->.
  { unfold at_index. destruct (Z.ltb_spec (Z.of_nat k) 0); [lia|]. by rewrite Nat2Z.id. }
  assert (k < length edges)%nat as Hklt by (by eapply lookup_lt_Some).
  rewrite splice1_delete by done.
  assert (length edges = S (length (delete k edges))) as Hlen'.
  { rewrite length_delete by eauto. lia. }
  assert (edge ∈ GetAllEdges w) as Hin by (apply Hpool; by eapply list_elem_of_lookup_2).
  apply (elem_of_GetAllEdges side) in Hin as (Ha & Hb & Hd); [|done].
  destruct edge as [a b]. simpl in Ha, Hb, Hd.
  assert (exists d, b = step_to a d) as [d ->].
  { destruct Hd as [->| ->]; [by exists Bottom|by exists Right]. }
  destruct (kruskal_set_of side w edges cellMap a Hk Ha) as [Hma _].
  destruct (kruskal_set_of side w edges cellMap (step_to a d) Hk Hb) as [Hmb _].
  pose proof (kruskal_coordinates side w edges cellMap Hk) as Hcoord.
  assert (NoDup ((fun m => (x m, y m)) <$> cellMap)) as Hnd.
  { rewrite Hcoord, (grid_cells _ _ Hg). apply NoDup_grid_cells. lia. }
  rewrite (surjective_pairing (find_endpoints _ _ _ _ _)).
  rewrite (find_endpoints_1 _ _ 0 None None _ _ Hnd Hma) by (by destruct a).
  rewrite (find_endpoints_2 _ _ 0 None None _ _ Hnd Hmb) by (by destruct (step_to a d)).
  rewrite !Nat.add_0_l, Hma, Hmb. cbn [set x y].
  destruct (Z.eqb_spec (set_of side cellMap a) (set_of side cellMap (step_to a d))) as [E|E];
    cbn [negb].
  - (* both ends in one set *)
    exists (delete k edges), cellMap, w1. split; [done|]. split; [|done].
    by apply (kruskal_skip side w1 edges cellMap k (a, step_to a d)).
  - (* two sets: merge them and open the passage *)
    rewrite (relabel_all cellMap _ _ _ Hma) by done. cbn [set].
    unfold bind at 1. unfold get at 1.
    replace (a.1, a.2) with a by (by destruct a).
    replace ((step_to a d).1, (step_to a d).2) with (step_to a d) by (by destruct (step_to a d)).
    unfold bind at 1. rewrite (set_background_grid side) by done.
    set (w2 := paint a _ w1).
    assert (grid_ok side w2) as Hg2 by (by apply grid_ok_paint).
    unfold bind at 1. change (cells w1) with (cells w2).
    rewrite (set_background_grid side) by done.
    set (w3 := paint (step_to a d) _ w2).
    assert (same_maze side w w3) as Hs3.
    { eapply same_maze_trans; [exact Hs1|]. eapply same_maze_trans; [by apply same_maze_paint|].
      by apply same_maze_paint. }
    assert (grid_ok side w3) as Hg3 by apply Hs3.
    unfold bind at 1. change (cells w1) with (cells w3).
    rewrite (CutEdge_cut side) by done.
    unfold bind, sleep, ret.
    eexists _, _, _. split; [done|]. split; [|done].
    apply kruskal_merge; [by apply (kruskal_inv_ext side w)|done..].
Qed.

(** * The loop *)

Lemma Kruskals_loop_spec fuel : forall edges cellMap w,
  kruskal_inv side w edges cellMap -> edges <> [] -> (length edges <= fuel)%nat ->
  exists w' cellMap', Kruskals_loop random fuel edges cellMap w = Returns (tt, w') /\
                      kruskal_inv side w' [] cellMap'.
Proof.
  induction fuel as [|fuel IH]; intros edges cellMap w Hk Hne Hfuel.
  - destruct edges; [done|simpl in Hfuel; lia].
  - destruct (Kruskals_round_spec w edges cellMap Hk Hne) as (edges' & cm' & w' & Hr & Hk' & Hlen).
    simpl. unfold bind. rewrite Hr. cbn [fst snd].
    destruct edges' as [|e edges'].
    + exists w', cm'. done.
    + assert ((0 <? Z.of_nat (length (e :: edges'))) = true) as -> by (apply Z.ltb_lt; simpl; lia).
      apply IH; [done|done|lia].
Qed.

End KruskalRun.

Section KruskalEnds.
Context (side : Z) (random : nat -> Q).
Hypothesis random_unit : unit_interval random.

(** * Before the loop: every cell is a set of its own *)

Lemma kruskal_inv_start w : grid_ok side w -> (forall c d, flag w c d = false) ->
  kruskal_inv side w (GetAllEdges w)
    (imap (fun i c => mkMapCell c.1 c.2 (Z.of_nat i)) (cells w)).
Proof.
  intros Hg Hf. pose proof (grid_side _ _ Hg) as Hside.
  set (cm := imap _ _).
  assert (forall a b, ~ passage w a b) as Hno.
  { intros a b H. apply (passage_full side) in H as (_ & d & _ & _ & H); [|done].
    by rewrite Hf in H. }
  assert (forall c, in_grid side c ->
            cm !! Z.to_nat (index_of side c) = Some (mkMapCell c.1 c.2 (index_of side c))) as Hcm.
  { intros c Hc. unfold cm. rewrite list_lookup_imap, (grid_cells _ _ Hg), lookup_grid_cells by done.
    simpl. pose proof (index_of_range side c Hc). do 2 f_equal. lia. }
  assert (forall c, in_grid side c -> set_of side cm c = index_of side c) as Hset.
  { intros c Hc. unfold set_of. by rewrite Hcm. }
  split.
  - done.
  - intros a b H. by apply Hno in H.
  - intros c Hc. exists (index_of side c). split; [by apply Hcm|by apply index_of_range].
  - unfold cm. by rewrite length_imap.
  - intros a b Ha Hb. rewrite !Hset by done. intros E.
    by rewrite (index_of_inj side a b Ha Hb E).
  - intros a b [H|H]; by apply Hno in H.
  - done.
  - done.
  - unfold open_passages. rewrite filter_none.
    + unfold represented. rewrite filter_all.
      * rewrite length_seqZ. simpl. rewrite (grid_cells _ _ Hg).
        pose proof (length_grid_cells side ltac:(lia)). lia.
      * intros i Hi. apply elem_of_seqZ in Hi. apply bool_decide_eq_true_2.
        apply list_elem_of_lookup. exists (Z.to_nat i).
        assert (Z.to_nat i < length (cells w))%nat as Hlt.
        { rewrite (grid_cells _ _ Hg). pose proof (length_grid_cells side ltac:(lia)). lia. }
        destruct (lookup_lt_is_Some_2 _ _ Hlt) as [c Hc].
        unfold cm. rewrite list_lookup_fmap, list_lookup_imap, Hc. simpl. f_equal. lia.
    + intros e He. apply not_true_is_false. intros H.
      apply (elem_of_GetAllEdges side) in He as (He & _); [|done].
      apply (IsOpen_passage side) in H; [|done..]. by apply Hno in H.
  - intros a b H. by apply Hno in H.
Qed.

(** * After the loop: one set, a spanning tree *)

Lemma kruskal_one_set w cellMap : kruskal_inv side w [] cellMap ->
  forall c, in_grid side c -> set_of side cellMap c = set_of side cellMap (0, 0).
Proof.
  intros Hk. pose proof (k_grid _ _ _ _ Hk) as Hg. pose proof (grid_side _ _ Hg) as Hside.
  apply (grid_closed side _ (0, 0)); [split; simpl; lia|done|].
  intros a d Ha Hb E. rewrite <- E.
  destruct (oriented_edge side w a d Hg Ha Hb) as [He _].
  apply (k_done _ _ _ _ Hk) in He; [|apply not_elem_of_nil].
  destruct d; cbn [fst snd] in He; congruence.
Qed.

Lemma kruskal_inv_done w cellMap : kruskal_inv side w [] cellMap -> spanning_tree w.
Proof.
  intros Hk. pose proof Hk as [Hg Hs Hmap Hlen Hsame Hlink Hpool Hdone Hcount Hac].
  pose proof (grid_side _ _ Hg) as Hside.
  pose proof (kruskal_one_set w cellMap Hk) as Hone.
  assert (forall c, c ∈ cells w -> in_grid side c) as Hcells.
  { intros c Hc. rewrite (grid_cells _ _ Hg) in Hc. apply elem_of_grid_cells in Hc; [done|lia]. }
  assert (in_grid side (0, 0)) as H0 by (split; simpl; lia).
  split; [|split].
  - intros a b Ha Hb. apply Hsame; auto. rewrite (Hone a), (Hone b); auto.
  - assert (represented cellMap (side * side) = 1%nat) as Hrep; [|lia].
    destruct (kruskal_set_of side w [] cellMap (0, 0) Hk H0) as [Hs0 Hr0].
    unfold represented.
    rewrite (filter_flip (fun _ => false) _ _ (set_of side cellMap (0, 0))).
    + by rewrite filter_none.
    + apply NoDup_seqZ.
    + apply elem_of_seqZ. lia.
    + done.
    + apply bool_decide_eq_true_2. apply list_elem_of_fmap.
      eexists. split; [|by eapply list_elem_of_lookup_2]. done.
    + intros i _ Hi. apply bool_decide_eq_false_2.
      intros (m & -> & Hm)%list_elem_of_fmap. apply Hi.
      apply list_elem_of_lookup in Hm as [j Hj].
      assert (j < length (cells w))%nat as Hlt by (rewrite <- Hlen; by eapply lookup_lt_Some).
      destruct (lookup_lt_is_Some_2 _ _ Hlt) as [c Hc].
      rewrite (grid_cells _ _ Hg) in Hc.
      apply (lookup_grid_cells_inv side) in Hc as [Hin ->]; [|lia].
      destruct (kruskal_set_of side w [] cellMap c Hk Hin) as [Hsc _].
      rewrite Hsc in Hj. injection Hj as <-. simpl. by apply Hone.
  - done.
Qed.

(** * The whole run *)

Lemma GetAllEdges_nonempty w : grid_ok side w -> 2 <= side -> GetAllEdges w <> [].
Proof.
  intros Hg Hs E.
  assert (((0, 0), (1, 0)) ∈ GetAllEdges w) as H.
  { apply (elem_of_GetAllEdges side); [done|]. simpl. unfold in_grid. simpl.
    split; [lia|]. split; [lia|]. by left. }
  rewrite E in H. by apply elem_of_nil in H.
Qed.

Lemma kruskals_run w : blank side w -> 2 <= side ->
  exists w', run_generator random (Z.to_nat (2 * side * side)) "2" w = Returns (tt, w') /\
             exists cellMap, kruskal_inv side w' [] cellMap.
Proof.
  intros Hb Hside. pose proof Hb as [Hg Hf Hv].
  rewrite run_generator_start. cbv zeta.
  change (String.eqb "2" "0") with false. change (String.eqb "2" "1") with false.
  change (String.eqb "2" "2") with true. cbv iota.
  set (w1 := visit _ _).
  assert (grid_ok side w1) as Hg1 by (by apply grid_ok_visit, grid_ok_set_random_calls).
  unfold Kruskals. unfold bind at 1. unfold get at 1.
  destruct (Kruskals_loop_spec side random random_unit (Z.to_nat (2 * side * side))
              (GetAllEdges w1) _ w1 (kruskal_inv_start w1 Hg1 Hf)) as (w' & cm' & Hr & Hk).
  - by apply GetAllEdges_nonempty.
  - etrans; [apply length_GetAllEdges|].
    rewrite (grid_rows _ _ Hg1), (grid_columns _ _ Hg1). nia.
  - exists w'. split; [done|]. by exists cm'.
Qed.

End KruskalEnds.

(** * The layering loop of the solver *)

Section Layering.
Context (side : Z).

(** ** The inner loop *)

Lemma discovered_ext w w' idx depth l nbs :
  cells w' = cells w -> visited w' = visited w ->
  discovered w' idx depth l nbs = discovered w idx depth l nbs.
Proof. intros Hc Hv. unfold discovered, is_visited. by rewrite Hc, Hv. Qed.

Lemma discovered_cons w idx depth l n nbs :
  discovered w idx depth l (n :: nbs) =
  discovered w idx depth
    (if negb (is_visited w n) then record_depth idx depth n (FindCellIndex n (cells w)) l else l)
    nbs.
Proof. done. Qed.

Lemma found_cons w n nbs :
  found w (n :: nbs) = if negb (is_visited w n) then n :: found w nbs else found w nbs.
Proof. done. Qed.

Lemma discover_spec nbs idx depth w : forall l w1,
  same_maze side w w1 -> (forall n, n ∈ nbs -> in_grid side n) ->
  exists w', discover nbs idx depth l w1 = Returns (discovered w idx depth l nbs, w') /\
             same_maze side w w'.
Proof.
  induction nbs as [|n nbs IH]; intros l w1 Hs Hin.
  - exists w1. done.
  - assert (in_grid side n) as Hn by (apply Hin; left).
    assert (forall v, v ∈ nbs -> in_grid side v) as Hin' by (intros v Hv; apply Hin; by right).
    pose proof Hs as (Hg1 & Hc1 & Hv1 & Hf1).
    cbn [discover]. unfold bind at 1. unfold get at 1.
    rewrite discovered_cons.
    change (truthy (visited w1 !! FindCellIndex n (cells w1))) with (is_visited w1 n).
    rewrite (same_maze_visited side w w1) by done. rewrite Hc1.
    destruct (is_visited w n); cbn [negb].
    + by apply IH.
    + unfold bind at 1. rewrite <- Hc1. rewrite (set_background_grid side) by done.
      unfold bind at 1. unfold sleep at 1, ret at 1. rewrite Hc1.
      apply IH; [|done]. eapply same_maze_trans; [exact Hs|]. by apply same_maze_paint.
Qed.

Lemma discovered_queue w idx depth nbs : forall l,
  queue (discovered w idx depth l nbs) =
  queue l ++ ((fun n => (n, add1 depth)) <$> found w nbs).
Proof.
  induction nbs as [|n nbs IH]; intros l; [by rewrite app_nil_r|].
  rewrite discovered_cons, found_cons, IH.
  destruct (is_visited w n); cbn [negb]; [done|].
  unfold record_depth. cbn [queue]. rewrite fmap_cons. by rewrite <- app_assoc.
Qed.

Lemma discovered_writes w idx depth nbs : forall l,
  writes (discovered w idx depth l nbs) =
  writes l ++ ((fun n => mkWrite (Some idx) (FindCellIndex n (cells w)) (add1 depth)) <$> found w nbs).
Proof.
  induction nbs as [|n nbs IH]; intros l; [by rewrite app_nil_r|].
  rewrite discovered_cons, found_cons, IH.
  destruct (is_visited w n); cbn [negb]; [done|].
  unfold record_depth. cbn [writes]. rewrite fmap_cons. by rewrite <- app_assoc.
Qed.

Lemma discovered_depthMap w idx depth nbs k : forall l,
  depthMap (discovered w idx depth l nbs) !! k =
  if bool_decide (k ∈ ((fun n => FindCellIndex n (cells w)) <$> found w nbs))
  then Some (add1 depth) else depthMap l !! k.
Proof.
  induction nbs as [|n nbs IH]; intros l.
  { by rewrite bool_decide_eq_false_2 by apply not_elem_of_nil. }
  rewrite discovered_cons, found_cons, IH.
  destruct (is_visited w n); cbn [negb]; [done|].
  rewrite fmap_cons. unfold record_depth. cbn [depthMap].
  destruct (decide (k ∈ (fun n => FindCellIndex n (cells w)) <$> found w nbs)) as [Hk|Hk].
  - rewrite !bool_decide_eq_true_2; [done|by right|done].
  - rewrite (bool_decide_eq_false_2 _ Hk).
    destruct (decide (k = FindCellIndex n (cells w))) as [->|Hne].
    + rewrite lookup_insert_eq. by rewrite bool_decide_eq_true_2 by left.
    + rewrite lookup_insert_ne by done. rewrite bool_decide_eq_false_2; [done|].
      rewrite elem_of_cons. tauto.
Qed.

Lemma elem_of_found w nbs n : n ∈ found w nbs <-> n ∈ nbs /\ is_visited w n = false.
Proof.
  unfold found. rewrite list_elem_of_In, List.filter_In, <- list_elem_of_In, negb_true_iff. done.
Qed.

Lemma NoDup_found w nbs : NoDup nbs -> NoDup (found w nbs).
Proof.
  intros H. apply NoDup_ListNoDup, List.NoDup_filter. by apply NoDup_ListNoDup.
Qed.

End Layering.

Section LayeringStep.
Context (side : Z).

Lemma tree_step_mono w0 w w' a b :
  (forall c, is_visited w c = true -> is_visited w' c = true) ->
  rtc (tree_step w0 w) a b -> rtc (tree_step w0 w') a b.
Proof. intros Hm. apply rtc_subrel. intros x y [Hx Hp]. split; auto. Qed.

(** In a maze without cycles a cell waiting on the queue is never found
    again from another cell of the queue. *)
Lemma bfs_no_rediscovery w0 w l c n :
  bfs_inv side w0 w l -> acyclic w0 ->
  c ∈ (queue l).*1 -> n ∈ (queue l).*1 -> passage w0 c n -> False.
Proof.
  intros Hb Hac Hc Hn Hp.
  apply list_elem_of_fmap in Hc as ([c' dc] & -> & Hc).
  apply list_elem_of_fmap in Hn as ([n' dn] & -> & Hn). simpl in *.
  destruct (bfs_queue _ _ _ _ Hb _ _ Hc) as (Hcg & Hcv & _).
  destruct (bfs_queue _ _ _ _ Hb _ _ Hn) as (Hng & Hnv & _).
  assert (forall x, in_grid side x -> is_visited w x = false ->
            x ∈ (queue l).*1 -> rtc (linked_without w0 c' n') (0, 0) x) as Hpath.
  { intros x Hx Hxv Hxq. eapply rtc_subrel; [|apply (bfs_tree _ _ _ _ Hb x Hx); by right].
    intros u v [Hu Huv]. split; [by left|]. intros [[-> _]|[-> _]]; congruence. }
  apply (Hac c' n' Hp). etrans.
  - apply rtc_linked_without_sym, Hpath; [done..|].
    apply list_elem_of_fmap. by exists (c', dc).
  - apply Hpath; [done..|]. apply list_elem_of_fmap. by exists (n', dn).
Qed.

Lemma bfs_inv_ext w0 w w' l : same_maze side w w' ->
  bfs_inv side w0 w l -> bfs_inv side w0 w' l.
Proof.
  intros Hs [Hg Hw Hq Hqn Hk Hd Ho Ht]. pose proof Hs as (Hg' & Hc & Hv & Hf).
  assert (forall c, is_visited w' c = is_visited w c) as Hvis
    by (intros c; by apply (same_maze_visited side)).
  split; try done.
  - intros c d. by rewrite Hf.
  - intros c d Hcd. rewrite Hvis. by apply Hq.
  - intros k. rewrite Hk. by setoid_rewrite Hvis.
  - intros c Hc' Hcase. rewrite Hvis in Hcase.
    eapply tree_step_mono; [|by apply Ht]. intros x. by rewrite Hvis.
Qed.


Lemma written_value_number l e : written_once l -> e ∈ writes l -> is_Some (write_value e).
Proof.
  intros Ho He. pose proof (once_parent _ Ho e He) as H.
  destruct (write_parent e); [destruct H as (d & _ & ->)|destruct H as [_ ->]]; eauto.
Qed.

(** One round of the loop, on the local variables. *)
Lemma bfs_step w0 w l c dq rest nbs :
  grid_ok side w0 -> acyclic w0 -> bfs_inv side w0 w l -> queue l = (c, dq) :: rest ->
  NoDup nbs -> (forall n, n ∈ nbs <-> passage w0 c n) ->
  bfs_inv side w0 (visit c w)
    (discovered (visit c w) (index_of side c) dq
                (mkLayering rest (depthMap l) (writes l)) nbs).
Proof.
  intros Hg0 Hac Hb Hq Hnd Hnbs. pose proof Hb as [Hg Hw Hqu Hqn Hk Hd Ho Ht].
  pose proof Ho as [Ho1 Ho2 Ho3].
  set (w1 := visit c w). set (l0 := mkLayering rest (depthMap l) (writes l)).
  set (l' := discovered w1 (index_of side c) dq l0 nbs).
  assert (grid_ok side w1) as Hg1 by (by apply grid_ok_visit).
  assert (c ∈ (queue l).*1) as Hcq by (rewrite Hq; left).
  destruct (Hqu c dq) as (Hc & Hcv & Hcd); [rewrite Hq; left|].
  assert (forall x, in_grid side x -> is_visited w1 x = true <-> x = c \/ is_visited w x = true) as Hv1.
  { intros x Hx. by apply (is_visited_visit side). }
  assert (forall x, is_visited w x = true -> is_visited w1 x = true) as Hmono.
  { intros x Hx. unfold w1, is_visited, visit in *. simpl.
    destruct (decide (FindCellIndex c (cells w) = FindCellIndex x (cells w))) as [E|E].
    - by rewrite E, lookup_insert_eq.
    - by rewrite lookup_insert_ne. }
  rewrite Hq in Hqn. simpl in Hqn. apply NoDup_cons in Hqn as [Hcrest Hrestnd].
  set (news := found w1 nbs).
  assert (forall n, n ∈ news -> in_grid side n /\ passage w0 c n /\ is_visited w n = false /\
                                n <> c /\ (n ∉ rest.*1) /\ is_visited w1 n = false) as Hnews.
  { intros n Hn. apply elem_of_found in Hn as [Hn Hnv]. apply Hnbs in Hn.
    destruct (passage_cells side w0 c n Hg0 Hn) as (_ & Hng & _).
    assert (n <> c /\ is_visited w n = false) as [Hne Hnv'].
    { split.
      - intros ->. rewrite (proj2 (Hv1 c Hc)) in Hnv; [done|by left].
      - apply not_true_is_false. intros H. rewrite (Hmono n H) in Hnv. done. }
    split; [done|]. split; [done|]. split; [done|]. split; [done|]. split; [|done].
    intros Hnr. apply (bfs_no_rediscovery w0 w l c n Hb Hac Hcq); [|done].
    rewrite Hq. simpl. by right. }
  assert (forall n, in_grid side n -> FindCellIndex n (cells w1) = index_of side n) as Hidx.
  { intros n Hn. by apply (grid_ok_index side). }
  assert (queue l' = rest ++ ((fun n => (n, add1 dq)) <$> news)) as Hq' by apply discovered_queue.
  assert ((queue l').*1 = rest.*1 ++ news) as Hq'1.
  { rewrite Hq', fmap_app, <- list_fmap_compose. f_equal. by rewrite <- (list_fmap_id news) at 2. }
  assert (write_key <$> writes l' = (write_key <$> writes l) ++ (index_of side <$> news)) as Hkeys'.
  { unfold l'. rewrite discovered_writes, fmap_app, <- list_fmap_compose. f_equal.
    apply list_fmap_ext. intros i n Hn. simpl. apply Hidx.
    apply list_elem_of_lookup_2 in Hn. by apply Hnews in Hn as (? & _). }
  assert (forall k, depthMap l' !! k =
                    if bool_decide (k ∈ index_of side <$> news) then Some (add1 dq)
                    else depthMap l !! k) as Hdm.
  { intros k. unfold l'. rewrite discovered_depthMap. fold news.
    replace ((fun n => FindCellIndex n (cells w1)) <$> news) with (index_of side <$> news); [done|].
    apply list_fmap_ext. intros i n Hn. symmetry. apply Hidx.
    apply list_elem_of_lookup_2 in Hn. by apply Hnews in Hn as (? & _). }
  assert (forall n, n ∈ news -> index_of side n ∉ write_key <$> writes l) as Hfresh.
  { intros n Hn Hkey. destruct (Hnews n Hn) as (Hng & _ & Hnv & Hne & Hnr & _).
    apply Hk in Hkey as (x & Hx & E & Hcase).
    apply (index_of_inj side) in E; [|done..]. subst x.
    destruct Hcase as [H|H]; [congruence|]. rewrite Hq in H. simpl in H.
    apply elem_of_cons in H as [?|?]; done. }
  assert (forall k, k ∈ write_key <$> writes l -> depthMap l' !! k = depthMap l !! k) as Hold.
  { intros k Hkey. rewrite Hdm. rewrite bool_decide_eq_false_2; [done|].
    intros (n & -> & Hn)%list_elem_of_fmap. by apply (Hfresh n). }
  assert (index_of side c ∈ write_key <$> writes l) as Hckey.
  { apply Hk. exists c. split; [done|]. split; [done|]. by right. }
  assert (exists d0, dq = Some d0) as [d0 ->].
  { apply list_elem_of_fmap in Hckey as (e & E & He). pose proof (Ho2 e He) as H.
    rewrite <- E, Hcd in H. injection H as ->.
    destruct (written_value_number l e Ho He) as [d0 ?]. eauto. }
  assert (NoDup news) as Hnewsnd by (by apply NoDup_found).
  split.
  - done.
  - intros x d. by rewrite <- Hw.
  - intros x d Hx. rewrite Hq' in Hx. apply elem_of_app in Hx as [Hx|Hx].
    + destruct (Hqu x d) as (Hxg & Hxv & Hxd); [rewrite Hq; by right|].
      assert (x ∈ rest.*1) as Hxr by (apply list_elem_of_fmap; by exists (x, d)).
      split; [done|]. split.
      * apply not_true_is_false. intros H. apply Hv1 in H as [->|H]; [done|congruence|done].
      * rewrite Hold; [done|]. apply Hk. exists x. split; [done|]. split; [done|].
        right. rewrite Hq. simpl. by right.
    + apply list_elem_of_fmap in Hx as (n & [= -> ->] & Hn).
      destruct (Hnews n Hn) as (Hng & _ & _ & _ & _ & Hnv1). split; [done|]. split; [done|].
      rewrite Hdm. rewrite bool_decide_eq_true_2; [done|]. by apply list_elem_of_fmap_2.
  - rewrite Hq'1. apply NoDup_app. split; [done|]. split; [|done].
    intros x Hx Hxn. by apply Hnews in Hxn as (_ & _ & _ & _ & ? & _).
  - intros k. rewrite Hkeys', Hq'1, elem_of_app. split.
    + intros [Hkey|Hkey].
      * apply Hk in Hkey as (x & Hx & -> & Hcase). exists x. split; [done|]. split; [done|].
        destruct Hcase as [H|H]; [left; by apply Hmono|].
        rewrite Hq in H. simpl in H. apply elem_of_cons in H as [->|H].
        -- left. apply Hv1; [done|by left].
        -- right. apply elem_of_app. by left.
      * apply list_elem_of_fmap in Hkey as (n & -> & Hn). exists n.
        split; [by apply Hnews in Hn as (? & _)|]. split; [done|]. right. apply elem_of_app. by right.
    + intros (x & Hx & -> & Hcase). destruct Hcase as [H|H].
      * left. apply Hk. exists x. split; [done|]. split; [done|].
        apply Hv1 in H as [->|H]; [by right|by left|done].
      * apply elem_of_app in H as [H|H].
        -- left. apply Hk. exists x. split; [done|]. split; [done|]. right.
           rewrite Hq. simpl. by right.
        -- right. by apply list_elem_of_fmap_2.
  - intros k v. rewrite Hdm, Hkeys', elem_of_app. case_bool_decide as Hin.
    + intros _. by right.
    + intros H. left. by eapply Hd.
  - split.
    + rewrite Hkeys'. apply NoDup_app. split; [done|]. split.
      * intros k Hkey (n & -> & Hn)%list_elem_of_fmap. by apply (Hfresh n).
      * apply NoDup_fmap_2_strong; [|done]. intros x y Hx Hy E.
        apply (index_of_inj side); [by apply Hnews in Hx as (? & _)|by apply Hnews in Hy as (? & _)|done].
    + intros e He. unfold l' in He. rewrite discovered_writes in He.
      apply elem_of_app in He as [He|He].
      * rewrite Hold; [by apply Ho2|]. by apply list_elem_of_fmap_2.
      * apply list_elem_of_fmap in He as (n & -> & Hn). simpl.
        rewrite Hidx by (by apply Hnews in Hn as (? & _)).
        rewrite Hdm. rewrite bool_decide_eq_true_2; [done|]. by apply list_elem_of_fmap_2.
    + intros e He. unfold l' in He. rewrite discovered_writes in He.
      apply elem_of_app in He as [He|He].
      * pose proof (Ho3 e He) as H. destruct (write_parent e) as [p|]; [|done].
        destruct H as (d & Hp & Hv). exists d. split; [|done].
        rewrite Hold; [done|]. by eapply Hd.
      * apply list_elem_of_fmap in He as (n & -> & Hn). simpl.
        exists d0. split; [|done]. rewrite Hold; done.
  - intros x Hx Hcase.
    assert (rtc (tree_step w0 w1) (0, 0) c) as Hrc.
    { apply (tree_step_mono w0 w w1 _ _ Hmono). apply Ht; [done|by right]. }
    destruct Hcase as [H|H].
    + apply Hv1 in H as [->|H]; [done| |done].
      apply (tree_step_mono w0 w w1 _ _ Hmono). apply Ht; [done|by left].
    + rewrite Hq'1 in H. apply elem_of_app in H as [H|H].
      * apply (tree_step_mono w0 w w1 _ _ Hmono). apply Ht; [done|]. right.
        rewrite Hq. simpl. by right.
      * eapply rtc_r; [exact Hrc|]. split.
        -- apply Hv1; [done|by left].
        -- by apply Hnews in H as (_ & ? & _).
Qed.

End LayeringStep.

Section LayeringRun.
Context (side : Z).

Lemma NoDup_open_sides w c b1 b2 b3 b4 :
  NoDup (open_side w c b1 Top ++ open_side w c b2 Right ++
         open_side w c b3 Bottom ++ open_side w c b4 Left).
Proof.
  unfold open_side. destruct c as [r k].
  repeat case_match; simpl; repeat (apply NoDup_cons; split);
    try apply NoDup_nil_2; rewrite ?not_elem_of_cons; repeat split;
    try apply not_elem_of_nil; intros [= ]; lia.
Qed.

Lemma unvisited_count_pos w c : grid_ok side w -> in_grid side c ->
  is_visited w c = false -> (visited_count w < length (cells w))%nat.
Proof.
  intros Hg Hc Hv. pose proof (visited_count_le w) as Hle.
  destruct (decide (visited_count w = length (cells w))) as [E|]; [|lia].
  pose proof (grid_side _ _ Hg).
  rewrite (filter_length_all _ _ E c) in Hv; [done|].
  rewrite (grid_cells _ _ Hg). apply elem_of_grid_cells; [lia|done].
Qed.

Lemma written_once_rest l rest : written_once l ->
  written_once (mkLayering rest (depthMap l) (writes l)).
Proof. intros [H1 H2 H3]. by split. Qed.

Lemma Dijkstras_layering_spec w0 : grid_ok side w0 -> acyclic w0 ->
  forall fuel l w, bfs_inv side w0 w l ->
    (length (cells w) <= fuel + visited_count w)%nat ->
    exists l' w', Dijkstras_layering fuel l w = Returns (l', w') /\ written_once l'.
Proof.
  intros Hg0 Hac. induction fuel as [|fuel IH]; intros l w Hb Hfuel.
  - destruct (queue l) as [|[c dq] rest] eqn:Hq.
    + exists l, w. split; [|apply Hb]. unfold Dijkstras_layering. by rewrite Hq.
    + destruct (bfs_queue _ _ _ _ Hb c dq) as (Hc & Hcv & _); [rewrite Hq; left|].
      pose proof (unvisited_count_pos w c (bfs_grid _ _ _ _ Hb) Hc Hcv). lia.
  - destruct (queue l) as [|[c dq] rest] eqn:Hq.
    + exists l, w. split; [|apply Hb]. cbn [Dijkstras_layering]. by rewrite Hq.
    + pose proof (bfs_grid _ _ _ _ Hb) as Hg.
      destruct (bfs_queue _ _ _ _ Hb c dq) as (Hc & Hcv & Hcd); [rewrite Hq; left|].
      cbn [Dijkstras_layering]. rewrite Hq.
      unfold bind at 1. unfold get at 1.
      replace (c.1, c.2) with c by (by destruct c).
      unfold bind at 1. unfold modify at 1. fold (visit c w).
      assert (grid_ok side (visit c w)) as Hg1 by (by apply grid_ok_visit).
      unfold bind at 1. change (cells w) with (cells (visit c w)) at 1.
      rewrite (set_background_grid side) by done.
      set (w2 := paint c _ (visit c w)).
      assert (same_maze side (visit c w) w2) as Hs2 by (by apply same_maze_paint).
      assert (grid_ok side w2) as Hg2 by apply Hs2.
      destruct ((c.1 =? num_rows w - 1) && (c.2 =? num_columns w - 1)).
      * eexists _, _. split; [done|]. apply written_once_rest, Hb.
      * unfold bind at 1. unfold sleep at 1, ret at 1.
        unfold bind at 1. rewrite (ConnectedNeighbors_grid side w2 c) by done.
        set (nbs := _ ++ _).
        assert (forall n, n ∈ nbs <-> passage w0 c n) as Hnbs.
        { intros n. rewrite <- (passage_flag_ext side w0 w2 c n); [| done | done |].
          - unfold passage. rewrite (ConnectedNeighbors_grid side w2 c) by done. fold nbs.
            split; [eauto|]. by intros (l1 & [= <-] & H).
          - intros x d. rewrite (proj2 (proj2 (proj2 Hs2))). apply (bfs_walls _ _ _ _ Hb). }
        assert (forall n, n ∈ nbs -> in_grid side n) as Hnin.
        { intros n Hn. apply Hnbs in Hn. by apply (passage_cells side w0) in Hn as (_ & ? & _). }
        unfold Map_get. rewrite (grid_ok_index side w c) by done. rewrite Hcd. cbn [mjoin option_join].
        destruct (discover_spec side nbs (index_of side c) dq w2
                    (mkLayering rest (depthMap l) (writes l)) w2 (same_maze_refl side w2 Hg2) Hnin)
          as (w3 & Hd & Hs3).
        unfold bind at 1. rewrite Hd.
        apply IH.
        -- apply (bfs_inv_ext side w0 (visit c w)); [by eapply same_maze_trans|].
           rewrite (discovered_ext (visit c w) w2) by done.
           apply (bfs_step side w0 w l c dq rest); try done. apply NoDup_open_sides.
        -- assert (visited_count w3 = S (visited_count w)) as ->.
           { rewrite (visited_count_ext (visit c w) w3).
             - by apply (visited_count_visit side).
             - etrans; [apply Hs3|apply Hs2].
             - intros x. apply (same_maze_visited side). by eapply same_maze_trans. }
           assert (cells w3 = cells w) as -> by (etrans; [apply Hs3|apply Hs2]).
           lia.
Qed.

Lemma is_visited_reset w n c : is_visited (set_visited (Array_fill_false n) w) c = false.
Proof.
  unfold is_visited, Array_fill_false. simpl.
  destruct (list_to_map _ !! _) as [v|] eqn:E; [|done].
  apply elem_of_list_to_map_2, list_elem_of_fmap in E as (i & [= _ ->] & _). done.
Qed.

Lemma bfs_inv_start w0 : grid_ok side w0 ->
  bfs_inv side w0 (set_visited (Array_fill_false (num_cells w0)) w0) layering_start.
Proof.
  intros Hg. pose proof (grid_side _ _ Hg) as Hside.
  assert (in_grid side (0, 0)) as H0 by (split; simpl; lia).
  assert (index_of side (0, 0) = 0) as Hi0 by done.
  split.
  - by apply grid_ok_set_visited.
  - done.
  - intros c d Hc. apply list_elem_of_singleton in Hc as [= -> ->].
    split; [done|]. split; [apply is_visited_reset|]. rewrite Hi0. apply lookup_singleton_eq.
  - apply NoDup_singleton.
  - intros k. simpl. rewrite list_elem_of_singleton. split.
    + intros ->. exists (0, 0). split; [done|]. split; [done|]. right. left.
    + intros (c & Hc & -> & [H|H]).
      * by rewrite is_visited_reset in H.
      * apply list_elem_of_singleton in H as ->. done.
  - intros k v H. simpl in H. apply lookup_singleton_Some in H as [<- _]. simpl. left.
  - split.
    + apply NoDup_singleton.
    + intros e ->%list_elem_of_singleton. simpl. apply lookup_singleton_eq.
    + intros e ->%list_elem_of_singleton. done.
  - intros c Hc [H|H].
    + by rewrite is_visited_reset in H.
    + apply list_elem_of_singleton in H as ->. done.
Qed.

Lemma visited_count_reset w n : visited_count (set_visited (Array_fill_false n) w) = 0%nat.
Proof.
  unfold visited_count. rewrite filter_none; [done|]. intros c _. apply is_visited_reset.
Qed.

Lemma Dijkstras_phase1_spec w0 : grid_ok side w0 -> acyclic w0 ->
  exists l w', Dijkstras_phase1 (Z.to_nat (side * side)) w0 = Returns (l, w') /\ written_once l.
Proof.
  intros Hg Hac. pose proof (grid_side _ _ Hg) as Hside.
  unfold Dijkstras_phase1, bind, modify.
  apply (Dijkstras_layering_spec w0 Hg Hac); [by apply bfs_inv_start|].
  rewrite visited_count_reset. simpl. rewrite (grid_cells _ _ Hg).
  pose proof (length_grid_cells side ltac:(lia)). lia.
Qed.

End LayeringRun.

(** * The states of a run *)

Section Reaches.
Context (side : Z) (random : nat -> Q).
Hypothesis random_unit : unit_interval random.
Hypothesis side_pos : 0 < side.

Lemma pick_start_eq w :
  pick_start random w =
  (let start := (Qfloor (random (random_calls w) * inject_Z (num_rows w)),
                 Qfloor (random (S (random_calls w)) * inject_Z (num_columns w))) in
   Returns (start, visit start (set_random_calls (S (S (random_calls w))) w))).
Proof. done. Qed.

Lemma pick_start_blank w start w' : blank side w ->
  pick_start random w = Returns (start, w') ->
  in_grid side start /\ exists w1, blank side w1 /\ frontier w1 = frontier w /\ w' = visit start w1.
Proof.
  intros Hb. pose proof (blank_grid _ _ Hb) as Hg.
  rewrite pick_start_eq. cbv zeta. rewrite (grid_rows _ _ Hg), (grid_columns _ _ Hg).
  intros [= <- <-]. split; [by apply random_start|].
  eexists. split; [by apply blank_set_random_calls|]. done.
Qed.

Lemma backtrack_reaches_inv path w :
  backtrack_reaches random side path w -> backtrack_inv side w path.
Proof.
  induction 1 as [start w Hstart|path current w path' w' _ IH Hlast Hbody].
  - apply (pick_start_blank (fresh_grid side)) in Hstart as (Hs & w1 & Hb1 & _ & ->);
      [|by apply blank_fresh_grid].
    by apply backtrack_inv_start.
  - destruct (RecursiveBacktrack_body_spec side random random_unit w path current IH Hlast)
      as (p & v & Hbody' & Hinv & _).
    rewrite Hbody in Hbody'. by injection Hbody' as -> ->.
Qed.

Lemma prims_reaches_inv w : prims_reaches random side w -> prim_inv side w.
Proof.
  induction 1 as [start w w' Hstart Hsetup|w w' _ IH Hne Hround].
  - apply (pick_start_blank (fresh_grid side)) in Hstart as (Hs & w1 & Hb1 & Hf1 & ->);
      [|by apply blank_fresh_grid].
    destruct (PrimsAlgorithm_setup_spec side w1 start Hb1 Hf1 Hs) as (w2 & Hset & Hp & _).
    rewrite Hsetup in Hset. by injection Hset as ->.
  - destruct (PrimsAlgorithm_round_spec side random random_unit w IH Hne) as (v & Hr & Hp & _).
    rewrite Hround in Hr. by injection Hr as ->.
Qed.

Lemma prim_inv_visited_neighbor w c : prim_inv side w -> c ∈ frontier w ->
  List.filter (fun neighbor => is_visited w neighbor) (Neighbors w c.1 c.2) <> [].
Proof.
  intros Hp Hc E. destruct (prim_frontier _ _ Hp c Hc) as (Hin & _ & d & Hd & Hv).
  assert (step_to c d ∈ List.filter (fun n => is_visited w n) (Neighbors w c.1 c.2)) as H.
  { apply list_elem_of_In, List.filter_In. split; [|done]. apply list_elem_of_In.
    apply (Neighbors_spec side); [apply Hp|done|eauto]. }
  rewrite E in H. by apply elem_of_nil in H.
Qed.

Lemma unvisited_count_step w w' : cells w' = cells w ->
  visited_count w' = S (visited_count w) -> (unvisited_count w' < unvisited_count w)%nat.
Proof.
  intros Hc Hv. unfold unvisited_count. rewrite Hc, Hv.
  pose proof (visited_count_le w'). rewrite Hc, Hv in H. lia.
Qed.

End Reaches.

(** * Symmetry of the borders *)

Section Symmetry.
Context (side : Z).

Lemma blank_build_grid w0 : 0 < side -> blank side (build_grid (side * side) w0).
Proof.
  intros H. split; [split|..]; try done.
  - unfold build_grid. simpl. apply Z.sqrt_square. lia.
  - unfold build_grid. simpl. apply Z.sqrt_square. lia.
  - intros i. unfold build_grid. simpl.
    rewrite <- elem_of_dom, dom_list_to_map_L, elem_of_list_to_set.
    rewrite <- list_fmap_compose, list_elem_of_fmap. simpl.
    setoid_rewrite elem_of_seqZ. split; [intros (j & -> & Hj); lia | intros Hi; exists i; lia].
  - intros c d. unfold flag, build_grid. simpl.
    destruct (list_to_map _ !! _) as [s|] eqn:E; [|done].
    apply elem_of_list_to_map_2, list_elem_of_fmap in E as (i & [= _ ->] & _). by destruct d.
  - intros c. unfold is_visited, build_grid, Array_fill_false. simpl.
    destruct (list_to_map _ !! _) as [v|] eqn:E; [|done].
    apply elem_of_list_to_map_2, list_elem_of_fmap in E as (i & [= _ ->] & _). done.
Qed.

Lemma opposite_inj d d' : opposite d = opposite d' -> d = d'.
Proof. by destruct d, d'. Qed.

Lemma opposite_opposite d : opposite (opposite d) = d.
Proof. by destruct d. Qed.

Lemma flag_cut w a d c e : grid_ok side w ->
  in_grid side a -> in_grid side (step_to a d) -> in_grid side c ->
  flag (cut a d w) c e = true <->
  flag w c e = true \/ (c = a /\ e = d) \/ (c = step_to a d /\ e = opposite d).
Proof.
  intros Hg Ha Hb Hc. unfold cut.
  rewrite (flag_open_border side) by (done || by apply grid_ok_open_border).
  rewrite (flag_open_border side) by done. tauto.
Qed.

Lemma symmetric_borders_cut w a d : grid_ok side w ->
  in_grid side a -> in_grid side (step_to a d) ->
  symmetric_borders side w -> symmetric_borders side (cut a d w).
Proof.
  intros Hg Ha Hb Hsym c e Hc He. apply eq_true_iff_eq.
  rewrite !(flag_cut w a d) by done. rewrite (Hsym c e Hc He).
  split; (intros [H|[[E1 E2]|[E1 E2]]]; [by left|..]).
  - right; right. by subst.
  - right; left. subst. by rewrite step_to_opposite, opposite_opposite.
  - right; right. subst. by rewrite step_to_opposite, opposite_opposite.
  - right; left. apply opposite_inj in E2. subst e. split; [|done].
    rewrite <- (step_to_opposite c d), <- (step_to_opposite a d). by rewrite E1.
Qed.

End Symmetry.

Section Carved.
Context (side : Z).

Lemma CreateEntranceAndExit_grid w : grid_ok side w ->
  CreateEntranceAndExit w =
  Returns (tt, open_border (0, 0) Top (open_border (side - 1, side - 1) Bottom w)).
Proof.
  intros Hg. pose proof (grid_side _ _ Hg) as Hside.
  unfold CreateEntranceAndExit, bind, get.
  rewrite (grid_rows _ _ Hg), (grid_columns _ _ Hg).
  rewrite (set_border_grid side) by (done || split; simpl; lia).
  change (cells w) with (cells (open_border (side - 1, side - 1) Bottom w)).
  rewrite (set_border_grid side); [done|by apply grid_ok_open_border|split; simpl; lia].
Qed.

Lemma symmetric_borders_entrance w : grid_ok side w -> symmetric_borders side w ->
  symmetric_borders side (open_border (0, 0) Top (open_border (side - 1, side - 1) Bottom w)).
Proof.
  intros Hg Hsym c e Hc He. pose proof (grid_side _ _ Hg) as Hside.
  assert (in_grid side (0, 0)) as H0 by (split; simpl; lia).
  assert (in_grid side (side - 1, side - 1)) as H1 by (split; simpl; lia).
  apply eq_true_iff_eq.
  rewrite !(flag_open_border side) by (done || by apply grid_ok_open_border).
  rewrite (Hsym c e Hc He).
  destruct Hc as [Hc1 Hc2], He as [He1 He2].
  split; (intros [[H|[E1 E2]]|[E1 E2]]; [by left; left|exfalso..]);
    destruct c as [r k], e; simpl in *; simplify_eq; lia.
Qed.

Lemma carved_borders w : 0 < side -> carved side w ->
  grid_ok side w /\ symmetric_borders side w.
Proof.
  intros Hside. induction 1 as [w0|w a b w' _ [Hg Hsym] Ha Hb Hadj Hcut|w w' _ [Hg Hsym] Hee].
  - destruct (blank_build_grid side w0 Hside) as [Hg Hf _]. split; [done|].
    intros c d _ _. by rewrite !Hf.
  - apply step_to_adjacent in Hadj as [d ->].
    rewrite (CutEdge_cut side) in Hcut by done. injection Hcut as <-.
    split; [by repeat apply grid_ok_open_border|by apply symmetric_borders_cut].
  - rewrite CreateEntranceAndExit_grid in Hee by done. injection Hee as <-.
    split; [by repeat apply grid_ok_open_border|by apply symmetric_borders_entrance].
Qed.

Lemma symmetric_passage w a b : grid_ok side w -> symmetric_borders side w ->
  passage w a b -> passage w b a.
Proof.
  intros Hg Hsym H. apply (passage_full side) in H as (Ha & d & -> & Hb & Hf); [|done].
  apply (passage_full side); [done|]. split; [done|].
  exists (opposite d). rewrite step_to_opposite. split; [done|]. split; [done|].
  by rewrite <- Hsym.
Qed.

(** * [CutEdge] on arbitrary cells of the grid *)

Lemma CutEdge_returns w a b : grid_ok side w -> in_grid side a -> in_grid side b ->
  exists w', CutEdge a b w = Returns (tt, w') /\ grid_ok side w' /\
    (b.2 <> a.2 - 1 -> b.2 <> a.2 + 1 -> b.1 <> a.1 - 1 -> b.1 <> a.1 + 1 -> w' = w).
Proof.
  intros Hg Ha Hb. unfold CutEdge. unfold bind at 1. unfold get at 1.
  assert (forall d e, bind (set_border (FindCellIndex a (cells w)) d transparent)
                        (fun _ => set_border (FindCellIndex b (cells w)) e transparent) w
                      = Returns (tt, open_border b e (open_border a d w))) as Hboth.
  { intros d e. unfold bind. rewrite (set_border_grid side) by done.
    change (cells w) with (cells (open_border a d w)).
    by rewrite (set_border_grid side) by (done || by apply grid_ok_open_border). }
  destruct (Z.eqb_spec (a.2 - 1) b.2); [|destruct (Z.eqb_spec (a.2 + 1) b.2);
    [|destruct (Z.eqb_spec (a.1 - 1) b.1); [|destruct (Z.eqb_spec (a.1 + 1) b.1)]]].
  - rewrite Hboth. eexists. split; [done|]. split; [by repeat apply grid_ok_open_border|]. lia.
  - rewrite Hboth. eexists. split; [done|]. split; [by repeat apply grid_ok_open_border|]. lia.
  - rewrite Hboth. eexists. split; [done|]. split; [by repeat apply grid_ok_open_border|]. lia.
  - rewrite Hboth. eexists. split; [done|]. split; [by repeat apply grid_ok_open_border|]. lia.
  - exists w. done.
Qed.

End Carved.

(** * Determinism *)

Section Determinism.
Context (random1 random2 : nat -> Q).
Hypothesis same_draws : forall k, (random1 k == random2 k)%Q.

Lemma agree_refl {A} (m : M A) : agree m m.
Proof. done. Qed.

Lemma agree_bind {A B} (m1 m2 : M A) (k1 k2 : A -> M B) :
  agree m1 m2 -> (forall a, agree (k1 a) (k2 a)) -> agree (bind m1 k1) (bind m2 k2).
Proof.
  intros Hm Hk w. unfold bind. rewrite Hm. destruct (m2 w) as [[a w']| |]; [apply Hk|done..].
Qed.

Lemma agree_random_below n : agree (random_below random1 n) (random_below random2 n).
Proof.
  intros w. rewrite !random_below_eq. do 2 f_equal.
  apply Qfloor_comp. by rewrite same_draws.
Qed.

Lemma agree_random_element {A} (l : list A) :
  agree (random_element random1 l) (random_element random2 l).
Proof. apply agree_bind; [apply agree_random_below|done]. Qed.

Ltac agree :=
  repeat match goal with
  | |- agree (random_element _ _) _ => apply agree_random_element
  | |- agree (random_below _ _) _ => apply agree_random_below
  | |- agree (bind _ _) _ => apply agree_bind
  | |- agree (match ?x with _ => _ end) _ => destruct x
  | |- agree (if ?x then _ else _) _ => destruct x
  | |- agree ?m ?m => apply agree_refl
  | |- forall _, agree _ _ => intro
  end.

Lemma agree_PrimsAlgorithm_round :
  agree (PrimsAlgorithm_round random1) (PrimsAlgorithm_round random2).
Proof. unfold PrimsAlgorithm_round. agree. Qed.

Lemma agree_while fuel cond (b1 b2 : M unit) :
  agree b1 b2 -> agree (while fuel cond b1) (while fuel cond b2).
Proof.
  intros Hb. induction fuel as [|fuel IH]; simpl; agree; done.
Qed.

Lemma agree_PrimsAlgorithm fuel r c :
  agree (PrimsAlgorithm random1 fuel r c) (PrimsAlgorithm random2 fuel r c).
Proof.
  unfold PrimsAlgorithm. apply agree_bind; [done|]. intros _.
  apply agree_while, agree_PrimsAlgorithm_round.
Qed.

Lemma agree_RecursiveBacktrack_body path current :
  agree (RecursiveBacktrack_body random1 path current)
        (RecursiveBacktrack_body random2 path current).
Proof. unfold RecursiveBacktrack_body. agree. Qed.

Lemma agree_RecursiveBacktrack fuel : forall path,
  agree (RecursiveBacktrack random1 fuel path) (RecursiveBacktrack random2 fuel path).
Proof.
  induction fuel as [|fuel IH]; intros path; simpl; [done|].
  destruct (last path); [|done].
  apply agree_bind; [apply agree_RecursiveBacktrack_body|]. intros path'. apply IH.
Qed.

Lemma agree_Kruskals_round edges cellMap :
  agree (Kruskals_round random1 edges cellMap) (Kruskals_round random2 edges cellMap).
Proof. unfold Kruskals_round. agree. Qed.

Lemma agree_Kruskals_loop fuel : forall edges cellMap,
  agree (Kruskals_loop random1 fuel edges cellMap) (Kruskals_loop random2 fuel edges cellMap).
Proof.
  induction fuel as [|fuel IH]; intros edges cellMap; simpl; [done|].
  apply agree_bind; [apply agree_Kruskals_round|]. intros next.
  destruct (0 <? _); [apply IH|done].
Qed.

Lemma agree_run_generator fuel alg :
  agree (run_generator random1 fuel alg) (run_generator random2 fuel alg).
Proof.
  unfold run_generator. apply agree_bind.
  - unfold pick_start. agree.
  - intros start. repeat case_match; try done.
    + apply agree_PrimsAlgorithm.
    + apply agree_RecursiveBacktrack.
    + unfold Kruskals. apply agree_bind; [done|]. intros w. apply agree_Kruskals_loop.
Qed.

End Determinism.

(** * Facts about the two concrete mazes *)

Lemma always_first_unit : unit_interval always_first.
Proof. intros k. split; [apply Qle_refl|reflexivity]. Qed.

Lemma serpentine_run :
  run_generator always_first 18 "1" (fresh_grid 3) = Returns (tt, serpentine).
Proof. vm_compute. reflexivity. Qed.

Lemma Returns_world {A} (a b : A) (w w' : world) :
  Returns (a, w) = Returns (b, w') -> w = w'.
Proof. by intros [= _ ->]. Qed.

Lemma serpentine_tree : tree_inv 3 serpentine.
Proof.
  destruct (backtracker_run 3 always_first always_first_unit (fresh_grid 3))
    as (w & Hrun & Hinv); [by apply blank_fresh_grid|].
  change (Z.to_nat (2 * 3 * 3)) with 18%nat in Hrun.
  rewrite serpentine_run in Hrun. apply Returns_world in Hrun.
  rewrite Hrun. apply Hinv.
Qed.

Lemma small_maze_carved : carved 3 small_maze.
Proof.
  assert (grid_ok 3 (fresh_grid 3)) as Hg by (by apply grid_ok_fresh_grid).
  assert (in_grid 3 (0, 0)) as H0 by (split; simpl; lia).
  assert (in_grid 3 (0, 1)) as H1 by (split; simpl; lia).
  eapply carved_entrance.
  - eapply (carved_CutEdge 3 (fresh_grid 3) (0, 0) (0, 1)); [apply carved_grid|done|done|done|].
    by apply (CutEdge_cut 3 (fresh_grid 3) (0, 0) Right).
  - apply (CreateEntranceAndExit_grid 3). by repeat apply grid_ok_open_border.
Qed.

(** * The layering loop, one round at a time *)

Lemma found_ext w w' nbs :
  cells w' = cells w -> visited w' = visited w -> found w' nbs = found w nbs.
Proof. intros Hc Hv. unfold found, is_visited. by rewrite Hc, Hv. Qed.

Lemma Dijkstras_layering_round side fuel l w c d rest :
  grid_ok side w -> in_grid side c -> queue l = (c, d) :: rest ->
  let depth := Map_get (depthMap l) (index_of side c) in
  let w' := paint c "#5941f6" (visit c w) in
  let l0 := mkLayering rest (depthMap l) (writes l) in
  exists nbs w'',
    (forall n, n ∈ nbs <-> passage w c n) /\
    let l' := discovered w' (index_of side c) depth l0 nbs in
    queue l' = rest ++ ((fun n => (n, add1 depth)) <$> found (visit c w) nbs) /\
    Dijkstras_layering (S fuel) l w =
      if bool_decide (c = (side - 1, side - 1)) then Returns (l0, w')
      else Dijkstras_layering fuel l' w''.
Proof.
  intros Hg Hc Hq depth w' l0.
  assert (grid_ok side (visit c w)) as Hg1 by (by apply grid_ok_visit).
  assert (same_maze side (visit c w) w') as Hs2 by (by apply same_maze_paint).
  assert (grid_ok side w') as Hg2 by apply Hs2.
  assert (
    Dijkstras_layering (S fuel) l w =
    if (c.1 =? side - 1) && (c.2 =? side - 1) then Returns (l0, w')
    else (let* neighbors := ConnectedNeighbors c.1 c.2 in
          let* l1 := discover neighbors (FindCellIndex c (cells w))
                       (Map_get (depthMap l) (FindCellIndex c (cells w))) l0 in
          Dijkstras_layering fuel l1) w') as Hunfold.
  { cbn [Dijkstras_layering]. rewrite Hq.
    unfold bind at 1. unfold get at 1.
    replace (c.1, c.2) with c by (by destruct c).
    unfold bind at 1. unfold modify at 1. fold (visit c w).
    unfold bind at 1. change (cells w) with (cells (visit c w)) at 1.
    rewrite (set_background_grid side) by done. fold w'.
    rewrite (grid_rows _ _ Hg), (grid_columns _ _ Hg).
    destruct ((c.1 =? side - 1) && (c.2 =? side - 1)); [done|].
    unfold bind at 1. unfold sleep at 1, ret at 1. done. }
  pose proof (ConnectedNeighbors_grid side w' c Hg2 Hc) as Hcn.
  set (nbs := _ ++ _) in Hcn.
  assert (forall n, n ∈ nbs <-> passage w c n) as Hnbs.
  { intros n. rewrite <- (passage_flag_ext side w w' c n); [|done|done|apply Hs2].
    unfold passage. rewrite Hcn. split; [eauto|]. by intros (l1 & [= <-] & H). }
  assert (forall n, n ∈ nbs -> in_grid side n) as Hnin.
  { intros n Hn. apply Hnbs in Hn. by apply (passage_cells side w) in Hn as (_ & ? & _). }
  destruct (discover_spec side nbs (index_of side c) depth
              w' l0 w' (same_maze_refl side w' Hg2) Hnin) as (w3 & Hd & Hs3).
  exists nbs, w3. split; [done|]. split.
  - rewrite discovered_queue. by rewrite (found_ext (visit c w) w').
  - rewrite Hunfold. case_bool_decide as Hcorner.
    + subst c. cbn [fst snd]. by rewrite !Z.eqb_refl.
    + assert ((c.1 =? side - 1) && (c.2 =? side - 1) = false) as ->.
      { apply not_true_is_false. rewrite andb_true_iff, !Z.eqb_eq. intros [E1 E2].
        apply Hcorner. destruct c. simpl in *. by subst. }
      unfold bind at 1. rewrite Hcn.
      rewrite (grid_ok_index side w c) by done.
      unfold bind. fold depth. by rewrite Hd.
Qed.

(** * The generators *)

Lemma grid_ok_length side w : grid_ok side w ->
  Z.of_nat (length (cells w)) = side * side.
Proof.
  intros Hg. rewrite (grid_cells _ _ Hg). apply length_grid_cells.
  pose proof (grid_side _ _ Hg). lia.
Qed.

(** C2 (as amended): on a 3 by 3 grid, with draws that always select
    the first candidate, the backtracker returns after 18 calls with
    exactly the passages (0,0)-(0,1), (0,1)-(0,2), (0,2)-(1,2),
    (1,2)-(2,2), (2,2)-(2,1), (2,1)-(1,1), (1,1)-(1,0), (1,0)-(2,0) open:
    it goes East first, since [Neighbors] lists North, East, South,
    West. *)
Theorem backtracker_first_choice_maze :
  run_generator always_first 18 "1" (fresh_grid 3) = Returns (tt, serpentine) /\
  open_passages serpentine =
    [((0, 0), (0, 1)); ((0, 1), (0, 2)); ((0, 2), (1, 2)); ((1, 0), (2, 0));
     ((1, 0), (1, 1)); ((1, 1), (2, 1)); ((1, 2), (2, 2)); ((2, 1), (2, 2))].
Proof. split; vm_compute; reflexivity. Qed.

(** C2 as stated fails: the passage (0,0)-(1,0) of the claimed set is
    closed in the maze the backtracker carves. *)
Lemma backtracker_first_choice_goes_east :
  exists w, run_generator always_first 18 "1" (fresh_grid 3) = Returns (tt, w) /\
            IsOpen w (0, 0) (1, 0) = false /\ IsOpen w (0, 0) (0, 1) = true.
Proof. exists serpentine. split; [|split]; vm_compute; reflexivity. Qed.

(** * The solver *)

(** C3 (as amended): the layering loop starts from the cell (0,0), the
    exit, with depth 0; a round takes the first cell of the queue, and
    appends the unvisited cells its passages lead to, with its depth plus
    1, behind the rest of the queue; the loop ends early exactly when the
    cell taken off the queue is the bottom-right corner
    [(side - 1, side - 1)], the entrance, and otherwise goes on with the
    new queue, whatever was found. *)
Theorem layering_starts_at_exit_stops_at_entrance side fuel l w c d rest :
  grid_ok side w -> in_grid side c -> queue l = (c, d) :: rest ->
  Dijkstras_phase1 (S fuel) w =
    Dijkstras_layering (S fuel) layering_start
      (set_visited (Array_fill_false (num_cells w)) w) /\
  queue layering_start = [((0, 0), Some 0)] /\
  Map_get (depthMap layering_start) (index_of side (0, 0)) = Some 0 /\
  let depth := Map_get (depthMap l) (index_of side c) in
  let w' := paint c "#5941f6" (visit c w) in
  let l0 := mkLayering rest (depthMap l) (writes l) in
  exists nbs w'',
    (forall n, n ∈ nbs <-> passage w c n) /\
    let l' := discovered w' (index_of side c) depth l0 nbs in
    queue l' = rest ++ ((fun n => (n, add1 depth)) <$> found (visit c w) nbs) /\
    Dijkstras_layering (S fuel) l w =
      if bool_decide (c = (side - 1, side - 1)) then Returns (l0, w')
      else Dijkstras_layering fuel l' w''.
Proof.
  intros Hg Hc Hq. split; [done|]. split; [done|]. split; [done|].
  by apply (Dijkstras_layering_round side fuel l w c d rest).
Qed.

Lemma layering_starts_at_exit_stops_at_entrance_witness :
  grid_ok 3 (fresh_grid 3) /\ in_grid 3 (0, 0) /\
  queue layering_start = ((0, 0), Some 0) :: [] /\
  exists nbs w'',
    (forall n, n ∈ nbs <-> passage (fresh_grid 3) (0, 0) n) /\
    Dijkstras_layering 1 layering_start (fresh_grid 3) =
      if bool_decide ((0, 0) = (3 - 1, 3 - 1) :> cell)
      then Returns (mkLayering [] (depthMap layering_start) (writes layering_start),
                    paint (0, 0) "#5941f6" (visit (0, 0) (fresh_grid 3)))
      else Dijkstras_layering 0
             (discovered (paint (0, 0) "#5941f6" (visit (0, 0) (fresh_grid 3)))
                (index_of 3 (0, 0)) (Map_get (depthMap layering_start) (index_of 3 (0, 0)))
                (mkLayering [] (depthMap layering_start) (writes layering_start)) nbs) w''.
Proof.
  assert (grid_ok 3 (fresh_grid 3)) as Hg by (apply grid_ok_fresh_grid; lia).
  assert (in_grid 3 (0, 0)) as Hc by (split; simpl; lia).
  split; [exact Hg|]. split; [exact Hc|]. split; [reflexivity|].
  destruct (layering_starts_at_exit_stops_at_entrance 3 0 layering_start (fresh_grid 3)
              (0, 0) (Some 0) [] Hg Hc eq_refl) as (_ & _ & _ & nbs & w'' & Hn & _ & Hrun).
  exists nbs, w''. split; [exact Hn|exact Hrun].
Defined.

(** C3 as stated fails: in the 3 by 3 maze [serpentine] the layering
    gives depth 0 to the cell (0,0), of index 0, and depth 4 to the
    bottom-right corner (2,2), of index 8, where it stops. *)
Lemma layering_depth_of_corners :
  exists l w, Dijkstras_phase1 9 serpentine = Returns (l, w) /\
              depthMap l !! 0 = Some (Some 0) /\ depthMap l !! 8 = Some (Some 4) /\
              queue l = [].
Proof.
  destruct (Dijkstras_phase1 9 serpentine) as [[l w]| |] eqn:E;
    [|vm_compute in E; discriminate E..].
  exists l, w. split; [reflexivity|].
  assert (match Dijkstras_phase1 9 serpentine with
          | Returns (l, _) => (depthMap l !! 0, depthMap l !! 8, queue l)
          | _ => (None, None, [])
          end = (Some (Some 0), Some (Some 4), [])) as H by (vm_compute; reflexivity).
  rewrite E in H. injection H as H0 H8 Hq.
  split; [exact H0|]. split; [exact H8|exact Hq].
Qed.

(** C6: on a maze whose passages have no cycle, the layering loop
    returns, and in the history of [depthMap.set] no key is written twice,
    the map still holds every value that was written, and a cell found
    from the cell of index [p] was given the depth of [p] plus 1. *)
Theorem layering_writes_depth_once side w :
  grid_ok side w -> acyclic w ->
  exists l w', Dijkstras_phase1 (Z.to_nat (side * side)) w = Returns (l, w') /\
               written_once l.
Proof. intros Hg Ha. by apply Dijkstras_phase1_spec. Qed.

Lemma layering_writes_depth_once_witness :
  grid_ok 3 serpentine /\ acyclic serpentine /\
  exists l w', Dijkstras_phase1 (Z.to_nat (3 * 3)) serpentine = Returns (l, w') /\
               written_once l.
Proof.
  pose proof serpentine_tree as Ht.
  split; [apply Ht|]. split; [apply Ht|].
  apply (layering_writes_depth_once 3 serpentine); apply Ht.
Defined.

(** * Opening passages *)

(** C4 (as amended): [CutEdge] has no error for cells that are not
    adjacent.  For any two cells of the grid it returns; when no
    coordinate of the second cell is one off the same coordinate of the
    first, it leaves the state as it is. *)
Theorem CutEdge_never_throws side w a b :
  grid_ok side w -> in_grid side a -> in_grid side b ->
  exists w', CutEdge a b w = Returns (tt, w') /\ grid_ok side w' /\
    (b.2 <> a.2 - 1 -> b.2 <> a.2 + 1 -> b.1 <> a.1 - 1 -> b.1 <> a.1 + 1 -> w' = w).
Proof. intros Hg Ha Hb. by apply CutEdge_returns. Qed.

Lemma CutEdge_never_throws_witness :
  grid_ok 3 (fresh_grid 3) /\ in_grid 3 (0, 0) /\ in_grid 3 (2, 2) /\
  exists w', CutEdge (0, 0) (2, 2) (fresh_grid 3) = Returns (tt, w') /\ w' = fresh_grid 3.
Proof.
  assert (grid_ok 3 (fresh_grid 3)) as Hg by (apply grid_ok_fresh_grid; lia).
  assert (in_grid 3 (0, 0)) as Ha by (split; simpl; lia).
  assert (in_grid 3 (2, 2)) as Hb by (split; simpl; lia).
  split; [exact Hg|]. split; [exact Ha|]. split; [exact Hb|].
  destruct (CutEdge_never_throws 3 (fresh_grid 3) (0, 0) (2, 2) Hg Ha Hb)
    as (w' & Hrun & _ & Hsame).
  exists w'. split; [exact Hrun|]. apply Hsame; simpl; lia.
Defined.

(** C4 as stated fails: for the cells (0,0) and (2,2), which are not
    adjacent, [CutEdge] returns and changes nothing; for (0,0) and (2,1),
    which are not adjacent either, it returns and opens the right border
    of (0,0). *)
Lemma CutEdge_not_adjacent :
  CutEdge (0, 0) (2, 2) (fresh_grid 3) = Returns (tt, fresh_grid 3) /\
  exists w, CutEdge (0, 0) (2, 1) (fresh_grid 3) = Returns (tt, w) /\
            flag (fresh_grid 3) (0, 0) Right = false /\ flag w (0, 0) Right = true.
Proof.
  split; [vm_compute; reflexivity|].
  destruct (CutEdge (0, 0) (2, 1) (fresh_grid 3)) as [[[] w]| |] eqn:E;
    [|vm_compute in E; discriminate E..].
  exists w. split; [reflexivity|]. split; [vm_compute; reflexivity|].
  assert (match CutEdge (0, 0) (2, 1) (fresh_grid 3) with
          | Returns (_, w) => flag w (0, 0) Right
          | _ => false
          end = true) as H by (vm_compute; reflexivity).
  rewrite E in H. exact H.
Qed.

(** C7: after any sequence of passage openings between adjacent cells
    of the grid, entrance and exit included, [ConnectedNeighbors] lists
    [b] for [a] exactly when it lists [a] for [b]. *)
Theorem passages_symmetric side w a b :
  0 < side -> carved side w -> in_grid side a -> in_grid side b -> adjacent a b ->
  (passage w a b <-> passage w b a).
Proof.
  intros Hs Hw _ _ _. destruct (carved_borders side w Hs Hw) as [Hg Hsym].
  split; by apply (symmetric_passage side).
Qed.

Lemma passages_symmetric_witness :
  0 < 3 /\ carved 3 small_maze /\ in_grid 3 (0, 0) /\ in_grid 3 (0, 1) /\
  adjacent (0, 0) (0, 1) /\
  (passage small_maze (0, 0) (0, 1) <-> passage small_maze (0, 1) (0, 0)).
Proof.
  assert (in_grid 3 (0, 0)) as Ha by (split; simpl; lia).
  assert (in_grid 3 (0, 1)) as Hb by (split; simpl; lia).
  assert (adjacent (0, 0) (0, 1)) as Hab by reflexivity.
  split; [lia|]. split; [exact small_maze_carved|].
  split; [exact Ha|]. split; [exact Hb|]. split; [exact Hab|].
  apply (passages_symmetric 3 small_maze (0, 0) (0, 1));
    [lia|exact small_maze_carved|exact Ha|exact Hb|exact Hab].
Defined.

(** C9: on the cell list that [GenerateGrid] builds for [side * side]
    cells, [FindCellIndex] returns [row * side + column] for every cell
    [(row, column)] of the grid. *)
Theorem FindCellIndex_row_major side row column w0 :
  0 <= row < side -> 0 <= column < side ->
  FindCellIndex (row, column) (cells (build_grid (side * side) w0)) = row * side + column.
Proof.
  intros Hr Hc. change (cells (build_grid (side * side) w0)) with (cells (fresh_grid side)).
  by rewrite (FindCellIndex_grid_cells side (row, column)).
Qed.

Lemma FindCellIndex_row_major_witness :
  0 <= 1 < 3 /\ 0 <= 2 < 3 /\
  FindCellIndex (1, 2) (cells (build_grid (3 * 3) page_load)) = 1 * 3 + 2.
Proof.
  split; [lia|]. split; [lia|].
  apply (FindCellIndex_row_major 3 1 2 page_load); lia.
Defined.

(** * Runs of the generators *)

(** C5: in every state that a run of Prim's algorithm on a fresh grid
    reaches at the test of its [while] loop, every cell of the frontier
    has a visited neighbour, so the list the round draws the visited
    neighbour from is not empty, and the round returns without an
    error. *)
Theorem prims_frontier_cell_has_visited_neighbor random side w c :
  0 < side -> unit_interval random -> prims_reaches random side w -> c ∈ frontier w ->
  (exists n, n ∈ List.filter (fun neighbor => is_visited w neighbor) (Neighbors w c.1 c.2)) /\
  exists w', PrimsAlgorithm_round random w = Returns (tt, w').
Proof.
  intros Hs Hr Hw Hc.
  pose proof (prims_reaches_inv side random Hr Hs w Hw) as Hinv. split.
  - pose proof (prim_inv_visited_neighbor side w c Hinv Hc) as Hne.
    destruct (List.filter _ _) as [|n rest]; [done|]. exists n. left.
  - destruct (PrimsAlgorithm_round_spec side random Hr w Hinv) as (w' & Hrun & _).
    + intros E. rewrite E in Hc. by apply elem_of_nil in Hc.
    + by exists w'.
Qed.

Lemma prims_frontier_cell_has_visited_neighbor_witness :
  0 < 3 /\ unit_interval always_first /\ prims_reaches always_first 3 prims_started /\
  (0, 1) ∈ frontier prims_started /\
  (exists n, n ∈ List.filter (fun neighbor => is_visited prims_started neighbor)
                             (Neighbors prims_started 0 1)) /\
  exists w', PrimsAlgorithm_round always_first prims_started = Returns (tt, w').
Proof.
  assert (prims_reaches always_first 3 prims_started) as Hp.
  { destruct (pick_start always_first (fresh_grid 3)) as [[start w]| |] eqn:E;
      [|vm_compute in E; discriminate E..].
    apply (prims_first always_first 3 start w); [exact E|].
    unfold prims_started, bind. rewrite E.
    assert (start = (0, 0)) as ->.
    { assert (match pick_start always_first (fresh_grid 3) with
              | Returns (s, _) => s | _ => (1, 1) end = (0, 0)) as H by (vm_compute; reflexivity).
      rewrite E in H. exact H. }
    destruct (PrimsAlgorithm_setup (0, 0).1 (0, 0).2 w) as [[[] w']| |] eqn:E';
      [reflexivity| |].
    - assert (match (let* s := pick_start always_first in PrimsAlgorithm_setup 0 0)
                      (fresh_grid 3) with Throws _ => false | _ => true end = true) as H
        by (vm_compute; reflexivity).
      unfold bind in H. rewrite E in H. cbn [fst snd] in E'. rewrite E' in H. discriminate H.
    - assert (match (let* s := pick_start always_first in PrimsAlgorithm_setup 0 0)
                      (fresh_grid 3) with OutOfFuel => false | _ => true end = true) as H
        by (vm_compute; reflexivity).
      unfold bind in H. rewrite E in H. cbn [fst snd] in E'. rewrite E' in H. discriminate H. }
  assert ((0, 1) ∈ frontier prims_started) as Hc.
  { assert (frontier prims_started = [(0, 1); (1, 0)]) as -> by (vm_compute; reflexivity).
    left. }
  split; [lia|]. split; [exact always_first_unit|]. split; [exact Hp|]. split; [exact Hc|].
  apply (prims_frontier_cell_has_visited_neighbor always_first 3 prims_started (0, 1));
    [lia|exact always_first_unit|exact Hp|exact Hc].
Defined.

(** C10: the backtracker terminates.  In every state a run on a fresh
    grid reaches, a call with a non-empty stack returns and either marks
    one more cell visited and pushes it, or pops the stack, so the pair
    (number of unvisited cells, length of the stack) decreases
    lexicographically; and [2 * side * side] calls are enough for the run
    to return. *)
Theorem RecursiveBacktrack_measure_decreases random side path w current :
  0 < side -> unit_interval random ->
  backtrack_reaches random side path w -> last path = Some current ->
  (exists path' w',
     RecursiveBacktrack_body random path current w = Returns (path', w') /\
     ((unvisited_count w' < unvisited_count w)%nat \/
      (unvisited_count w' = unvisited_count w /\ (length path' < length path)%nat))) /\
  exists w_end,
    run_generator random (Z.to_nat (2 * side * side)) "1" (fresh_grid side)
      = Returns (tt, w_end).
Proof.
  intros Hs Hr Hw Hl. split.
  - pose proof (backtrack_reaches_inv side random Hr Hs path w Hw) as Hinv.
    destruct (RecursiveBacktrack_body_spec side random Hr w path current Hinv Hl)
      as (path' & w' & Hrun & Hinv' & Hstep).
    exists path', w'. split; [done|].
    assert (cells w' = cells w) as Hcells.
    { rewrite (grid_cells side w'), (grid_cells side w); [done|apply Hinv|apply Hinv']. }
    destruct Hstep as [[Hv Hp]|[Hv Hp]].
    + left. by apply unvisited_count_step.
    + right. unfold unvisited_count. rewrite Hcells, Hv. lia.
  - destruct (backtracker_run side random Hr (fresh_grid side)) as (w' & Hrun & _).
    + by apply blank_fresh_grid.
    + by exists w'.
Qed.

Lemma RecursiveBacktrack_measure_decreases_witness :
  0 < 3 /\ unit_interval always_first /\
  backtrack_reaches always_first 3 [(0, 0)] (visit (0, 0) (set_random_calls 2 (fresh_grid 3))) /\
  last [(0, 0)] = Some (0, 0) /\
  (exists path' w',
     RecursiveBacktrack_body always_first [(0, 0)] (0, 0)
       (visit (0, 0) (set_random_calls 2 (fresh_grid 3))) = Returns (path', w') /\
     ((unvisited_count w' < unvisited_count (visit (0, 0)%Z (set_random_calls 2 (fresh_grid 3%Z))))%nat \/
      (unvisited_count w' = unvisited_count (visit (0, 0)%Z (set_random_calls 2 (fresh_grid 3%Z))) /\
       (length path' < length [((0, 0)%Z : cell)])%nat))) /\
  exists w_end,
    run_generator always_first (Z.to_nat (2 * 3 * 3)) "1" (fresh_grid 3) = Returns (tt, w_end).
Proof.
  assert (backtrack_reaches always_first 3 [(0, 0)]
            (visit (0, 0) (set_random_calls 2 (fresh_grid 3)))) as Hp.
  { apply backtrack_first. vm_compute. reflexivity. }
  split; [lia|]. split; [exact always_first_unit|]. split; [exact Hp|]. split; [reflexivity|].
  apply (RecursiveBacktrack_measure_decreases always_first 3 [(0, 0)] _ (0, 0));
    [lia|exact always_first_unit|exact Hp|reflexivity].
Defined.

(** * Further properties of the helper functions *)

Lemma FindCellIndex_from_first (l : list cell) : forall k c,
  ((c ∉ l) /\ FindCellIndex_from k c l = -1) \/
  (exists i : nat, FindCellIndex_from k c l = k + Z.of_nat i /\ l !! i = Some c /\
                   forall j : nat, (j < i)%nat -> l !! j <> Some c).
Proof.
  induction l as [|x l IH]; intros k c.
  - left. split; [apply not_elem_of_nil|done].
  - cbn [FindCellIndex_from]. destruct (ArraysEqual x c) eqn:E.
    + apply ArraysEqual_true in E as ->. right. exists 0%nat.
      split; [lia|]. split; [done|]. intros j Hj. lia.
    + apply ArraysEqual_false in E.
      destruct (IH (k + 1) c) as [[Hn Hr]|(i & Hr & Hi & Hfirst)].
      * left. split; [|done]. rewrite not_elem_of_cons. split; [congruence|done].
      * right. exists (S i). split; [lia|]. split; [done|].
        intros [|j] Hj; simpl; [congruence|]. apply Hfirst. lia.
Qed.

(** X1: [FindCellIndex] returns -1 exactly for a cell the array does
    not hold, and otherwise the position of the first element equal to
    the cell. *)
Theorem FindCellIndex_first_occurrence (c : cell) (l : list cell) :
  ((c ∉ l) /\ FindCellIndex c l = -1) \/
  (exists i : nat, FindCellIndex c l = Z.of_nat i /\ l !! i = Some c /\
                   forall j : nat, (j < i)%nat -> l !! j <> Some c).
Proof.
  destruct (FindCellIndex_from_first l 0 c) as [H|(i & H1 & H2 & H3)]; [by left|].
  right. exists i. split; [|done]. unfold FindCellIndex. lia.
Qed.

(** X2: [ArraysEqual] on two cells is the test whether they are the
    same cell, and so does not depend on the order of its arguments. *)
Theorem ArraysEqual_decides (a b : cell) :
  ArraysEqual a b = bool_decide (a = b) /\ ArraysEqual a b = ArraysEqual b a.
Proof.
  assert (forall x y : cell, ArraysEqual x y = bool_decide (x = y)) as H.
  { intros x y. case_bool_decide as E.
    - by apply ArraysEqual_true.
    - by apply ArraysEqual_false. }
  split; [apply H|]. rewrite !H. apply bool_decide_ext. split; congruence.
Qed.

(** X3: for a cell of the grid, [Neighbors] lists exactly the cells of
    the grid that are adjacent to it, each once, and at most four. *)
Theorem Neighbors_grid_adjacent side w c :
  grid_ok side w -> in_grid side c ->
  NoDup (Neighbors w c.1 c.2) /\
  (length (Neighbors w c.1 c.2) <= 4)%nat /\
  forall n, n ∈ Neighbors w c.1 c.2 <-> in_grid side n /\ adjacent c n.
Proof.
  intros Hg Hc. split; [apply NoDup_Neighbors|]. split.
  - unfold Neighbors. rewrite !length_app. repeat case_match; simpl; lia.
  - intros n. by apply (Neighbors_adjacent side).
Qed.

Lemma Neighbors_grid_adjacent_witness :
  grid_ok 3 (fresh_grid 3) /\ in_grid 3 (1, 1) /\
  NoDup (Neighbors (fresh_grid 3) 1 1) /\
  (length (Neighbors (fresh_grid 3) 1 1) <= 4)%nat /\
  forall n, n ∈ Neighbors (fresh_grid 3) 1 1 <-> in_grid 3 n /\ adjacent (1, 1) n.
Proof.
  assert (grid_ok 3 (fresh_grid 3)) as Hg by (apply grid_ok_fresh_grid; lia).
  assert (in_grid 3 (1, 1)) as Hc by (split; simpl; lia).
  split; [exact Hg|]. split; [exact Hc|].
  exact (Neighbors_grid_adjacent 3 (fresh_grid 3) (1, 1) Hg Hc).
Defined.

Lemma length_edges_of_row (R C x : Z) (n : nat) :
  Z.of_nat (length (seqZ 0 (Z.of_nat n) ≫= fun y =>
    (if x <? R - 1 then [((x, y), (x + 1, y))] else []) ++
    (if y <? C - 1 then [((x, y), (x, y + 1))] else [])))
  = Z.of_nat n * (if x <? R - 1 then 1 else 0) + Z.max 0 (Z.min (Z.of_nat n) (C - 1)).
Proof.
  induction n as [|n IH]; [simpl; lia|].
  rewrite seqZ_S, bind_app, length_app, Nat2Z.inj_add, IH.
  cbn [mbind list_bind]. rewrite app_nil_r, length_app.
  destruct (x <? R - 1); destruct (Z.ltb_spec (0 + Z.of_nat n) (C - 1)); simpl; lia.
Qed.

Lemma length_edges_of_rows (R C : Z) (n : nat) : 0 <= C ->
  Z.of_nat (length (seqZ 0 (Z.of_nat n) ≫= fun x => seqZ 0 C ≫= fun y =>
    (if x <? R - 1 then [((x, y), (x + 1, y))] else []) ++
    (if y <? C - 1 then [((x, y), (x, y + 1))] else [])))
  = C * Z.max 0 (Z.min (Z.of_nat n) (R - 1)) + Z.of_nat n * Z.max 0 (C - 1).
Proof.
  intros HC. induction n as [|n IH]; [simpl; lia|].
  rewrite seqZ_S, bind_app, length_app, Nat2Z.inj_add, IH.
  cbn [mbind list_bind]. rewrite app_nil_r.
  pose proof (length_edges_of_row R C (0 + Z.of_nat n) (Z.to_nat C)) as Hrow.
  rewrite Z2Nat.id in Hrow by done. rewrite Hrow.
  destruct (Z.ltb_spec (0 + Z.of_nat n) (R - 1)); nia.
Qed.

Lemma length_GetAllEdges_grid side w : grid_ok side w ->
  Z.of_nat (length (GetAllEdges w)) = 2 * side * (side - 1).
Proof.
  intros Hg. pose proof (grid_side _ _ Hg) as Hs.
  unfold GetAllEdges. rewrite (grid_rows _ _ Hg), (grid_columns _ _ Hg).
  pose proof (length_edges_of_rows side side (Z.to_nat side) ltac:(lia)) as H.
  rewrite Z2Nat.id in H by lia. rewrite H. nia.
Qed.

(** X4: [GetAllEdges] lists every edge of the grid once, from the cell
    with the smaller row or column to the other one: [2 * side * (side - 1)]
    edges, and for two adjacent cells of the grid exactly one of the two
    orientations. *)
Theorem GetAllEdges_grid_edges side w :
  grid_ok side w ->
  NoDup (GetAllEdges w) /\
  Z.of_nat (length (GetAllEdges w)) = 2 * side * (side - 1) /\
  (forall a b, (a, b) ∈ GetAllEdges w -> in_grid side a /\ in_grid side b /\ adjacent a b) /\
  (forall a b, in_grid side a -> in_grid side b -> adjacent a b ->
     ((a, b) ∈ GetAllEdges w /\ (b, a) ∉ GetAllEdges w) \/
     ((b, a) ∈ GetAllEdges w /\ (a, b) ∉ GetAllEdges w)).
Proof.
  intros Hg. pose proof (grid_side _ _ Hg) as Hs.
  split; [apply NoDup_GetAllEdges|]. split; [|split].
  - by apply length_GetAllEdges_grid.
  - intros a b H. apply (elem_of_GetAllEdges side w (a, b) Hg) in H as (Ha & Hb & Hd).
    split; [done|]. split; [done|]. apply step_to_adjacent. destruct Hd; eauto.
  - intros a b Ha Hb Hab. apply step_to_adjacent in Hab as [d ->].
    pose proof (oriented_edge side w a d Hg Ha Hb) as He.
    destruct d; cbn [fst snd] in He; tauto.
Qed.

Lemma GetAllEdges_grid_edges_witness :
  grid_ok 3 (fresh_grid 3) /\
  NoDup (GetAllEdges (fresh_grid 3)) /\
  Z.of_nat (length (GetAllEdges (fresh_grid 3))) = 2 * 3 * (3 - 1).
Proof.
  assert (grid_ok 3 (fresh_grid 3)) as Hg by (apply grid_ok_fresh_grid; lia).
  split; [exact Hg|].
  destruct (GetAllEdges_grid_edges 3 (fresh_grid 3) Hg) as (H1 & H2 & _).
  split; [exact H1|exact H2].
Defined.

(** * The grid and its passages *)

(** X5: [GenerateGrid] has five outcomes that return: for the values
    0 to 4 of the size drop-down it builds a blank grid of side 3, 5, 10,
    25 or 40, leaving the global [num_cells] (shadowed by its parameter)
    and the frontier as they were; for every other value it throws the
    error [Maze dimensions not found!]. *)
Theorem GenerateGrid_outcome (v : string) (w : world) :
  (exists side,
     (v, side) ∈ [("0"%string, 3); ("1"%string, 5); ("2"%string, 10);
                  ("3"%string, 25); ("4"%string, 40)] /\
     GenerateGrid v w = Returns (tt, build_grid (side * side) w) /\
     blank side (build_grid (side * side) w) /\
     num_cells (build_grid (side * side) w) = num_cells w /\
     frontier (build_grid (side * side) w) = frontier w) \/
  ((v ∉ ["0"%string; "1"%string; "2"%string; "3"%string; "4"%string]) /\
   GenerateGrid v w = Throws (Error "Maze dimensions not found!")).
Proof.
  unfold GenerateGrid.
  destruct (String.eqb_spec v "0") as [->|H0].
  { left. exists 3. split; [set_solver|]. split; [done|].
    split; [apply (blank_build_grid 3); lia|done]. }
  destruct (String.eqb_spec v "1") as [->|H1].
  { left. exists 5. split; [set_solver|]. split; [done|].
    split; [apply (blank_build_grid 5); lia|done]. }
  destruct (String.eqb_spec v "2") as [->|H2].
  { left. exists 10. split; [set_solver|]. split; [done|].
    split; [apply (blank_build_grid 10); lia|done]. }
  destruct (String.eqb_spec v "3") as [->|H3].
  { left. exists 25. split; [set_solver|]. split; [done|].
    split; [apply (blank_build_grid 25); lia|done]. }
  destruct (String.eqb_spec v "4") as [->|H4].
  { left. exists 40. split; [set_solver|]. split; [done|].
    split; [apply (blank_build_grid 40); lia|done]. }
  right. split; [|done]. rewrite !not_elem_of_cons. repeat split; try done. apply not_elem_of_nil.
Qed.

Lemma open_side_sublist w c (bounds : bool) d :
  open_side w c bounds d `sublist_of` (if bounds then [step_to c d] else []).
Proof. unfold open_side. destruct bounds, (flag w c d); simpl; by repeat constructor. Qed.

(** X6: for a cell of the grid, [ConnectedNeighbors] returns without
    changing the state; its result is a sublist of that of [Neighbors], so
    it has no duplicates and keeps the order North, East, South, West, and
    it holds exactly the neighbours in the grid towards which the border
    of the cell is transparent. *)
Theorem ConnectedNeighbors_sublist_of_Neighbors side w c :
  grid_ok side w -> in_grid side c ->
  exists l, ConnectedNeighbors c.1 c.2 w = Returns (l, w) /\
            l `sublist_of` Neighbors w c.1 c.2 /\ NoDup l /\
            forall n, n ∈ l <-> exists d, n = step_to c d /\ in_grid side n /\ flag w c d = true.
Proof.
  intros Hg Hc. pose proof (ConnectedNeighbors_grid side w c Hg Hc) as Hrun.
  set (l := _ ++ _) in Hrun. exists l. split; [done|].
  assert (l `sublist_of` Neighbors w c.1 c.2) as Hsub.
  { unfold l, Neighbors. rewrite (grid_rows _ _ Hg), (grid_columns _ _ Hg).
    repeat apply sublist_app; apply open_side_sublist. }
  split; [done|]. split; [eapply sublist_NoDup; [apply NoDup_Neighbors|done]|].
  intros n. rewrite <- (passage_spec side w c n Hg Hc). unfold passage. rewrite Hrun.
  split; [eauto|]. by intros (l1 & [= <-] & H).
Qed.

Lemma ConnectedNeighbors_sublist_of_Neighbors_witness :
  grid_ok 3 small_maze /\ in_grid 3 (0, 0) /\
  exists l, ConnectedNeighbors (0, 0).1 (0, 0).2 small_maze = Returns (l, small_maze) /\
            l `sublist_of` Neighbors small_maze (0, 0).1 (0, 0).2 /\ NoDup l.
Proof.
  assert (grid_ok 3 small_maze) as Hg.
  { unfold small_maze, cut. repeat apply grid_ok_open_border. apply grid_ok_fresh_grid. lia. }
  assert (in_grid 3 (0, 0)) as Hc by (split; simpl; lia).
  split; [exact Hg|]. split; [exact Hc|].
  destruct (ConnectedNeighbors_sublist_of_Neighbors 3 small_maze (0, 0) Hg Hc)
    as (l & H1 & H2 & H3 & _).
  exists l. split; [exact H1|]. split; [exact H2|exact H3].
Defined.

(** X7: for a cell outside the grid that one of the four bound tests
    lets through, [ConnectedNeighbors] throws a [TypeError]: there is no
    element for the index -1 that [FindCellIndex] returns. *)
Theorem ConnectedNeighbors_outside_grid side w c :
  grid_ok side w -> ~ in_grid side c -> Neighbors w c.1 c.2 <> [] ->
  ConnectedNeighbors c.1 c.2 w = Throws TypeError.
Proof.
  intros Hg Hout Hne. pose proof (FindCellIndex_outside side w c Hg Hout) as Hdoc.
  unfold Neighbors in Hne. unfold ConnectedNeighbors. unfold bind at 1. unfold get at 1.
  replace (c.1, c.2) with c by (by destruct c).
  assert (forall d n, open_towards true (FindCellIndex c (cells w)) d n w = Throws TypeError) as Hthrow.
  { intros d n. unfold open_towards, is_transparent, bind, get_style. by rewrite Hdoc. }
  assert (forall d n, open_towards false (FindCellIndex c (cells w)) d n w = Returns ([], w)) as Hskip by done.
  destruct (0 <=? c.1 - 1); [unfold bind at 1; by rewrite Hthrow|].
  unfold bind at 1. rewrite Hskip.
  destruct (c.2 + 1 <? num_columns w); [unfold bind at 1; by rewrite Hthrow|].
  unfold bind at 1. rewrite Hskip.
  destruct (c.1 + 1 <? num_rows w); [unfold bind at 1; by rewrite Hthrow|].
  unfold bind at 1. rewrite Hskip.
  destruct (0 <=? c.2 - 1); [unfold bind at 1; by rewrite Hthrow|].
  done.
Qed.

Lemma ConnectedNeighbors_outside_grid_witness :
  grid_ok 3 (fresh_grid 3) /\ ~ in_grid 3 (0, 5) /\
  Neighbors (fresh_grid 3) (0, 5).1 (0, 5).2 <> [] /\
  ConnectedNeighbors (0, 5).1 (0, 5).2 (fresh_grid 3) = Throws TypeError.
Proof.
  assert (grid_ok 3 (fresh_grid 3)) as Hg by (apply grid_ok_fresh_grid; lia).
  assert (~ in_grid 3 (0, 5)) as Hc by (unfold in_grid; simpl; lia).
  assert (Neighbors (fresh_grid 3) (0, 5).1 (0, 5).2 <> []) as Hn by (vm_compute; discriminate).
  split; [exact Hg|]. split; [exact Hc|]. split; [exact Hn|].
  exact (ConnectedNeighbors_outside_grid 3 (fresh_grid 3) (0, 5) Hg Hc Hn).
Defined.

(** * Opening borders *)

Lemma with_border_again d d' colour s :
  with_border d colour (with_border d' colour (with_border d colour (with_border d' colour s)))
  = with_border d colour (with_border d' colour s).
Proof. by destruct d, d'. Qed.

Lemma with_border_twice d colour s :
  with_border d colour (with_border d colour s) = with_border d colour s.
Proof. by destruct d. Qed.

Lemma open_border_again c d c' d' w :
  open_border c d (open_border c' d' (open_border c d (open_border c' d' w)))
  = open_border c d (open_border c' d' w).
Proof.
  unfold open_border, set_document. cbn [cells document num_cells num_rows num_columns
    visited frontier random_calls]. f_equal.
  apply map_eq. intros i. rewrite !lookup_alter.
  destruct (document w !! FindCellIndex c (cells w)) as [s|] eqn:E;
    destruct (document w !! FindCellIndex c' (cells w)) as [s'|] eqn:E';
    repeat case_decide; simplify_eq; rewrite ?E, ?E'; cbn [fmap option_fmap option_map];
    rewrite ?with_border_again, ?with_border_twice; try done; congruence.
Qed.

Lemma CutEdge_grid side w a b : grid_ok side w -> in_grid side a -> in_grid side b ->
  CutEdge a b w = Returns (tt,
    if a.2 - 1 =? b.2 then open_border b Right (open_border a Left w)
    else if a.2 + 1 =? b.2 then open_border b Left (open_border a Right w)
    else if a.1 - 1 =? b.1 then open_border b Bottom (open_border a Top w)
    else if a.1 + 1 =? b.1 then open_border b Top (open_border a Bottom w)
    else w).
Proof.
  intros Hg Ha Hb. unfold CutEdge. unfold bind at 1. unfold get at 1.
  assert (forall d d', (let* _ := set_border (FindCellIndex a (cells w)) d transparent in
                        set_border (FindCellIndex b (cells w)) d' transparent) w
                       = Returns (tt, open_border b d' (open_border a d w))) as Hpair.
  { intros d d'. unfold bind. rewrite (set_border_grid side w a d Hg Ha).
    exact (set_border_grid side (open_border a d w) b d' (grid_ok_open_border side w a d Hg) Hb). }
  repeat (case_match; [apply Hpair|]). done.
Qed.

(** X8: opening a passage twice is the same as opening it once: on
    cells of the grid, a second call of [CutEdge] with the same cells
    returns the state the first call returned. *)
Theorem CutEdge_idempotent side w a b w' :
  grid_ok side w -> in_grid side a -> in_grid side b ->
  CutEdge a b w = Returns (tt, w') -> CutEdge a b w' = Returns (tt, w').
Proof.
  intros Hg Ha Hb Hrun. rewrite (CutEdge_grid side w a b Hg Ha Hb) in Hrun.
  assert (grid_ok side w') as Hg'.
  { injection Hrun as <-. repeat case_match; try done; by repeat apply grid_ok_open_border. }
  rewrite (CutEdge_grid side w' a b Hg' Ha Hb). f_equal. f_equal.
  injection Hrun as <-. repeat case_match; try done; apply open_border_again.
Qed.

Lemma CutEdge_idempotent_witness :
  grid_ok 3 (fresh_grid 3) /\ in_grid 3 (0, 0) /\ in_grid 3 (0, 1) /\
  CutEdge (0, 0) (0, 1) (fresh_grid 3) = Returns (tt, cut (0, 0) Right (fresh_grid 3)) /\
  CutEdge (0, 0) (0, 1) (cut (0, 0) Right (fresh_grid 3))
    = Returns (tt, cut (0, 0) Right (fresh_grid 3)).
Proof.
  assert (grid_ok 3 (fresh_grid 3)) as Hg by (apply grid_ok_fresh_grid; lia).
  assert (in_grid 3 (0, 0)) as Ha by (split; simpl; lia).
  assert (in_grid 3 (0, 1)) as Hb by (split; simpl; lia).
  assert (CutEdge (0, 0) (0, 1) (fresh_grid 3) = Returns (tt, cut (0, 0) Right (fresh_grid 3)))
    as Hrun by (vm_compute; reflexivity).
  split; [exact Hg|]. split; [exact Ha|]. split; [exact Hb|]. split; [exact Hrun|].
  exact (CutEdge_idempotent 3 (fresh_grid 3) (0, 0) (0, 1) _ Hg Ha Hb Hrun).
Defined.

(** X9: for two adjacent cells of the grid, [CutEdge] returns and
    opens the passage between them in both directions; every other pair
    of cells has a passage after the call exactly when it had one
    before. *)
Theorem CutEdge_opens_one_passage side w a b :
  grid_ok side w -> in_grid side a -> in_grid side b -> adjacent a b ->
  exists w', CutEdge a b w = Returns (tt, w') /\ grid_ok side w' /\
    forall x y, passage w' x y <-> passage w x y \/ (x = a /\ y = b) \/ (x = b /\ y = a).
Proof.
  intros Hg Ha Hb Hab. apply step_to_adjacent in Hab as [d ->].
  exists (cut a d w). split; [by apply (CutEdge_cut side)|].
  split; [by repeat apply grid_ok_open_border|].
  intros x y. by apply (passage_cut side).
Qed.

Lemma CutEdge_opens_one_passage_witness :
  grid_ok 3 (fresh_grid 3) /\ in_grid 3 (1, 1) /\ in_grid 3 (2, 1) /\ adjacent (1, 1) (2, 1) /\
  exists w', CutEdge (1, 1) (2, 1) (fresh_grid 3) = Returns (tt, w') /\ grid_ok 3 w' /\
    forall x y, passage w' x y <->
      passage (fresh_grid 3) x y \/ (x = (1, 1) /\ y = (2, 1)) \/ (x = (2, 1) /\ y = (1, 1)).
Proof.
  assert (grid_ok 3 (fresh_grid 3)) as Hg by (apply grid_ok_fresh_grid; lia).
  assert (in_grid 3 (1, 1)) as Ha by (split; simpl; lia).
  assert (in_grid 3 (2, 1)) as Hb by (split; simpl; lia).
  assert (adjacent (1, 1) (2, 1)) as Hab by reflexivity.
  split; [exact Hg|]. split; [exact Ha|]. split; [exact Hb|]. split; [exact Hab|].
  exact (CutEdge_opens_one_passage 3 (fresh_grid 3) (1, 1) (2, 1) Hg Ha Hb Hab).
Defined.

Lemma entrance_passages side w : grid_ok side w ->
  forall x y,
    passage (open_border (0, 0) Top (open_border (side - 1, side - 1) Bottom w)) x y
    <-> passage w x y.
Proof.
  intros Hg x y. pose proof (grid_side _ _ Hg) as Hs.
  assert (in_grid side (0, 0)) as H0 by (split; simpl; lia).
  assert (in_grid side (side - 1, side - 1)) as H1 by (split; simpl; lia).
  assert (grid_ok side (open_border (side - 1, side - 1) Bottom w)) as Hg1
    by (by apply grid_ok_open_border).
  rewrite !(passage_full side) by (done || by apply grid_ok_open_border).
  split; intros (Hx & d & -> & Hy & Hf); (split; [done|]); exists d;
    (split; [done|]); (split; [done|]).
  - destruct (proj1 (flag_open_border side _ (0, 0) Top x d Hg1 H0 Hx) Hf) as [Hf1|[-> ->]].
    + destruct (proj1 (flag_open_border side w (side - 1, side - 1) Bottom x d Hg H1 Hx) Hf1)
        as [Hf2|[-> ->]]; [done|].
      destruct Hy as [Hy _]. simpl in Hy. lia.
    + destruct Hy as [Hy _]. simpl in Hy. lia.
  - apply (flag_open_border side); [done|done|done|]. left.
    apply (flag_open_border side); [done|done|done|]. by left.
Qed.

Lemma CreateEntranceAndExit_keeps_passages_aux side w : grid_ok side w ->
  exists w', CreateEntranceAndExit w = Returns (tt, w') /\
    (forall x y, passage w' x y <-> passage w x y) /\
    flag w' (0, 0) Top = true /\ flag w' (side - 1, side - 1) Bottom = true.
Proof.
  intros Hg. pose proof (grid_side _ _ Hg) as Hs.
  assert (in_grid side (0, 0)) as H0 by (split; simpl; lia).
  assert (in_grid side (side - 1, side - 1)) as H1 by (split; simpl; lia).
  assert (grid_ok side (open_border (side - 1, side - 1) Bottom w)) as Hg1
    by (by apply grid_ok_open_border).
  eexists. split; [by apply (CreateEntranceAndExit_grid side)|].
  split; [by apply entrance_passages|]. split.
  - apply (flag_open_border side); [done|done|done|by right].
  - apply (flag_open_border side); [done|done|done|]. left.
    apply (flag_open_border side); [done|done|done|]. by right.
Qed.

(** X10: [CreateEntranceAndExit] returns, opens the top border of the
    cell (0,0) and the bottom border of the bottom-right cell, which lead
    out of the grid, and leaves every passage between cells as it was. *)
Theorem CreateEntranceAndExit_keeps_passages side w :
  grid_ok side w ->
  exists w', CreateEntranceAndExit w = Returns (tt, w') /\ grid_ok side w' /\
    flag w' (0, 0) Top = true /\ flag w' (side - 1, side - 1) Bottom = true /\
    visited w' = visited w /\
    forall x y, passage w' x y <-> passage w x y.
Proof.
  intros Hg. pose proof (grid_side _ _ Hg) as Hs.
  assert (in_grid side (0, 0)) as H0 by (split; simpl; lia).
  assert (in_grid side (side - 1, side - 1)) as H1 by (split; simpl; lia).
  assert (grid_ok side (open_border (side - 1, side - 1) Bottom w)) as Hg1
    by (by apply grid_ok_open_border).
  eexists. split; [by apply (CreateEntranceAndExit_grid side)|].
  split; [by apply grid_ok_open_border|].
  split; [apply (flag_open_border side); [done|done|done|by right]|].
  split; [|split; [done|by apply entrance_passages]].
  apply (flag_open_border side); [done|done|done|]. left.
  apply (flag_open_border side); [done|done|done|]. by right.
Qed.

Lemma CreateEntranceAndExit_keeps_passages_witness :
  grid_ok 3 serpentine /\
  exists w', CreateEntranceAndExit serpentine = Returns (tt, w') /\ grid_ok 3 w' /\
    flag w' (0, 0) Top = true /\ flag w' (3 - 1, 3 - 1) Bottom = true /\
    visited w' = visited serpentine /\
    forall x y, passage w' x y <-> passage serpentine x y.
Proof.
  pose proof (tree_grid 3 serpentine serpentine_tree) as Hg.
  split; [exact Hg|]. exact (CreateEntranceAndExit_keeps_passages 3 serpentine Hg).
Defined.

(** * From the grid to the maze *)

Lemma rtc_passage_ext w w' a b :
  (forall x y, passage w' x y <-> passage w x y) -> rtc (passage w) a b -> rtc (passage w') a b.
Proof. intros H. apply rtc_subrel. intros x y. apply H. Qed.

Lemma spanning_tree_ext side w w' : grid_ok side w -> grid_ok side w' ->
  (forall x y, passage w' x y <-> passage w x y) -> spanning_tree w -> spanning_tree w'.
Proof.
  intros Hg Hg' Hp (Hc & Hn & Ha).
  assert (cells w' = cells w) as Hcells by (by rewrite (grid_cells _ _ Hg), (grid_cells _ _ Hg')).
  split; [|split].
  - intros a b. rewrite Hcells. intros Ha' Hb'. apply (rtc_passage_ext w w'); [done|]. by apply Hc.
  - rewrite (open_passages_ext side w w'), Hcells; done.
  - by apply (acyclic_ext w w').
Qed.

Lemma run_generator_spanning side random alg w :
  unit_interval random -> blank side w -> frontier w = [] -> (alg = Kruskal -> 2 <= side) ->
  exists w', run_generator random (Z.to_nat (2 * side * side)) (alg_drop_value alg) w
               = Returns (tt, w') /\
             grid_ok side w' /\ spanning_tree w'.
Proof.
  intros Hr Hb Hf Hk. destruct alg; cbn [alg_drop_value].
  - destruct (prims_run side random Hr _ Hb Hf) as (w' & Hrun & Hinv & Hfr).
    exists w'. split; [done|]. split; [apply Hinv|]. by eapply prim_inv_done.
  - destruct (backtracker_run side random Hr _ Hb) as (w' & Hrun & Hinv).
    exists w'. split; [done|]. split; [apply Hinv|]. by eapply backtrack_inv_done.
  - destruct (kruskals_run side random Hr _ Hb (Hk eq_refl)) as (w' & Hrun & cm & Hinv).
    exists w'. split; [done|]. split; [apply Hinv|]. by eapply kruskal_inv_done.
Qed.

Lemma Kruskals_empty_pool random fuel w :
  GetAllEdges w = [] -> Kruskals random (S fuel) w = Throws TypeError.
Proof.
  intros He. unfold Kruskals. unfold bind at 1. unfold get at 1. rewrite He.
  cbn [Kruskals_loop]. unfold bind at 1. unfold Kruskals_round. unfold bind at 1.
  assert (exists k w1, random_below random (Z.of_nat (length (@nil (cell * cell)))) w
                       = Returns (k, w1)) as (k & w1 & ->) by (eexists _, _; reflexivity).
  assert (at_index (@nil (cell * cell)) k = None) as -> by (unfold at_index; by case_match).
  done.
Qed.

(** X13: on a grid without edges the [do ... while] loop of [Kruskals]
    throws a [TypeError] in its first round, whatever is drawn: the edge
    it reads from the empty list is [undefined]. *)
Theorem Kruskals_without_edges random fuel w :
  GetAllEdges w = [] -> Kruskals random (S fuel) w = Throws TypeError.
Proof. apply Kruskals_empty_pool. Qed.

Lemma Kruskals_without_edges_witness :
  GetAllEdges (fresh_grid 1) = [] /\
  Kruskals always_first 1 (fresh_grid 1) = Throws TypeError.
Proof.
  split; [reflexivity|]. apply (Kruskals_without_edges always_first 0 (fresh_grid 1)). reflexivity.
Defined.

(** X14: Prim's algorithm and the backtracker leave every cell of the
    grid marked visited, and Prim's algorithm leaves the frontier
    empty. *)
Theorem generators_visit_every_cell side random w :
  unit_interval random -> blank side w -> frontier w = [] ->
  (exists w', run_generator random (Z.to_nat (2 * side * side)) "0" w = Returns (tt, w') /\
              frontier w' = [] /\ forall c, in_grid side c -> is_visited w' c = true) /\
  (exists w', run_generator random (Z.to_nat (2 * side * side)) "1" w = Returns (tt, w') /\
              forall c, in_grid side c -> is_visited w' c = true).
Proof.
  intros Hr Hb Hf. split.
  - destruct (prims_run side random Hr _ Hb Hf) as (w' & Hrun & Hinv & Hfr).
    exists w'. split; [done|]. split; [done|].
    apply (tree_all_visited side); [apply Hinv|]. intros c d Hc Hv Hn.
    destruct (is_visited w' (step_to c d)) eqn:Hvn; [done|].
    pose proof (prim_border _ _ Hinv c d Hc Hv Hn Hvn) as H.
    rewrite Hfr in H. by apply elem_of_nil in H.
  - destruct (backtracker_run side random Hr _ Hb) as (w' & Hrun & Hinv).
    exists w'. split; [done|].
    apply (tree_all_visited side); [apply Hinv|]. intros c d Hc Hv Hn.
    apply (bt_closed _ _ _ Hinv c d); try done. apply not_elem_of_nil.
Qed.

Lemma generators_visit_every_cell_witness :
  unit_interval always_first /\ blank 3 (fresh_grid 3) /\ frontier (fresh_grid 3) = [] /\
  (exists w', run_generator always_first (Z.to_nat (2 * 3 * 3)) "0" (fresh_grid 3)
                = Returns (tt, w') /\
              frontier w' = [] /\ forall c, in_grid 3 c -> is_visited w' c = true) /\
  (exists w', run_generator always_first (Z.to_nat (2 * 3 * 3)) "1" (fresh_grid 3)
                = Returns (tt, w') /\
              forall c, in_grid 3 c -> is_visited w' c = true).
Proof.
  assert (blank 3 (fresh_grid 3)) as Hb by (apply blank_fresh_grid; lia).
  split; [exact always_first_unit|]. split; [exact Hb|]. split; [reflexivity|].
  apply (generators_visit_every_cell 3 always_first (fresh_grid 3));
    [exact always_first_unit|exact Hb|reflexivity].
Defined.

(** * The solver runs to its end *)

Lemma filter_le {A} (f g : A -> bool) (l : list A) :
  (forall y, y ∈ l -> f y = true -> g y = true) ->
  (length (List.filter f l) <= length (List.filter g l))%nat.
Proof.
  induction l as [|y l IH]; intros H; [done|]. simpl.
  assert (length (List.filter f l) <= length (List.filter g l))%nat as Hle.
  { apply IH. intros z Hz. apply H. by right. }
  destruct (f y) eqn:Ef.
  - rewrite (H y) by (done || left). simpl. lia.
  - destruct (g y); simpl; lia.
Qed.

Lemma filter_strict {A} (f g : A -> bool) (l : list A) (x : A) :
  (forall y, y ∈ l -> f y = true -> g y = true) ->
  x ∈ l -> g x = true -> f x = false ->
  (length (List.filter f l) < length (List.filter g l))%nat.
Proof.
  induction l as [|y l IH]; intros H Hx Hg Hf; [by apply elem_of_nil in Hx|].
  assert (forall z, z ∈ l -> f z = true -> g z = true) as H' by (intros z Hz; apply H; by right).
  simpl. apply elem_of_cons in Hx as [<-|Hx].
  - rewrite Hf, Hg. simpl. pose proof (filter_le f g l H'). lia.
  - specialize (IH H' Hx Hg Hf). destruct (f y) eqn:Ef.
    + rewrite (H y) by (done || left). simpl. lia.
    + destruct (g y); simpl; lia.
Qed.

Lemma number_lt_trans a b c :
  number_lt a b = true -> number_lt b c = true -> number_lt a c = true.
Proof. destruct a, b, c; simpl; try done. rewrite !Z.ltb_lt. lia. Qed.

Lemma number_lt_irrefl a : number_lt a a = false.
Proof. destruct a; simpl; [apply Z.ltb_irrefl|done]. Qed.

Section Descent.
Context (side : Z) (depthMap : gmap Z number).

Lemma below_decrease k maxDepth : 0 <= k < side * side ->
  number_lt (Map_get depthMap k) maxDepth = true ->
  (length (below side depthMap (Map_get depthMap k)) < length (below side depthMap maxDepth))%nat.
Proof.
  intros Hk Hlt. unfold below. apply (filter_strict _ _ _ k).
  - intros y _ Hy. by eapply number_lt_trans.
  - apply elem_of_seqZ. lia.
  - done.
  - apply number_lt_irrefl.
Qed.

Lemma length_below maxDepth : 0 <= side ->
  Z.of_nat (length (below side depthMap maxDepth)) <= side * side.
Proof.
  intros Hs. unfold below.
  pose proof (filter_length (fun k => number_lt (Map_get depthMap k) maxDepth)
                (seqZ 0 (side * side))) as H.
  rewrite length_seqZ in H. nia.
Qed.

Lemma descend_spec nbs : forall maxDepth queue w,
  grid_ok side w -> (forall n, n ∈ nbs -> in_grid side n) ->
  exists maxDepth' queue' w',
    descend nbs depthMap maxDepth queue w = Returns ((maxDepth', queue'), w') /\
    same_maze side w w' /\
    (forall c, c ∈ queue' -> c ∈ queue \/ c ∈ nbs) /\
    (length queue' + length (below side depthMap maxDepth')
     <= length queue + length (below side depthMap maxDepth))%nat.
Proof.
  induction nbs as [|n nbs IH]; intros maxDepth queue w Hg Hin.
  - exists maxDepth, queue, w. split; [done|]. split; [by apply same_maze_refl|].
    split; [by left|lia].
  - assert (in_grid side n) as Hn by (apply Hin; left).
    assert (forall v, v ∈ nbs -> in_grid side v) as Hin' by (intros v Hv; apply Hin; by right).
    cbn [descend]. unfold bind at 1. unfold get at 1.
    destruct (number_lt (Map_get depthMap (FindCellIndex n (cells w))) maxDepth) eqn:E.
    + unfold bind at 1. rewrite (set_background_grid side w n _ Hg Hn).
      unfold bind at 1. unfold sleep at 1, ret at 1.
      destruct (IH (Map_get depthMap (FindCellIndex n (cells w))) (queue ++ [n])
                  (paint n "#c3b9ff" w) (grid_ok_paint side w n _ Hg) Hin')
        as (md & q & w' & Hrun & Hs & Hq & Hlen).
      exists md, q, w'. split; [done|].
      split; [eapply same_maze_trans; [by apply same_maze_paint|done]|]. split.
      * intros c Hc. destruct (Hq c Hc) as [H|H]; [|right; by right].
        apply elem_of_app in H as [H|H]; [by left|].
        apply list_elem_of_singleton in H as ->. right. left.
      * rewrite length_app in Hlen. cbn [length] in Hlen.
        rewrite (grid_ok_index side w n Hg Hn) in E, Hlen.
        pose proof (below_decrease (index_of side n) maxDepth (index_of_range side n Hn) E).
        lia.
    + destruct (IH maxDepth queue w Hg Hin') as (md & q & w' & Hrun & Hs & Hq & Hlen).
      exists md, q, w'. split; [done|]. split; [done|]. split; [|done].
      intros c Hc. destruct (Hq c Hc) as [H|H]; [by left|right; by right].
Qed.

Lemma Dijkstras_descent_spec : forall fuel maxDepth queue w,
  grid_ok side w -> (forall c, c ∈ queue -> in_grid side c) ->
  (length queue + length (below side depthMap maxDepth) <= fuel)%nat ->
  exists w', Dijkstras_descent fuel depthMap maxDepth queue w = Returns (tt, w') /\
             same_maze side w w'.
Proof.
  induction fuel as [|fuel IH]; intros maxDepth queue w Hg Hq Hfuel.
  - destruct queue as [|current rest]; [|simpl in Hfuel; lia].
    exists w. split; [done|by apply same_maze_refl].
  - destruct queue as [|current rest].
    { exists w. split; [done|by apply same_maze_refl]. }
    assert (in_grid side current) as Hc by (apply Hq; left).
    cbn [Dijkstras_descent]. unfold bind at 1.
    pose proof (ConnectedNeighbors_grid side w current Hg Hc) as Hcn.
    set (nbs := _ ++ _) in Hcn. rewrite Hcn.
    assert (forall n, n ∈ nbs -> in_grid side n) as Hnin.
    { intros n Hn. assert (passage w current n) as Hp by (exists nbs; by split).
      by apply (passage_cells side w) in Hp as (_ & ? & _). }
    destruct (descend_spec nbs maxDepth rest w Hg Hnin) as (md & q & w' & Hrun & Hs & Hq' & Hlen).
    unfold bind at 1. rewrite Hrun. cbn [fst snd].
    destruct (IH md q w') as (w'' & Hrun' & Hs').
    + apply Hs.
    + intros c Hc'. destruct (Hq' c Hc') as [H|H]; [apply Hq; by right|by apply Hnin].
    + simpl in Hfuel. lia.
    + exists w''. split; [done|]. by eapply same_maze_trans.
Qed.

End Descent.

Section SolverRun.
Context (side : Z).

(** The layering loop leaves the walls of the maze alone. *)
Lemma Dijkstras_layering_walls w0 : grid_ok side w0 -> acyclic w0 ->
  forall fuel l w, bfs_inv side w0 w l ->
    (length (cells w) <= fuel + visited_count w)%nat ->
    exists l' w', Dijkstras_layering fuel l w = Returns (l', w') /\
                  grid_ok side w' /\ forall c d, flag w' c d = flag w0 c d.
Proof.
  intros Hg0 Hac. induction fuel as [|fuel IH]; intros l w Hb Hfuel.
  - destruct (queue l) as [|[c dq] rest] eqn:Hq.
    + exists l, w. split; [|split; apply Hb]. unfold Dijkstras_layering. by rewrite Hq.
    + destruct (bfs_queue _ _ _ _ Hb c dq) as (Hc & Hcv & _); [rewrite Hq; left|].
      pose proof (unvisited_count_pos side w c (bfs_grid _ _ _ _ Hb) Hc Hcv). lia.
  - destruct (queue l) as [|[c dq] rest] eqn:Hq.
    + exists l, w. split; [|split; apply Hb]. cbn [Dijkstras_layering]. by rewrite Hq.
    + pose proof (bfs_grid _ _ _ _ Hb) as Hg.
      destruct (bfs_queue _ _ _ _ Hb c dq) as (Hc & Hcv & Hcd); [rewrite Hq; left|].
      cbn [Dijkstras_layering]. rewrite Hq.
      unfold bind at 1. unfold get at 1.
      replace (c.1, c.2) with c by (by destruct c).
      unfold bind at 1. unfold modify at 1. fold (visit c w).
      assert (grid_ok side (visit c w)) as Hg1 by (by apply grid_ok_visit).
      unfold bind at 1. change (cells w) with (cells (visit c w)) at 1.
      rewrite (set_background_grid side) by done.
      set (w2 := paint c _ (visit c w)).
      assert (same_maze side (visit c w) w2) as Hs2 by (by apply same_maze_paint).
      assert (grid_ok side w2) as Hg2 by apply Hs2.
      assert (forall x d, flag w2 x d = flag w0 x d) as Hf2.
      { intros x d. rewrite (proj2 (proj2 (proj2 Hs2))), flag_visit.
        apply (bfs_walls _ _ _ _ Hb). }
      destruct ((c.1 =? num_rows w - 1) && (c.2 =? num_columns w - 1)).
      * eexists _, _. split; [done|]. by split.
      * unfold bind at 1. unfold sleep at 1, ret at 1.
        unfold bind at 1. rewrite (ConnectedNeighbors_grid side w2 c) by done.
        set (nbs := _ ++ _).
        assert (forall n, n ∈ nbs <-> passage w0 c n) as Hnbs.
        { intros n. rewrite <- (passage_flag_ext side w0 w2 c n); [| done | done | done].
          unfold passage. rewrite (ConnectedNeighbors_grid side w2 c) by done. fold nbs.
          split; [eauto|]. by intros (l1 & [= <-] & H). }
        assert (forall n, n ∈ nbs -> in_grid side n) as Hnin.
        { intros n Hn. apply Hnbs in Hn. by apply (passage_cells side w0) in Hn as (_ & ? & _). }
        unfold Map_get. rewrite (grid_ok_index side w c) by done. rewrite Hcd.
        cbn [mjoin option_join].
        destruct (discover_spec side nbs (index_of side c) dq w2
                    (mkLayering rest (depthMap l) (writes l)) w2 (same_maze_refl side w2 Hg2) Hnin)
          as (w3 & Hd & Hs3).
        unfold bind at 1. rewrite Hd.
        apply IH.
        -- apply (bfs_inv_ext side w0 (visit c w)); [by eapply same_maze_trans|].
           rewrite (discovered_ext (visit c w) w2) by done.
           apply (bfs_step side w0 w l c dq rest); try done. apply NoDup_open_sides.
        -- assert (visited_count w3 = S (visited_count w)) as ->.
           { rewrite (visited_count_ext (visit c w) w3).
             - by apply (visited_count_visit side).
             - etrans; [apply Hs3|apply Hs2].
             - intros x. apply (same_maze_visited side). by eapply same_maze_trans. }
           assert (cells w3 = cells w) as -> by (etrans; [apply Hs3|apply Hs2]).
           lia.
Qed.

Lemma Dijkstras_returns w : grid_ok side w -> acyclic w ->
  exists w', Dijkstras (S (Z.to_nat (side * side))) w = Returns (tt, w') /\
             grid_ok side w' /\ forall c d, flag w' c d = flag w c d.
Proof.
  intros Hg Hac. pose proof (grid_side _ _ Hg) as Hs.
  pose proof (length_grid_cells side ltac:(lia)) as Hlen.
  destruct (Dijkstras_layering_walls w Hg Hac (S (Z.to_nat (side * side))) layering_start
              (set_visited (Array_fill_false (num_cells w)) w))
    as (l & w1 & Hrun & Hg1 & Hf1).
  { by apply bfs_inv_start. }
  { rewrite visited_count_reset. simpl. rewrite (grid_cells _ _ Hg). lia. }
  assert (Dijkstras_phase1 (S (Z.to_nat (side * side))) w = Returns (l, w1)) as Hphase by done.
  assert (in_grid side (side - 1, side - 1)) as Hcorner by (split; simpl; lia).
  unfold Dijkstras. unfold bind at 1. rewrite Hphase.
  unfold bind at 1. unfold get at 1.
  rewrite (grid_rows _ _ Hg1), (grid_columns _ _ Hg1).
  unfold bind at 1. rewrite (set_background_grid side w1 _ _ Hg1 Hcorner).
  unfold bind at 1. unfold sleep at 1, ret at 1.
  set (w2 := paint _ _ w1).
  destruct (Dijkstras_descent_spec side (depthMap l) (S (Z.to_nat (side * side)))
              (Map_get (depthMap l) (side * side - 1)) [(side - 1, side - 1)] w2)
    as (w3 & Hrun3 & Hs3).
  - by apply grid_ok_paint.
  - by intros c ->%list_elem_of_singleton.
  - pose proof (length_below side (depthMap l) (Map_get (depthMap l) (side * side - 1))
                  ltac:(lia)). simpl. lia.
  - exists w3. split; [done|]. split; [apply Hs3|].
    intros c d. rewrite (proj2 (proj2 (proj2 Hs3))). unfold w2. by rewrite flag_paint.
Qed.

End SolverRun.

(** X15: on a maze without cycles [Dijkstras] returns: the layering
    loop takes every cell off the queue at most once, and in the second
    loop every cell that is put on the queue lowers [maxDepth], so
    [side * side + 1] rounds are enough for each loop.  The solver paints
    cells and leaves every passage as it was. *)
Theorem Dijkstras_terminates side w :
  grid_ok side w -> acyclic w ->
  exists w', Dijkstras (S (Z.to_nat (side * side))) w = Returns (tt, w') /\
             grid_ok side w' /\ forall x y, passage w' x y <-> passage w x y.
Proof.
  intros Hg Hac. destruct (Dijkstras_returns side w Hg Hac) as (w' & Hrun & Hg' & Hf).
  exists w'. split; [done|]. split; [done|]. intros x y. by apply (passage_flag_ext side).
Qed.

Lemma Dijkstras_terminates_witness :
  grid_ok 3 serpentine /\ acyclic serpentine /\
  exists w', Dijkstras (S (Z.to_nat (3 * 3))) serpentine = Returns (tt, w') /\
             grid_ok 3 w' /\ forall x y, passage w' x y <-> passage serpentine x y.
Proof.
  pose proof serpentine_tree as Ht.
  split; [apply Ht|]. split; [apply Ht|].
  apply (Dijkstras_terminates 3 serpentine); apply Ht.
Defined.

(** X16: [SolveMaze] runs [Dijkstras] when the solver drop-down holds
    0 and does nothing otherwise; on a maze without cycles it returns in
    both cases and leaves every passage as it was. *)
Theorem SolveMaze_keeps_maze side v w :
  grid_ok side w -> acyclic w ->
  exists w', SolveMaze (S (Z.to_nat (side * side))) v w = Returns (tt, w') /\
             (forall x y, passage w' x y <-> passage w x y) /\
             (v <> "0"%string -> w' = w).
Proof.
  intros Hg Hac. unfold SolveMaze. destruct (String.eqb_spec v "0") as [->|Hv].
  - destruct (Dijkstras_returns side w Hg Hac) as (w' & Hrun & Hg' & Hf).
    exists w'. split; [done|]. split; [|done]. intros x y. by apply (passage_flag_ext side).
  - exists w. by split.
Qed.

Lemma SolveMaze_keeps_maze_witness :
  grid_ok 3 serpentine /\ acyclic serpentine /\
  exists w', SolveMaze (S (Z.to_nat (3 * 3))) "0" serpentine = Returns (tt, w') /\
             (forall x y, passage w' x y <-> passage serpentine x y) /\
             ("0"%string <> "0"%string -> w' = serpentine).
Proof.
  pose proof serpentine_tree as Ht.
  split; [apply Ht|]. split; [apply Ht|].
  apply (SolveMaze_keeps_maze 3 "0" serpentine); apply Ht.
Defined.

(** * How long the generators run *)

Section Rounds.
Context (side : Z) (random : nat -> Q).
Hypothesis random_unit : unit_interval random.

Lemma visited_count_all w : grid_ok side w ->
  (forall c, in_grid side c -> is_visited w c = true) ->
  visited_count w = length (cells w).
Proof.
  intros Hg Hall. pose proof (grid_side _ _ Hg) as Hs.
  unfold visited_count. rewrite filter_all; [done|].
  intros c Hc. apply Hall. rewrite (grid_cells _ _ Hg) in Hc.
  apply elem_of_grid_cells in Hc; [done|lia].
Qed.

Lemma RecursiveBacktrack_out_of_fuel : forall fuel w path,
  backtrack_inv side w path ->
  (fuel + 2 * visited_count w <= 2 * length (cells w) + length path)%nat ->
  RecursiveBacktrack random fuel path w = OutOfFuel.
Proof.
  induction fuel as [|fuel IH]; intros w path Hinv Hfuel; [done|].
  pose proof (tree_grid _ _ (bt_tree _ _ _ Hinv)) as Hg.
  cbn [RecursiveBacktrack]. destruct (last path) as [current|] eqn:Hlast.
  - destruct (RecursiveBacktrack_body_spec side random random_unit w path current Hinv Hlast)
      as (path' & w' & Hrun & Hinv' & Hstep).
    unfold bind. rewrite Hrun. apply IH; [done|].
    assert (cells w' = cells w) as ->.
    { rewrite (grid_cells side w'), (grid_cells side w); [done|done|apply Hinv']. }
    destruct Hstep as [[Hv Hp]|[Hv Hp]]; lia.
  - apply last_None in Hlast as ->. exfalso.
    assert (visited_count w = length (cells w)) as Hall.
    { apply visited_count_all; [done|]. apply (tree_all_visited side); [apply Hinv|].
      intros c d Hc Hv Hn. apply (bt_closed _ _ _ Hinv c d); try done. apply not_elem_of_nil. }
    simpl in Hfuel. lia.
Qed.

Lemma PrimsAlgorithm_while_out_of_fuel : forall fuel w,
  prim_inv side w -> (fuel + visited_count w < length (cells w))%nat ->
  while fuel (fun w => 0 <? Z.of_nat (length (frontier w))) (PrimsAlgorithm_round random) w
    = OutOfFuel.
Proof.
  induction fuel as [|fuel IH]; intros w Hinv Hfuel.
  all: pose proof (tree_grid _ _ (prim_tree _ _ Hinv)) as Hg.
  all: assert (frontier w <> []) as Hne.
  1, 3: intros E; assert (visited_count w = length (cells w)) as Hall; [|lia];
        apply visited_count_all; [done|]; apply (tree_all_visited side); [apply Hinv|];
        intros c d Hc Hv Hn; destruct (is_visited w (step_to c d)) eqn:Hvn; [done|];
        pose proof (prim_border _ _ Hinv c d Hc Hv Hn Hvn) as H;
        rewrite E in H; by apply elem_of_nil in H.
  all: assert ((0 <? Z.of_nat (length (frontier w))) = true) as Hcond
         by (apply Z.ltb_lt; destruct (frontier w); [done|simpl; lia]).
  - cbn [while]. unfold bind, get. by rewrite Hcond.
  - cbn [while]. unfold bind at 1. unfold get at 1. rewrite Hcond.
    destruct (PrimsAlgorithm_round_spec side random random_unit w Hinv Hne)
      as (w' & Hrun & Hinv' & Hv).
    unfold bind at 1. rewrite Hrun. apply IH; [done|].
    assert (cells w' = cells w) as ->.
    { rewrite (grid_cells side w'), (grid_cells side w); [done|done|apply Hinv']. }
    lia.
Qed.

Lemma Kruskals_loop_out_of_fuel : forall fuel edges cellMap w,
  kruskal_inv side w edges cellMap -> (fuel < length edges)%nat ->
  Kruskals_loop random fuel edges cellMap w = OutOfFuel.
Proof.
  induction fuel as [|fuel IH]; intros edges cellMap w Hinv Hfuel; [done|].
  assert (edges <> []) as Hne by (intros ->; simpl in Hfuel; lia).
  destruct (Kruskals_round_spec side random random_unit w edges cellMap Hinv Hne)
    as (edges' & cellMap' & w' & Hrun & Hinv' & Hlen).
  cbn [Kruskals_loop]. unfold bind at 1. rewrite Hrun. cbn [fst snd].
  assert ((0 <? Z.of_nat (length edges')) = true) as -> by (apply Z.ltb_lt; lia).
  apply IH; [done|lia].
Qed.

End Rounds.

(** X18: the backtracker makes exactly [2 * side * side] calls of
    [RecursiveBacktrack] on a blank grid: one that pushes or pops for
    every cell but the first, one that pops the first cell, and the last
    one on the empty stack.  With less fuel the model is still running,
    with that much it returns. *)
Theorem RecursiveBacktrack_number_of_calls side random w fuel :
  unit_interval random -> blank side w -> (fuel < Z.to_nat (2 * side * side))%nat ->
  run_generator random fuel "1" w = OutOfFuel /\
  exists w', run_generator random (Z.to_nat (2 * side * side)) "1" w = Returns (tt, w').
Proof.
  intros Hr Hb Hfuel. split.
  - pose proof (blank_grid _ _ Hb) as Hg. pose proof (grid_side _ _ Hg) as Hside.
    rewrite run_generator_start. cbv zeta.
    change (String.eqb "1" "0") with false. change (String.eqb "1" "1") with true. cbv iota.
    rewrite (grid_rows _ _ Hg), (grid_columns _ _ Hg).
    set (start := (_, _)). set (w1 := set_random_calls _ w).
    assert (in_grid side start) as Hs by (by apply random_start).
    assert (blank side w1) as Hb1 by (by apply blank_set_random_calls).
    apply (RecursiveBacktrack_out_of_fuel side random Hr); [by apply backtrack_inv_start|].
    rewrite (visited_count_start side) by done.
    assert (cells (visit start w1) = cells (fresh_grid side)) as -> by apply (grid_cells _ _ Hg).
    pose proof (length_grid_cells side ltac:(lia)) as Hl.
    rewrite <- Z.mul_assoc, <- Hl in Hfuel. cbn [length]. lia.
  - destruct (backtracker_run side random Hr w Hb) as (w' & Hrun & _). by exists w'.
Qed.

Lemma RecursiveBacktrack_number_of_calls_witness :
  unit_interval always_first /\ blank 3 (fresh_grid 3) /\ (17 < Z.to_nat (2 * 3 * 3))%nat /\
  run_generator always_first 17 "1" (fresh_grid 3) = OutOfFuel /\
  exists w', run_generator always_first (Z.to_nat (2 * 3 * 3)) "1" (fresh_grid 3)
               = Returns (tt, w').
Proof.
  assert (blank 3 (fresh_grid 3)) as Hb by (apply blank_fresh_grid; lia).
  assert (17 < Z.to_nat (2 * 3 * 3))%nat as Hf by (simpl; lia).
  split; [exact always_first_unit|]. split; [exact Hb|]. split; [exact Hf|].
  exact (RecursiveBacktrack_number_of_calls 3 always_first (fresh_grid 3) 17
           always_first_unit Hb Hf).
Defined.

(** X19: the [while] loop of Prim's algorithm on a blank grid makes
    exactly [side * side - 1] rounds, one for every cell but the first:
    with less fuel the model is still running, with that much it
    returns. *)
Theorem PrimsAlgorithm_number_of_rounds side random w fuel :
  unit_interval random -> blank side w -> frontier w = [] ->
  (fuel < Z.to_nat (side * side - 1))%nat ->
  run_generator random fuel "0" w = OutOfFuel /\
  exists w', run_generator random (Z.to_nat (side * side - 1)) "0" w = Returns (tt, w').
Proof.
  intros Hr Hb Hf Hfuel.
  pose proof (blank_grid _ _ Hb) as Hg. pose proof (grid_side _ _ Hg) as Hside.
  pose proof (length_grid_cells side ltac:(lia)) as Hl.
  rewrite !run_generator_start. cbv zeta.
  change (String.eqb "0" "0") with true. cbv iota.
  rewrite (grid_rows _ _ Hg), (grid_columns _ _ Hg).
  set (start := (_, _)). set (w1 := set_random_calls _ w).
  assert (in_grid side start) as Hs by (by apply random_start).
  assert (blank side w1) as Hb1 by (by apply blank_set_random_calls).
  assert (cells w1 = cells (fresh_grid side)) as Hc1 by apply (grid_cells _ _ Hg).
  split.
  - destruct (PrimsAlgorithm_setup_spec side w1 start Hb1 Hf Hs) as (w2 & Hset & Hp & Hc).
    unfold PrimsAlgorithm, bind. rewrite Hset.
    apply (PrimsAlgorithm_while_out_of_fuel side random Hr); [done|].
    rewrite Hc, (grid_cells _ _ (tree_grid _ _ (prim_tree _ _ Hp))). lia.
  - destruct (PrimsAlgorithm_spec side random Hr (Z.to_nat (side * side - 1)) w1 start Hb1 Hf Hs)
      as (w' & Hrun & _); [rewrite Hc1; lia|]. by exists w'.
Qed.

Lemma PrimsAlgorithm_number_of_rounds_witness :
  unit_interval always_first /\ blank 3 (fresh_grid 3) /\ frontier (fresh_grid 3) = [] /\
  (7 < Z.to_nat (3 * 3 - 1))%nat /\
  run_generator always_first 7 "0" (fresh_grid 3) = OutOfFuel /\
  exists w', run_generator always_first (Z.to_nat (3 * 3 - 1)) "0" (fresh_grid 3)
               = Returns (tt, w').
Proof.
  assert (blank 3 (fresh_grid 3)) as Hb by (apply blank_fresh_grid; lia).
  assert (7 < Z.to_nat (3 * 3 - 1))%nat as Hf by (simpl; lia).
  split; [exact always_first_unit|]. split; [exact Hb|]. split; [reflexivity|].
  split; [exact Hf|].
  exact (PrimsAlgorithm_number_of_rounds 3 always_first (fresh_grid 3) 7
           always_first_unit Hb eq_refl Hf).
Defined.

(** X20: the [do ... while] loop of [Kruskals] on a blank grid of side
    at least 2 makes exactly one round for every edge of the grid,
    [2 * side * (side - 1)] rounds: every round takes one edge out of the
    pool, whether it opens a passage or not. *)
Theorem Kruskals_number_of_rounds side random w fuel :
  unit_interval random -> blank side w -> 2 <= side ->
  (fuel < Z.to_nat (2 * side * (side - 1)))%nat ->
  run_generator random fuel "2" w = OutOfFuel /\
  exists w', run_generator random (Z.to_nat (2 * side * (side - 1))) "2" w = Returns (tt, w').
Proof.
  intros Hr Hb Hside Hfuel. pose proof Hb as [Hg Hf Hv].
  rewrite !run_generator_start. cbv zeta.
  change (String.eqb "2" "0") with false. change (String.eqb "2" "1") with false.
  change (String.eqb "2" "2") with true. cbv iota.
  set (w1 := visit _ _).
  assert (grid_ok side w1) as Hg1 by (by apply grid_ok_visit, grid_ok_set_random_calls).
  pose proof (length_GetAllEdges_grid side w1 Hg1) as Hlen.
  pose proof (kruskal_inv_start side w1 Hg1 Hf) as Hinv.
  split; unfold Kruskals; unfold bind at 1; unfold get at 1.
  - apply (Kruskals_loop_out_of_fuel side random Hr); [done|lia].
  - destruct (Kruskals_loop_spec side random Hr (Z.to_nat (2 * side * (side - 1)))
                (GetAllEdges w1) _ w1 Hinv) as (w' & cm' & Hrun & _).
    + by apply (GetAllEdges_nonempty side).
    + lia.
    + by exists w'.
Qed.

Lemma Kruskals_number_of_rounds_witness :
  unit_interval always_first /\ blank 3 (fresh_grid 3) /\ 2 <= 3 /\
  (11 < Z.to_nat (2 * 3 * (3 - 1)))%nat /\
  run_generator always_first 11 "2" (fresh_grid 3) = OutOfFuel /\
  exists w', run_generator always_first (Z.to_nat (2 * 3 * (3 - 1))) "2" (fresh_grid 3)
               = Returns (tt, w').
Proof.
  assert (blank 3 (fresh_grid 3)) as Hb by (apply blank_fresh_grid; lia).
  assert (11 < Z.to_nat (2 * 3 * (3 - 1)))%nat as Hf by (simpl; lia).
  split; [exact always_first_unit|]. split; [exact Hb|]. split; [lia|]. split; [exact Hf|].
  exact (Kruskals_number_of_rounds 3 always_first (fresh_grid 3) 11
           always_first_unit Hb ltac:(lia) Hf).
Defined.

(** * The first version of the program *)

Lemma CutEdge_v1_eq a b w :
  CutEdge_v1 a b w =
  match CutEdge a b w with
  | Returns (_, w') => set_background (FindCellIndex a (cells w)) "rgb(255, 240, 240)" w'
  | Throws e => Throws e
  | OutOfFuel => OutOfFuel
  end.
Proof. reflexivity. Qed.

(** X21: on cells of the grid, [CutEdge] of the first version returns
    what the later [CutEdge] returns with the background of the first cell
    painted: the two open the same borders. *)
Theorem CutEdge_v1_paints_first_cell side w a b :
  grid_ok side w -> in_grid side a -> in_grid side b ->
  exists w', CutEdge a b w = Returns (tt, w') /\
             CutEdge_v1 a b w = Returns (tt, paint a "rgb(255, 240, 240)" w') /\
             forall c d, flag (paint a "rgb(255, 240, 240)" w') c d = flag w' c d.
Proof.
  intros Hg Ha Hb. destruct (CutEdge_returns side w a b Hg Ha Hb) as (w' & Hrun & Hg' & _).
  exists w'. split; [done|]. split; [|intros c d; apply flag_paint].
  rewrite CutEdge_v1_eq, Hrun.
  rewrite (grid_cells _ _ Hg), <- (grid_cells _ _ Hg').
  by apply (set_background_grid side).
Qed.

Lemma CutEdge_v1_paints_first_cell_witness :
  grid_ok 3 (fresh_grid 3) /\ in_grid 3 (1, 1) /\ in_grid 3 (1, 2) /\
  exists w', CutEdge (1, 1) (1, 2) (fresh_grid 3) = Returns (tt, w') /\
             CutEdge_v1 (1, 1) (1, 2) (fresh_grid 3)
               = Returns (tt, paint (1, 1) "rgb(255, 240, 240)" w') /\
             forall c d, flag (paint (1, 1) "rgb(255, 240, 240)" w') c d = flag w' c d.
Proof.
  assert (grid_ok 3 (fresh_grid 3)) as Hg by (apply grid_ok_fresh_grid; lia).
  assert (in_grid 3 (1, 1)) as Ha by (split; simpl; lia).
  assert (in_grid 3 (1, 2)) as Hb by (split; simpl; lia).
  split; [exact Hg|]. split; [exact Ha|]. split; [exact Hb|].
  exact (CutEdge_v1_paints_first_cell 3 (fresh_grid 3) (1, 1) (1, 2) Hg Ha Hb).
Defined.

Lemma PrimsAlgorithm_round_v1_eq random w :
  PrimsAlgorithm_round_v1 random w = PrimsAlgorithm_round random w.
Proof.
  unfold PrimsAlgorithm_round_v1, PrimsAlgorithm_round.
  cbv beta iota delta [bind get modify random_element random_below Math_random ret throw sleep].
  destruct (at_index (frontier w) _) as [randomCell|]; [|done].
  destruct (at_index (List.filter _ _) _) as [randomVisitedNeighbor|]; [|done].
  rewrite CutEdge_v1_eq.
  destruct (CutEdge randomCell randomVisitedNeighbor _) as [[[] w2]| |]; [|done..].
  cbn [cells]. destruct (set_background _ _ w2) as [[[] w3]| |]; done.
Qed.

(** X22: a round of the [while] loop of the first [PrimsAlgorithm] does
    to every state, throwing included, what a round of the later one
    does: moving the painting of the chosen cell out of [CutEdge] changed
    nothing. *)
Theorem PrimsAlgorithm_round_v1_same random fuel w :
  PrimsAlgorithm_round_v1 random w = PrimsAlgorithm_round random w /\
  PrimsAlgorithm_v1 random fuel w =
    while fuel (fun w => 0 <? Z.of_nat (length (frontier w))) (PrimsAlgorithm_round random) w.
Proof.
  split; [apply PrimsAlgorithm_round_v1_eq|].
  unfold PrimsAlgorithm_v1. apply agree_while. intros w'. apply PrimsAlgorithm_round_v1_eq.
Qed.

Lemma first_version_start side w0 : 0 < side -> frontier w0 = [] ->
  let w1 := set_visited (Array_fill_false (num_cells w0)) (build_grid (side * side) w0) in
  blank side w1 /\ frontier w1 = [] /\
  forall random fuel,
    GenerateMaze_v1 random fuel (build_grid_v1 (side * side) w0)
    = run_generator random fuel "0" w1.
Proof.
  intros Hs Hf w1. pose proof (blank_build_grid side w0 Hs) as [Hg Hfl Hv].
  split; [|split; [done|]].
  - split; [by apply grid_ok_set_visited|done|]. intros c. apply is_visited_reset.
  - intros random fuel. unfold GenerateMaze_v1, run_generator.
    unfold bind at 1. unfold modify at 1. unfold bind at 1. unfold modify at 1.
    change (set_cells _ _) with w1.
    change (String.eqb "0" "0") with true. cbv iota.
    unfold bind at 1 3. destruct (pick_start random w1) as [[start w2]| |]; [|done..].
    unfold PrimsAlgorithm. unfold bind at 1 2.
    destruct (PrimsAlgorithm_setup _ _ w2) as [[[] w3]| |]; [|done..].
    unfold PrimsAlgorithm_v1. apply agree_while. intros w'. apply PrimsAlgorithm_round_v1_eq.
Qed.

(** X23: the first version of the program also carves a spanning
    tree: for each of its four grid sizes, its [GenerateGrid] followed by
    its [GenerateMaze] returns with every cell connected, one open passage
    less than there are cells, no cycle, and an empty frontier, although
    [visited] is reset to 9 entries whatever the size. *)
Theorem first_version_spanning_tree random v side w0 :
  unit_interval random -> frontier w0 = [] ->
  (v, side) ∈ [("0"%string, 3); ("1"%string, 5); ("2"%string, 10); ("3"%string, 25)] ->
  exists w, (let* _ := GenerateGrid_v1 v in
             GenerateMaze_v1 random (Z.to_nat (2 * side * side))) w0 = Returns (tt, w) /\
            spanning_tree w /\ frontier w = [] /\
            Z.of_nat (length (cells w)) = side * side.
Proof.
  intros Hr Hf Hv.
  assert (0 < side /\ GenerateGrid_v1 v w0 = Returns (tt, build_grid_v1 (side * side) w0))
    as [Hs Hgrid].
  { repeat (apply elem_of_cons in Hv as [[= -> ->]|Hv]; [split; [lia|done]|]).
    by apply elem_of_nil in Hv. }
  destruct (first_version_start side w0 Hs Hf) as (Hb & Hf1 & Hsame).
  destruct (prims_run side random Hr _ Hb Hf1) as (w & Hrun & Hinv & Hfr).
  exists w. split; [|split; [by eapply prim_inv_done|split; [done|]]].
  - unfold bind at 1. rewrite Hgrid. by rewrite Hsame.
  - apply grid_ok_length, Hinv.
Qed.

Lemma first_version_spanning_tree_witness :
  unit_interval always_first /\ frontier page_load = [] /\
  ("2"%string, 10) ∈ [("0"%string, 3); ("1"%string, 5); ("2"%string, 10); ("3"%string, 25)] /\
  exists w, (let* _ := GenerateGrid_v1 "2" in
             GenerateMaze_v1 always_first (Z.to_nat (2 * 10 * 10))) page_load = Returns (tt, w) /\
            spanning_tree w /\ frontier w = [] /\
            Z.of_nat (length (cells w)) = 10 * 10.
Proof.
  assert (("2"%string, 10) ∈ [("0"%string, 3); ("1"%string, 5); ("2"%string, 10);
                              ("3"%string, 25)]) as Hv by (right; right; left).
  split; [exact always_first_unit|]. split; [reflexivity|]. split; [exact Hv|].
  apply (first_version_spanning_tree always_first "2" 10 page_load);
    [exact always_first_unit|reflexivity|exact Hv].
Defined.

(** X24: the first [GenerateGrid] knows four sizes: for the values 0 to
    3 it creates the elements of a grid of side 3, 5, 10 or 25 and empties
    [cells], leaving [visited] as it was; for every other value, the value
    4 of the later version included, it throws the error
    [Maze dimensions not found!]. *)
Theorem GenerateGrid_v1_outcome (v : string) (w : world) :
  (exists side,
     (v, side) ∈ [("0"%string, 3); ("1"%string, 5); ("2"%string, 10); ("3"%string, 25)] /\
     GenerateGrid_v1 v w = Returns (tt, build_grid_v1 (side * side) w) /\
     cells (build_grid_v1 (side * side) w) = [] /\
     visited (build_grid_v1 (side * side) w) = visited w /\
     num_rows (build_grid_v1 (side * side) w) = side /\
     forall i, is_Some (document (build_grid_v1 (side * side) w) !! i) <-> 0 <= i < side * side) \/
  ((v ∉ ["0"%string; "1"%string; "2"%string; "3"%string]) /\
   GenerateGrid_v1 v w = Throws (Error "Maze dimensions not found!")).
Proof.
  assert (forall side, 0 < side ->
            forall i, is_Some (document (build_grid_v1 (side * side) w) !! i)
                      <-> 0 <= i < side * side) as Hdoc.
  { intros side Hs. apply (grid_elements side (build_grid (side * side) w)).
    by apply blank_build_grid. }
  unfold GenerateGrid_v1.
  destruct (String.eqb_spec v "0") as [->|H0].
  { left. exists 3. split; [repeat constructor|]. split; [done|]. split; [done|].
    split; [done|]. split; [reflexivity|]. apply Hdoc. lia. }
  destruct (String.eqb_spec v "1") as [->|H1].
  { left. exists 5. split; [repeat constructor|]. split; [done|]. split; [done|].
    split; [done|]. split; [reflexivity|]. apply Hdoc. lia. }
  destruct (String.eqb_spec v "2") as [->|H2].
  { left. exists 10. split; [repeat constructor|]. split; [done|]. split; [done|].
    split; [done|]. split; [reflexivity|]. apply Hdoc. lia. }
  destruct (String.eqb_spec v "3") as [->|H3].
  { left. exists 25. split; [repeat constructor|]. split; [done|]. split; [done|].
    split; [done|]. split; [reflexivity|]. apply Hdoc. lia. }
  right. split; [|done]. rewrite !not_elem_of_cons. repeat split; try done. apply not_elem_of_nil.
Qed.

(** * The stack of the backtracker is a path of the maze *)

Lemma walk_mono w w' path :
  (forall x y, passage w x y -> passage w' x y) -> walk w path -> walk w' path.
Proof.
  intros H. induction path as [|a [|b rest] IH]; [done..|].
  intros [Hab Hw]. split; [by apply H|by apply IH].
Qed.

Lemma walk_snoc w path current n :
  walk w (path ++ [current]) -> passage w current n -> walk w ((path ++ [current]) ++ [n]).
Proof.
  intros Hw Hp. induction path as [|a [|b rest] IH]; [by split| |].
  - destruct Hw as [Hac _]. by repeat split.
  - destruct Hw as [Hab Hw]. split; [done|]. by apply IH.
Qed.

Lemma walk_init w path current : walk w (path ++ [current]) -> walk w path.
Proof.
  induction path as [|a [|b rest] IH]; [done..|].
  intros [Hab Hw]. split; [done|]. by apply IH.
Qed.

Section Stack.
Context (side : Z) (random : nat -> Q).
Hypothesis random_unit : unit_interval random.

(** What a call does to the stack: it pops the top, or it pushes an
    unvisited neighbour of the top to which it has opened a passage. *)
Lemma RecursiveBacktrack_body_stack w path current :
  backtrack_inv side w path -> last path = Some current ->
  exists path' w',
    RecursiveBacktrack_body random path current w = Returns (path', w') /\
    (forall x y, passage w x y -> passage w' x y) /\
    (path' = removelast path \/
     exists n, path' = path ++ [n] /\ (n ∉ path) /\ passage w' current n) /\
    (forall c d, in_grid side c -> flag w c d = true -> flag w' c d = true).
Proof.
  intros [Ht Hpath Hclosed] Hlast. pose proof (tree_grid _ _ Ht) as Hg.
  apply last_Some_snoc in Hlast as [rest ->].
  destruct (Hpath current) as [Hcur Hvcur]; [apply elem_of_app; right; left|].
  unfold RecursiveBacktrack_body. unfold bind at 1. unfold get at 1.
  unfold bind at 1. rewrite (set_background_grid side) by done.
  unfold bind at 1. unfold sleep at 1, ret at 1. unfold bind at 1. unfold get at 1.
  set (w1 := paint current _ w).
  assert (grid_ok side w1) as Hg1 by (by apply grid_ok_paint).
  assert (forall x y, passage w x y -> passage w1 x y) as Hp1.
  { intros x y. by apply (passage_paint_all side). }
  set (unv := List.filter _ _).
  destruct unv as [|n0 unv0] eqn:Eunv.
  - change (0 <? Z.of_nat (length (@nil cell))) with false. cbv iota.
    unfold bind. rewrite (set_background_grid side w1 current) by done. unfold ret.
    eexists _, _. split; [done|]. split; [|split; [by left|]].
    + intros x y Hxy. apply (passage_paint_all side); [done|]. by apply Hp1.
    + intros c d _ Hf. unfold w1. by rewrite !flag_paint.
  - assert ((0 <? Z.of_nat (length (n0 :: unv0))) = true) as -> by (apply Z.ltb_lt; simpl; lia).
    destruct (random_element_nonempty random (n0 :: unv0) w1 random_unit)
      as (k & n & Hk & _ & Hrand); [done|].
    unfold bind at 1. rewrite Hrand. set (w2 := set_random_calls _ w1).
    assert (n ∈ List.filter (fun n => negb (is_visited w1 n)) (Neighbors w1 current.1 current.2))
      as Hn.
    { fold unv. rewrite Eunv. by eapply list_elem_of_lookup_2. }
    apply list_elem_of_In, List.filter_In in Hn as [Hn Hvn]. apply list_elem_of_In in Hn.
    apply negb_true_iff in Hvn.
    apply (Neighbors_spec side) in Hn as (d & -> & Hnin); [|done..].
    assert (grid_ok side w2) as Hg2 by (by apply grid_ok_set_random_calls).
    unfold bind at 1. rewrite (CutEdge_back side w2 current d) by done.
    set (n := step_to current d) in *.
    unfold bind, mark_visited, modify, ret.
    fold (visit n (cut n (opposite d) w2)).
    assert (step_to n (opposite d) = current) as Hback by apply step_to_opposite.
    assert (forall x y, passage (visit n (cut n (opposite d) w2)) x y <->
              passage w2 x y \/ (x = n /\ y = current) \/ (x = current /\ y = n)) as Hgrow.
    { intros x y.
      assert (in_grid side (step_to n (opposite d))) as Hcur' by (by rewrite Hback).
      pose proof (passage_grow side w2 n (opposite d) x y Hg2 Hnin Hcur') as H.
      by rewrite Hback in H. }
    eexists _, _. split; [done|]. split.
    + intros x y Hxy. apply Hgrow. left.
      apply (passage_flag_ext side w1 w2); [done|done|done|]. by apply Hp1.
    + split.
      * right. exists n. split; [done|]. split; [|apply Hgrow; tauto].
        intros Hin. destruct (Hpath n Hin) as [_ Hv]. unfold w1 in Hvn.
        assert (is_visited (paint current "rgb(255, 200, 200)" w) n = is_visited w n) as E by done.
        congruence.
      * intros c e Hc Hf. rewrite flag_visit.
        apply (flag_cut side w2 n (opposite d) c e); [done|done|by rewrite Hback|done|].
        left. unfold w2, w1. change (flag (set_random_calls _ ?u) c e) with (flag u c e).
        by rewrite flag_paint.
Qed.

Lemma backtrack_reaches_walk path w : 0 < side ->
  backtrack_reaches random side path w -> NoDup path /\ walk w path.
Proof.
  intros Hs. induction 1 as [start w Hstart|path current w path' w' Hreach IH Hlast Hrun].
  - split; [apply NoDup_singleton|done].
  - destruct IH as [Hnd Hw].
    pose proof (backtrack_reaches_inv side random random_unit Hs path w Hreach) as Hinv.
    destruct (RecursiveBacktrack_body_stack w path current Hinv Hlast)
      as (p & w1 & Hrun' & Hmono & Hshape & _).
    rewrite Hrun in Hrun'. injection Hrun' as <- <-.
    apply last_Some_snoc in Hlast as [rest ->].
    destruct Hshape as [->|(n & -> & Hn & Hp)].
    + rewrite removelast_snoc. split.
      * by apply NoDup_app in Hnd as (? & _ & _).
      * apply (walk_mono w); [done|]. by eapply walk_init.
    + split.
      * apply NoDup_app. split; [done|]. split; [|apply NoDup_singleton].
        intros c Hc ->%list_elem_of_singleton. done.
      * apply walk_snoc; [|done]. by apply (walk_mono w).
Qed.

End Stack.

(** X25: in every state a run of the backtracker reaches, the stack is
    a simple path of the maze carved so far: it holds no cell twice, its
    cells are visited cells of the grid, and each cell is joined to the
    next one by an open passage. *)
Theorem RecursiveBacktrack_stack_is_path side random path w :
  0 < side -> unit_interval random -> backtrack_reaches random side path w ->
  NoDup path /\ walk w path /\
  forall c, c ∈ path -> in_grid side c /\ is_visited w c = true.
Proof.
  intros Hs Hr Hreach.
  destruct (backtrack_reaches_walk side random Hr path w Hs Hreach) as [Hnd Hw].
  split; [done|]. split; [done|].
  apply (bt_path side w path). by apply (backtrack_reaches_inv side random).
Qed.

Lemma RecursiveBacktrack_stack_is_path_witness :
  0 < 3 /\ unit_interval always_first /\
  backtrack_reaches always_first 3 [(0, 0); (0, 1)]
    (visit (0, 1) (cut (0, 1) Left (set_random_calls 3
       (paint (0, 0) "rgb(255, 200, 200)" (visit (0, 0) (set_random_calls 2 (fresh_grid 3))))))) /\
  NoDup [((0, 0) : cell); (0, 1)] /\
  walk (visit (0, 1) (cut (0, 1) Left (set_random_calls 3
          (paint (0, 0) "rgb(255, 200, 200)" (visit (0, 0) (set_random_calls 2 (fresh_grid 3)))))))
       [(0, 0); (0, 1)].
Proof.
  assert (backtrack_reaches always_first 3 [(0, 0); (0, 1)]
    (visit (0, 1) (cut (0, 1) Left (set_random_calls 3
       (paint (0, 0) "rgb(255, 200, 200)" (visit (0, 0) (set_random_calls 2 (fresh_grid 3)))))))) as Hp.
  { apply (backtrack_next always_first 3 [(0, 0)] (0, 0)
             (visit (0, 0) (set_random_calls 2 (fresh_grid 3)))).
    - apply backtrack_first. vm_compute. reflexivity.
    - reflexivity.
    - vm_compute. reflexivity. }
  split; [lia|]. split; [exact always_first_unit|]. split; [exact Hp|].
  destruct (RecursiveBacktrack_stack_is_path 3 always_first _ _ ltac:(lia) always_first_unit Hp)
    as (H1 & H2 & _).
  split; [exact H1|exact H2].
Defined.

(** X26: at every test of the [while] loop of Prim's algorithm the
    frontier holds, each once, exactly the unvisited cells of the grid
    that have a visited neighbour. *)
Theorem PrimsAlgorithm_frontier_exact side random w :
  0 < side -> unit_interval random -> prims_reaches random side w ->
  NoDup (frontier w) /\
  forall c, c ∈ frontier w <->
    in_grid side c /\ is_visited w c = false /\
    exists d, in_grid side (step_to c d) /\ is_visited w (step_to c d) = true.
Proof.
  intros Hs Hr Hreach.
  pose proof (prims_reaches_inv side random Hr Hs w Hreach) as [Ht Hnd Hfr Hbd].
  split; [done|]. intros c. split; [apply Hfr|].
  intros (Hc & Hv & d & Hn & Hvn).
  rewrite <- (step_to_opposite c d). apply Hbd; try done; by rewrite step_to_opposite.
Qed.

Lemma PrimsAlgorithm_frontier_exact_witness :
  0 < 3 /\ unit_interval always_first /\ prims_reaches always_first 3 prims_started /\
  NoDup (frontier prims_started) /\
  forall c, c ∈ frontier prims_started <->
    in_grid 3 c /\ is_visited prims_started c = false /\
    exists d, in_grid 3 (step_to c d) /\ is_visited prims_started (step_to c d) = true.
Proof.
  assert (prims_reaches always_first 3 prims_started) as Hp.
  { apply (prims_first always_first 3 (0, 0) (visit (0, 0) (set_random_calls 2 (fresh_grid 3)))).
    - vm_compute. reflexivity.
    - vm_compute. reflexivity. }
  split; [lia|]. split; [exact always_first_unit|]. split; [exact Hp|].
  exact (PrimsAlgorithm_frontier_exact 3 always_first prims_started ltac:(lia)
           always_first_unit Hp).
Defined.

(** X27: for a value of the algorithm drop-down other than 0, 1 and 2,
    [GenerateMaze] runs no generator: on a blank grid it returns with the
    entrance and the exit open and not a single passage between cells. *)
Theorem GenerateMaze_unknown_algorithm side random fuel alg w :
  blank side w -> alg <> "0"%string -> alg <> "1"%string -> alg <> "2"%string ->
  exists w', GenerateMaze random fuel alg w = Returns (tt, w') /\
             (forall x y, ~ passage w' x y) /\
             flag w' (0, 0) Top = true /\ flag w' (side - 1, side - 1) Bottom = true.
Proof.
  intros Hb H0 H1 H2. pose proof (blank_grid _ _ Hb) as Hg.
  unfold GenerateMaze, GenerateMaze_awaited.
  apply String.eqb_neq in H0, H1, H2. rewrite H0, H1, H2.
  unfold bind at 1. unfold bind at 1. rewrite pick_start_eq. cbv zeta. unfold ret at 1.
  set (w1 := visit _ _).
  assert (grid_ok side w1) as Hg1 by (by apply grid_ok_visit, grid_ok_set_random_calls).
  destruct (CreateEntranceAndExit_keeps_passages_aux side w1 Hg1) as (w' & Hrun & Hp & Hf0 & Hf1).
  exists w'. split; [done|]. split; [|done].
  intros x y Hxy. apply Hp in Hxy.
  apply (passage_flag_ext side w w1) in Hxy; [|done|done|done].
  by apply (blank_no_passage side w x y).
Qed.

Lemma GenerateMaze_unknown_algorithm_witness :
  blank 3 (fresh_grid 3) /\ "3"%string <> "0"%string /\ "3"%string <> "1"%string /\
  "3"%string <> "2"%string /\
  exists w', GenerateMaze always_first 0 "3" (fresh_grid 3) = Returns (tt, w') /\
             (forall x y, ~ passage w' x y) /\
             flag w' (0, 0) Top = true /\ flag w' (3 - 1, 3 - 1) Bottom = true.
Proof.
  assert (blank 3 (fresh_grid 3)) as Hb by (apply blank_fresh_grid; lia).
  split; [exact Hb|]. split; [discriminate|]. split; [discriminate|]. split; [discriminate|].
  apply (GenerateMaze_unknown_algorithm 3 always_first 0 "3" (fresh_grid 3) Hb); discriminate.
Defined.

(** * The layering reaches the entrance *)

Section Reach.
Context (side : Z).

Lemma bfs_closed_ext w0 w w' l : same_maze side w w' ->
  bfs_closed w0 w l -> bfs_closed w0 w' l.
Proof.
  intros Hs [H0 Hcl].
  assert (forall c, is_visited w' c = is_visited w c) as Hvis
    by (intros c; by apply (same_maze_visited side)).
  split; [by rewrite Hvis|]. intros a b. rewrite !Hvis. apply Hcl.
Qed.

Lemma bfs_closed_start w0 :
  bfs_closed w0 (set_visited (Array_fill_false (num_cells w0)) w0) layering_start.
Proof.
  split; [right; left|]. intros a b Ha. by rewrite is_visited_reset in Ha.
Qed.

Lemma bfs_closed_step w0 w l c dq rest nbs :
  grid_ok side w0 -> bfs_inv side w0 w l -> bfs_closed w0 w l ->
  queue l = (c, dq) :: rest -> (forall n, n ∈ nbs <-> passage w0 c n) ->
  bfs_closed w0 (visit c w)
    (discovered (visit c w) (index_of side c) dq (mkLayering rest (depthMap l) (writes l)) nbs).
Proof.
  intros Hg0 Hb [H0 Hcl] Hq Hnbs. pose proof (bfs_grid _ _ _ _ Hb) as Hg.
  destruct (bfs_queue _ _ _ _ Hb c dq) as (Hc & _ & _); [rewrite Hq; left|].
  assert (forall x, is_visited w x = true -> is_visited (visit c w) x = true) as Hmono.
  { intros x Hx. unfold is_visited, visit in *. simpl.
    destruct (decide (FindCellIndex c (cells w) = FindCellIndex x (cells w))) as [E|E].
    - by rewrite E, lookup_insert_eq.
    - by rewrite lookup_insert_ne. }
  assert (forall x, x ∈ ((c, dq) :: rest).*1 ->
            is_visited (visit c w) x = true \/
            x ∈ (queue (discovered (visit c w) (index_of side c) dq
                          (mkLayering rest (depthMap l) (writes l)) nbs)).*1) as Hold.
  { intros x Hx. simpl in Hx. apply elem_of_cons in Hx as [->|Hx].
    - left. apply is_visited_visit_same.
    - right. rewrite discovered_queue. cbn [queue]. rewrite fmap_app, elem_of_app. by left. }
  rewrite Hq in H0, Hcl. split.
  - destruct H0 as [H0|H0]; [left; by apply Hmono|by apply Hold].
  - intros a b Ha Hab. destruct (passage_cells side w0 a b Hg0 Hab) as (Hain & Hbin & _).
    apply (is_visited_visit side w c a Hg Hc Hain) in Ha as [->|Ha].
    + destruct (is_visited (visit c w) b) eqn:Hvb; [by left|right].
      rewrite discovered_queue. cbn [queue]. rewrite fmap_app, elem_of_app. right.
      rewrite <- list_fmap_compose. apply list_elem_of_fmap. exists b. split; [done|].
      apply elem_of_found. split; [by apply Hnbs|done].
    + destruct (Hcl a b Ha Hab) as [Hb'|Hb']; [left; by apply Hmono|by apply Hold].
Qed.

Lemma depth_of_key w0 w l k : bfs_inv side w0 w l ->
  k ∈ (write_key <$> writes l) -> exists d, depthMap l !! k = Some (Some d).
Proof.
  intros Hb Hk. apply list_elem_of_fmap in Hk as (e & -> & He).
  pose proof (bfs_once _ _ _ _ Hb) as Ho.
  destruct (written_value_number l e Ho He) as [d Hd]. exists d.
  rewrite (once_kept _ Ho e He). by rewrite Hd.
Qed.

Lemma closed_reach w0 w l a b : grid_ok side w0 ->
  queue l = [] -> bfs_closed w0 w l -> rtc (passage w0) a b ->
  is_visited w a = true -> is_visited w b = true.
Proof.
  intros Hg0 Hq [_ Hcl] Hreach. induction Hreach as [|x y z Hxy _ IH]; [done|].
  intros Hx. apply IH. destruct (Hcl x y Hx Hxy) as [H|H]; [done|].
  rewrite Hq in H. by apply elem_of_nil in H.
Qed.

Lemma Dijkstras_layering_reaches w0 : grid_ok side w0 -> acyclic w0 ->
  rtc (passage w0) (0, 0) (side - 1, side - 1) ->
  forall fuel l w, bfs_inv side w0 w l -> bfs_closed w0 w l ->
    (length (cells w) <= fuel + visited_count w)%nat ->
    exists l' w' d, Dijkstras_layering fuel l w = Returns (l', w') /\
                    depthMap l' !! index_of side (side - 1, side - 1) = Some (Some d).
Proof.
  intros Hg0 Hac Hconn. pose proof (grid_side _ _ Hg0) as Hside.
  assert (in_grid side (side - 1, side - 1)) as Hcorner by (split; simpl; lia).
  assert (forall l w, bfs_inv side w0 w l -> bfs_closed w0 w l -> queue l = [] ->
            exists d, depthMap l !! index_of side (side - 1, side - 1) = Some (Some d)) as Hend.
  { intros l w Hb Hcl Hq. apply (depth_of_key w0 w l); [done|].
    apply (bfs_keys _ _ _ _ Hb). exists (side - 1, side - 1). split; [done|]. split; [done|].
    left. apply (closed_reach w0 w l (0, 0)); try done.
    destruct Hcl as [[H|H] _]; [done|]. rewrite Hq in H. by apply elem_of_nil in H. }
  induction fuel as [|fuel IH]; intros l w Hb Hcl Hfuel.
  - destruct (queue l) as [|[c dq] rest] eqn:Hq.
    + destruct (Hend l w Hb Hcl Hq) as [d Hd].
      exists l, w, d. split; [|done]. unfold Dijkstras_layering. by rewrite Hq.
    + destruct (bfs_queue _ _ _ _ Hb c dq) as (Hc & Hcv & _); [rewrite Hq; left|].
      pose proof (unvisited_count_pos side w c (bfs_grid _ _ _ _ Hb) Hc Hcv). lia.
  - destruct (queue l) as [|[c dq] rest] eqn:Hq.
    + destruct (Hend l w Hb Hcl Hq) as [d Hd].
      exists l, w, d. split; [|done]. cbn [Dijkstras_layering]. by rewrite Hq.
    + pose proof (bfs_grid _ _ _ _ Hb) as Hg.
      destruct (bfs_queue _ _ _ _ Hb c dq) as (Hc & Hcv & Hcd); [rewrite Hq; left|].
      cbn [Dijkstras_layering]. rewrite Hq.
      unfold bind at 1. unfold get at 1.
      replace (c.1, c.2) with c by (by destruct c).
      unfold bind at 1. unfold modify at 1. fold (visit c w).
      assert (grid_ok side (visit c w)) as Hg1 by (by apply grid_ok_visit).
      unfold bind at 1. change (cells w) with (cells (visit c w)) at 1.
      rewrite (set_background_grid side) by done.
      set (w2 := paint c _ (visit c w)).
      assert (same_maze side (visit c w) w2) as Hs2 by (by apply same_maze_paint).
      assert (grid_ok side w2) as Hg2 by apply Hs2.
      rewrite (grid_rows _ _ Hg), (grid_columns _ _ Hg).
      destruct ((c.1 =? side - 1) && (c.2 =? side - 1)) eqn:Ecorner.
      * apply andb_true_iff in Ecorner as [E1 E2]. apply Z.eqb_eq in E1, E2.
        assert (c = (side - 1, side - 1)) as <- by (destruct c; simpl in *; by subst).
        destruct (depth_of_key w0 w l (index_of side c)) as [d Hd]; [done| |].
        { apply (bfs_keys _ _ _ _ Hb). exists c. split; [done|]. split; [done|].
          right. rewrite Hq. left. }
        eexists _, _, d. split; [done|]. done.
      * unfold bind at 1. unfold sleep at 1, ret at 1.
        unfold bind at 1. rewrite (ConnectedNeighbors_grid side w2 c) by done.
        set (nbs := _ ++ _).
        assert (forall n, n ∈ nbs <-> passage w0 c n) as Hnbs.
        { intros n. rewrite <- (passage_flag_ext side w0 w2 c n); [| done | done |].
          - unfold passage. rewrite (ConnectedNeighbors_grid side w2 c) by done. fold nbs.
            split; [eauto|]. by intros (l1 & [= <-] & H).
          - intros x d. rewrite (proj2 (proj2 (proj2 Hs2))). apply (bfs_walls _ _ _ _ Hb). }
        assert (forall n, n ∈ nbs -> in_grid side n) as Hnin.
        { intros n Hn. apply Hnbs in Hn. by apply (passage_cells side w0) in Hn as (_ & ? & _). }
        unfold Map_get. rewrite (grid_ok_index side w c) by done. rewrite Hcd.
        cbn [mjoin option_join].
        destruct (discover_spec side nbs (index_of side c) dq w2
                    (mkLayering rest (depthMap l) (writes l)) w2 (same_maze_refl side w2 Hg2) Hnin)
          as (w3 & Hd & Hs3).
        unfold bind at 1. rewrite Hd.
        assert (same_maze side (visit c w) w3) as Hs13 by (by eapply same_maze_trans).
        apply IH.
        -- apply (bfs_inv_ext side w0 (visit c w)); [done|].
           rewrite (discovered_ext (visit c w) w2) by done.
           apply (bfs_step side w0 w l c dq rest); try done. apply NoDup_open_sides.
        -- apply (bfs_closed_ext w0 (visit c w)); [done|].
           rewrite (discovered_ext (visit c w) w2) by done.
           by apply (bfs_closed_step w0 w l c dq rest).
        -- assert (visited_count w3 = S (visited_count w)) as ->.
           { rewrite (visited_count_ext (visit c w) w3).
             - by apply (visited_count_visit side).
             - apply Hs13.
             - intros x. by apply (same_maze_visited side). }
           assert (cells w3 = cells w) as -> by apply Hs13.
           lia.
Qed.

End Reach.

(** X28: when the passages lead from (0,0) to the bottom-right cell of
    a maze without cycles, as in every generated maze, the layering loop
    returns with a depth recorded for the bottom-right cell, so the second
    loop of [Dijkstras] starts from a [maxDepth] that is a number. *)
Theorem Dijkstras_layering_finds_entrance side w :
  grid_ok side w -> acyclic w -> rtc (passage w) (0, 0) (side - 1, side - 1) ->
  exists l w' d, Dijkstras_phase1 (Z.to_nat (side * side)) w = Returns (l, w') /\
                 Map_get (depthMap l) (side * side - 1) = Some d.
Proof.
  intros Hg Hac Hconn. pose proof (grid_side _ _ Hg) as Hside.
  pose proof (length_grid_cells side ltac:(lia)) as Hlen.
  destruct (Dijkstras_layering_reaches side w Hg Hac Hconn (Z.to_nat (side * side))
              layering_start (set_visited (Array_fill_false (num_cells w)) w))
    as (l & w' & d & Hrun & Hd).
  - by apply bfs_inv_start.
  - apply bfs_closed_start.
  - rewrite visited_count_reset. simpl. rewrite (grid_cells _ _ Hg). lia.
  - exists l, w', d. split; [done|]. unfold Map_get.
    replace (side * side - 1) with (index_of side (side - 1, side - 1))
      by (unfold index_of; simpl; lia).
    by rewrite Hd.
Qed.

Lemma Dijkstras_layering_finds_entrance_witness :
  grid_ok 3 serpentine /\ acyclic serpentine /\ rtc (passage serpentine) (0, 0) (3 - 1, 3 - 1) /\
  exists l w' d, Dijkstras_phase1 (Z.to_nat (3 * 3)) serpentine = Returns (l, w') /\
                 Map_get (depthMap l) (3 * 3 - 1) = Some d.
Proof.
  pose proof serpentine_tree as Ht.
  assert (rtc (passage serpentine) (0, 0) (3 - 1, 3 - 1)) as Hc.
  { apply (tree_connected 3 serpentine Ht); [split; simpl; lia|split; simpl; lia| |];
      vm_compute; reflexivity. }
  split; [apply Ht|]. split; [apply Ht|]. split; [exact Hc|].
  apply (Dijkstras_layering_finds_entrance 3 serpentine); [apply Ht|apply Ht|exact Hc].
Defined.

(** * [GenerateMaze] and the detached calls of the backtracker *)

Lemma with_background_twice colour s :
  with_background colour (with_background colour s) = with_background colour s.
Proof. done. Qed.

Lemma with_background_border colour d colour' s :
  with_background colour (with_border d colour' s)
  = with_border d colour' (with_background colour s).
Proof. by destruct d. Qed.

Lemma paint_twice c colour w : paint c colour (paint c colour w) = paint c colour w.
Proof.
  unfold paint, set_document. cbn [cells document num_cells num_rows num_columns
    visited frontier random_calls]. f_equal.
  apply map_eq. intros i. rewrite !lookup_alter.
  repeat case_decide; try done. by destruct (document w !! _).
Qed.

Lemma paint_open_border c colour a d w :
  paint c colour (open_border a d w) = open_border a d (paint c colour w).
Proof.
  unfold paint, open_border, set_document. cbn [cells document num_cells num_rows num_columns
    visited frontier random_calls]. f_equal.
  apply map_eq. intros i. rewrite !lookup_alter.
  repeat case_decide; try done; try (exfalso; congruence).
  match goal with H : FindCellIndex a _ = FindCellIndex c _ |- _ => rewrite H end.
  destruct (document w !! _); [|done]. cbn [fmap option_fmap option_map].
  by rewrite with_background_border.
Qed.

Section Awaited.
Context (side : Z) (random : nat -> Q).
Hypothesis random_unit : unit_interval random.

Lemma RecursiveBacktrack_body_split path current w : last path = Some current ->
  RecursiveBacktrack_body random path current w =
  (let* _ := RecursiveBacktrack_enter path in
   let* _ := sleep in
   RecursiveBacktrack_resume random path current) w.
Proof. intros H. unfold RecursiveBacktrack_enter. rewrite H. reflexivity. Qed.

Lemma backtrack_inv_ext w w' path :
  grid_ok side w' -> (forall x y, passage w' x y <-> passage w x y) ->
  (forall c, is_visited w' c = is_visited w c) ->
  backtrack_inv side w path -> backtrack_inv side w' path.
Proof.
  intros Hg' Hp Hv [Ht Hpath Hcl]. split.
  - apply (tree_inv_ext side w); try done.
    by rewrite (grid_cells _ _ Hg'), (grid_cells _ _ (tree_grid _ _ Ht)).
  - intros c Hc. rewrite Hv. by apply Hpath.
  - intros c d. rewrite !Hv. apply Hcl.
Qed.

Lemma RecursiveBacktrack_enter_spec w path : backtrack_inv side w path ->
  exists w', RecursiveBacktrack_enter path w = Returns (tt, w') /\
    backtrack_inv side w' path /\ visited_count w' = visited_count w /\
    (forall c d, flag w' c d = flag w c d) /\
    (forall current, last path = Some current -> paint current "rgb(255, 200, 200)" w' = w').
Proof.
  intros Hinv. pose proof (tree_grid _ _ (bt_tree _ _ _ Hinv)) as Hg.
  unfold RecursiveBacktrack_enter. destruct (last path) as [current|] eqn:Hlast.
  - assert (in_grid side current) as Hc.
    { apply (bt_path _ _ _ Hinv). apply last_Some_snoc in Hlast as [rest ->].
      apply elem_of_app. right. left. }
    unfold bind, get. rewrite (set_background_grid side w current _ Hg Hc).
    eexists. split; [done|]. split; [|split; [done|split]].
    + apply (backtrack_inv_ext w); [by apply grid_ok_paint| |done|done].
      intros x y. by apply (passage_paint_all side).
    + intros c d. apply flag_paint.
    + intros c' [= <-]. apply paint_twice.
  - exists w. split; [done|]. split; [done|]. split; [done|]. split; [done|].
    by intros c [=].
Qed.

Lemma entrance_spec w path : backtrack_inv side w path ->
  exists w', CreateEntranceAndExit w = Returns (tt, w') /\
    backtrack_inv side w' path /\ visited_count w' = visited_count w /\
    flag w' (0, 0) Top = true /\ flag w' (side - 1, side - 1) Bottom = true /\
    (forall current colour, paint current colour w = w -> paint current colour w' = w').
Proof.
  intros Hinv. pose proof (tree_grid _ _ (bt_tree _ _ _ Hinv)) as Hg.
  destruct (CreateEntranceAndExit_keeps_passages_aux side w Hg) as (w' & Hrun & Hp & Hf0 & Hf1).
  exists w'. split; [done|].
  rewrite (CreateEntranceAndExit_grid side w Hg) in Hrun. injection Hrun as <-.
  split; [|split; [done|split; [done|split; [done|]]]].
  - apply (backtrack_inv_ext w); [by repeat apply grid_ok_open_border|done|done|done].
  - intros current colour Hpainted. by rewrite !paint_open_border, Hpainted.
Qed.

Lemma RecursiveBacktrack_awaited_spec w path current :
  backtrack_inv side w path -> last path = Some current ->
  exists path' w',
    RecursiveBacktrack_awaited random path w = Returns (path', w') /\
    backtrack_inv side w' path' /\
    (forall c, last path' = Some c -> paint c "rgb(255, 200, 200)" w' = w') /\
    ((visited_count w' = S (visited_count w) /\ length path' = S (length path)) \/
     (visited_count w' = visited_count w /\ S (length path') = length path)).
Proof.
  intros Hinv Hlast.
  destruct (RecursiveBacktrack_body_spec side random random_unit w path current Hinv Hlast)
    as (path' & w1 & Hbody & Hinv1 & Hstep).
  destruct (RecursiveBacktrack_enter_spec w1 path' Hinv1) as (w' & Henter & Hinv' & Hvc & _ & Hp).
  exists path', w'. split; [|split; [done|split; [done|by rewrite Hvc]]].
  rewrite RecursiveBacktrack_body_split in Hbody by done.
  unfold RecursiveBacktrack_awaited. rewrite Hlast.
  unfold bind at 1. unfold bind at 1 in Hbody.
  destruct (RecursiveBacktrack_enter path w) as [[[] w0]| |]; [|done..].
  unfold bind at 1. unfold bind at 1 in Hbody. unfold sleep at 1, ret at 1.
  unfold sleep at 1, ret at 1 in Hbody.
  unfold bind at 1. rewrite Hbody. unfold bind. by rewrite Henter.
Qed.

Lemma RecursiveBacktrack_detached_eq fuel path current w :
  last path = Some current -> grid_ok side w -> in_grid side current ->
  paint current "rgb(255, 200, 200)" w = w ->
  RecursiveBacktrack_detached random fuel path w = RecursiveBacktrack random (S fuel) path w.
Proof.
  intros Hlast Hg Hc Hpainted. cbn [RecursiveBacktrack].
  unfold RecursiveBacktrack_detached. rewrite Hlast.
  unfold bind at 3. rewrite RecursiveBacktrack_body_split by done.
  unfold RecursiveBacktrack_enter. rewrite Hlast.
  unfold bind at 3. unfold bind at 3. unfold get at 1.
  rewrite (set_background_grid side w current _ Hg Hc), Hpainted.
  unfold bind at 1 3. unfold sleep, ret.
  unfold bind. by destruct (RecursiveBacktrack_resume random path current w) as [[p w2]| |].
Qed.

End Awaited.

Section Settled.
Context (side : Z) (random : nat -> Q).
Hypothesis random_unit : unit_interval random.

Lemma RecursiveBacktrack_keeps_flags : forall fuel w path w',
  backtrack_inv side w path -> RecursiveBacktrack random fuel path w = Returns (tt, w') ->
  forall c d, in_grid side c -> flag w c d = true -> flag w' c d = true.
Proof.
  induction fuel as [|fuel IH]; intros w path w' Hinv Hrun c d Hc Hf; [done|].
  cbn [RecursiveBacktrack] in Hrun. destruct (last path) as [current|] eqn:Hlast.
  - destruct (RecursiveBacktrack_body_spec side random random_unit w path current Hinv Hlast)
      as (path' & w1 & Hbody & Hinv1 & _).
    destruct (RecursiveBacktrack_body_stack side random random_unit w path current Hinv Hlast)
      as (p & w2 & Hbody' & _ & _ & Hflags).
    rewrite Hbody in Hbody'. injection Hbody' as <- <-.
    unfold bind in Hrun. rewrite Hbody in Hrun.
    apply (IH w1 path' w' Hinv1 Hrun c d Hc). by apply Hflags.
  - by injection Hrun as <-.
Qed.

Lemma GenerateMaze_awaited_generators fuel alg w w1 : alg <> Backtracker ->
  run_generator random fuel (alg_drop_value alg) w = Returns (tt, w1) ->
  GenerateMaze_awaited random fuel (alg_drop_value alg) w = Returns ([], w1).
Proof.
  intros Halg Hrun. unfold run_generator in Hrun. unfold GenerateMaze_awaited.
  unfold bind at 1 in Hrun. unfold bind at 1.
  destruct (pick_start random w) as [[start w0]| |]; [|done..].
  destruct alg; [| done |]; cbn [alg_drop_value] in *.
  - change (String.eqb "0" "0") with true in *. cbv iota in *.
    unfold bind. by rewrite Hrun.
  - change (String.eqb "2" "0") with false in *. change (String.eqb "2" "1") with false in *.
    change (String.eqb "2" "2") with true in *. cbv iota in *.
    unfold bind at 1. by rewrite Hrun.
Qed.

(** The state in which [GenerateMaze] leaves the backtracker: the stack
    and the world when the awaited call is over and the entrance and the
    exit are open. *)
Lemma GenerateMaze_backtracker w : blank side w ->
  exists path w1 w',
    GenerateMaze_awaited random 0 "1" w = Returns (path, w1) /\
    (forall fuel, GenerateMaze_awaited random fuel "1" w = Returns (path, w1)) /\
    CreateEntranceAndExit w1 = Returns (tt, w') /\
    backtrack_inv side w' path /\
    (forall c, last path = Some c -> paint c "rgb(255, 200, 200)" w' = w') /\
    ((visited_count w' = 2%nat /\ length path = 2%nat) \/
     (visited_count w' = 1%nat /\ path = [])) /\
    flag w' (0, 0) Top = true /\ flag w' (side - 1, side - 1) Bottom = true.
Proof.
  intros Hb. pose proof (blank_grid _ _ Hb) as Hg. pose proof (grid_side _ _ Hg) as Hside.
  assert (forall fuel, GenerateMaze_awaited random fuel "1" w =
            RecursiveBacktrack_awaited random
              [(Qfloor (random (random_calls w) * inject_Z side),
                Qfloor (random (S (random_calls w)) * inject_Z side))]
              (visit (Qfloor (random (random_calls w) * inject_Z side),
                      Qfloor (random (S (random_calls w)) * inject_Z side))
                     (set_random_calls (S (S (random_calls w))) w))) as Hstart.
  { intros fuel. unfold GenerateMaze_awaited.
    change (String.eqb "1" "0") with false. change (String.eqb "1" "1") with true. cbv iota.
    unfold bind. rewrite pick_start_eq. cbv zeta.
    by rewrite (grid_rows _ _ Hg), (grid_columns _ _ Hg). }
  set (start := (_, _)) in Hstart. set (w0 := set_random_calls _ w) in Hstart.
  assert (in_grid side start) as Hs by (by apply random_start).
  assert (blank side w0) as Hb0 by (by apply blank_set_random_calls).
  destruct (RecursiveBacktrack_awaited_spec side random random_unit (visit start w0) [start] start)
    as (path & w1 & Hrun & Hinv1 & Hp1 & Hstep); [by apply backtrack_inv_start|done|].
  destruct (entrance_spec side w1 path Hinv1) as (w' & Hent & Hinv' & Hvc & Hf0 & Hf1 & Hkeep).
  exists path, w1, w'. rewrite !Hstart.
  split; [done|]. split; [by intros fuel; rewrite Hstart|]. split; [done|]. split; [done|].
  split; [intros c Hc; by apply Hkeep, Hp1|]. split; [|done].
  rewrite (visited_count_start side) in Hstep by done. rewrite Hvc.
  destruct Hstep as [[Hv Hl]|[Hv Hl]]; [left; by split|right].
  split; [done|]. simpl in Hl. destruct path; [done|simpl in Hl; lia].
Qed.

Lemma GenerateMaze_settled_spanning alg w :
  blank side w -> frontier w = [] -> (alg = Kruskal -> 2 <= side) ->
  exists w', GenerateMaze_settled random (Z.to_nat (2 * side * side)) (alg_drop_value alg) w
               = Returns (tt, w') /\
             grid_ok side w' /\ spanning_tree w' /\
             flag w' (0, 0) Top = true /\ flag w' (side - 1, side - 1) Bottom = true.
Proof.
  intros Hb Hf Hk. pose proof (blank_grid _ _ Hb) as Hg. pose proof (grid_side _ _ Hg) as Hside.
  assert (in_grid side (0, 0)) as H00 by (split; simpl; lia).
  assert (in_grid side (side - 1, side - 1)) as H11 by (split; simpl; lia).
  assert (alg = Backtracker \/ alg <> Backtracker) as [->|Halg]
    by (destruct alg; (by left) || (by right)).
  - destruct (GenerateMaze_backtracker w Hb)
      as (path & w1 & wg & _ & Haw & Hent & Hinv & Hpainted & Hstep & Hf0 & Hf1).
    unfold GenerateMaze_settled. cbn [alg_drop_value].
    unfold bind at 1. rewrite Haw. unfold bind at 1. rewrite Hent.
    pose proof (tree_grid _ _ (bt_tree _ _ _ Hinv)) as Hgg.
    destruct (last path) as [current|] eqn:Hlast.
    + assert (in_grid side current) as Hc.
      { apply (bt_path _ _ _ Hinv). apply last_Some_snoc in Hlast as [rest ->].
        apply elem_of_app. right. left. }
      rewrite (RecursiveBacktrack_detached_eq side random _ path current wg Hlast Hgg Hc)
        by (by apply Hpainted).
      destruct (RecursiveBacktrack_terminates side random random_unit
                  (S (Z.to_nat (2 * side * side))) wg path Hinv) as (w' & Hrun & Hinv').
      { destruct Hstep as [[Hv Hl]|[_ ->]]; [|done]. rewrite Hv, Hl.
        rewrite (grid_cells _ _ Hgg).
        pose proof (length_grid_cells side ltac:(lia)) as Hlen. nia. }
      exists w'. split; [done|]. split; [apply Hinv'|].
      split; [by eapply backtrack_inv_done|].
      split; by apply (RecursiveBacktrack_keeps_flags _ wg path w' Hinv Hrun).
    + unfold RecursiveBacktrack_detached. rewrite Hlast.
      exists wg. split; [done|]. split; [done|]. split; [|done].
      apply last_None in Hlast as ->. by eapply backtrack_inv_done.
  - destruct (run_generator_spanning side random alg w random_unit Hb Hf Hk)
      as (w1 & Hrun & Hg1 & Hsp).
    destruct (CreateEntranceAndExit_keeps_passages_aux side w1 Hg1) as (w' & Hent & Hp & Hf0 & Hf1).
    exists w'. unfold GenerateMaze_settled. unfold bind at 1.
    rewrite (GenerateMaze_awaited_generators _ alg w w1 Halg Hrun).
    unfold bind at 1. rewrite Hent. split; [done|].
    assert (grid_ok side w') as Hg'.
    { rewrite (CreateEntranceAndExit_grid side w1 Hg1) in Hent. injection Hent as <-.
      by repeat apply grid_ok_open_border. }
    split; [done|]. split; [|done]. by apply (spanning_tree_ext side w1).
Qed.

End Settled.

(** X11: for Prim's and Kruskal's algorithm, which [GenerateMaze]
    awaits to their end, [GenerateMaze] on a blank grid with an empty
    frontier (side at least 2 for Kruskal's algorithm) returns a spanning
    tree with the entrance and the exit open: opening them after the
    generator leaves the maze connected, with one open passage less than
    there are cells, and without a cycle. *)
Theorem GenerateMaze_spanning_tree side random alg w :
  unit_interval random -> blank side w -> frontier w = [] ->
  alg <> Backtracker -> (alg = Kruskal -> 2 <= side) ->
  exists w', GenerateMaze random (Z.to_nat (2 * side * side)) (alg_drop_value alg) w
               = Returns (tt, w') /\
             spanning_tree w' /\
             flag w' (0, 0) Top = true /\ flag w' (side - 1, side - 1) Bottom = true.
Proof.
  intros Hr Hb Hf Halg Hk.
  destruct (run_generator_spanning side random alg w Hr Hb Hf Hk) as (w1 & Hrun & Hg1 & Hsp).
  destruct (CreateEntranceAndExit_keeps_passages_aux side w1 Hg1) as (w' & Hent & Hp & Hf0 & Hf1).
  exists w'. split; [|split; [|done]].
  - unfold GenerateMaze. unfold bind at 1.
    by rewrite (GenerateMaze_awaited_generators random _ alg w w1 Halg Hrun).
  - apply (spanning_tree_ext side w1); try done.
    rewrite (CreateEntranceAndExit_grid side w1 Hg1) in Hent. injection Hent as <-.
    by repeat apply grid_ok_open_border.
Qed.

Lemma GenerateMaze_spanning_tree_witness :
  unit_interval always_first /\ blank 3 (fresh_grid 3) /\ frontier (fresh_grid 3) = [] /\
  Prims <> Backtracker /\ (Prims = Kruskal -> 2 <= 3) /\
  exists w', GenerateMaze always_first (Z.to_nat (2 * 3 * 3)) (alg_drop_value Prims) (fresh_grid 3)
               = Returns (tt, w') /\
             spanning_tree w' /\
             flag w' (0, 0) Top = true /\ flag w' (3 - 1, 3 - 1) Bottom = true.
Proof.
  assert (blank 3 (fresh_grid 3)) as Hb by (apply blank_fresh_grid; lia).
  split; [exact always_first_unit|]. split; [exact Hb|]. split; [reflexivity|].
  split; [discriminate|]. split; [lia|].
  apply (GenerateMaze_spanning_tree 3 always_first Prims (fresh_grid 3));
    [exact always_first_unit|exact Hb|reflexivity|discriminate|lia].
Defined.

(** X29: [RecursiveBacktrack] calls itself without [await], so with the
    backtracker [GenerateMaze] returns after the first step: on a blank
    grid of side at least 2 a single passage is open and two cells are
    visited when the entrance and the exit are opened and the buttons are
    enabled again; the rest of the maze is carved by the detached
    calls. *)
Theorem GenerateMaze_returns_after_first_step side random fuel w :
  unit_interval random -> blank side w -> 2 <= side ->
  exists w', GenerateMaze random fuel "1" w = Returns (tt, w') /\
             length (open_passages w') = 1%nat /\ visited_count w' = 2%nat /\
             flag w' (0, 0) Top = true /\ flag w' (side - 1, side - 1) Bottom = true.
Proof.
  intros Hr Hb Hside.
  destruct (GenerateMaze_backtracker side random Hr w Hb)
    as (path & w1 & w' & _ & Haw & Hent & Hinv & _ & Hstep & Hf0 & Hf1).
  pose proof (tree_grid _ _ (bt_tree _ _ _ Hinv)) as Hg.
  assert (visited_count w' = 2%nat) as Hv.
  { destruct Hstep as [[Hv _]|[Hv ->]]; [done|exfalso].
    assert (visited_count w' = length (cells w')) as Hall.
    { apply (visited_count_all side); [done|]. apply (tree_all_visited side); [apply Hinv|].
      intros c d Hc Hvc Hn. apply (bt_closed _ _ _ Hinv c d); try done. apply not_elem_of_nil. }
    pose proof (grid_ok_length side w' Hg). nia. }
  exists w'. split; [|split; [|done]].
  - unfold GenerateMaze. unfold bind at 1. by rewrite Haw.
  - pose proof (tree_count _ _ (bt_tree _ _ _ Hinv)) as Hcount. lia.
Qed.

Lemma GenerateMaze_returns_after_first_step_witness :
  unit_interval always_first /\ blank 3 (fresh_grid 3) /\ 2 <= 3 /\
  exists w', GenerateMaze always_first 0 "1" (fresh_grid 3) = Returns (tt, w') /\
             length (open_passages w') = 1%nat /\ visited_count w' = 2%nat /\
             flag w' (0, 0) Top = true /\ flag w' (3 - 1, 3 - 1) Bottom = true.
Proof.
  assert (blank 3 (fresh_grid 3)) as Hb by (apply blank_fresh_grid; lia).
  split; [exact always_first_unit|]. split; [exact Hb|]. split; [lia|].
  apply (GenerateMaze_returns_after_first_step 3 always_first 0 (fresh_grid 3));
    [exact always_first_unit|exact Hb|lia].
Defined.



(** X17: generating and then solving, when Solve is clicked after the
    last timer of the generator has fired: for each grid size, algorithm
    and value of the solver drop-down, [GenerateGrid], [GenerateMaze] with
    the detached calls of the backtracker, and [SolveMaze] run one after
    the other return, and the maze that is left is the spanning tree that
    was generated. *)
Theorem generate_then_solve random alg v solver side w0 :
  unit_interval random -> frontier w0 = [] ->
  (v, side) ∈ [("0"%string, 3); ("1"%string, 5); ("2"%string, 10);
               ("3"%string, 25); ("4"%string, 40)] ->
  exists w, (let* _ := GenerateGrid v in
             let* _ := GenerateMaze_settled random (Z.to_nat (2 * side * side))
                         (alg_drop_value alg) in
             SolveMaze (S (Z.to_nat (side * side))) solver) w0 = Returns (tt, w) /\
            spanning_tree w.
Proof.
  intros Hr Hf Hv.
  assert (2 <= side /\ GenerateGrid v w0 = Returns (tt, build_grid (side * side) w0)) as [Hs Hgrid].
  { repeat (apply elem_of_cons in Hv as [[= -> ->]|Hv]; [split; [lia|done]|]).
    by apply elem_of_nil in Hv. }
  destruct (GenerateMaze_settled_spanning side random Hr alg (build_grid (side * side) w0))
    as (w1 & Hrun & Hg & Hsp & _); [apply blank_build_grid; lia|done|lia|].
  assert (exists w, SolveMaze (S (Z.to_nat (side * side))) solver w1 = Returns (tt, w) /\
                    grid_ok side w /\ forall c d, flag w c d = flag w1 c d) as (w & Hsolve & Hg' & Hfl).
  { unfold SolveMaze. destruct (String.eqb solver "0").
    - apply (Dijkstras_returns side w1 Hg). apply Hsp.
    - by exists w1. }
  exists w. split.
  - unfold bind at 1. rewrite Hgrid. unfold bind at 1. by rewrite Hrun.
  - apply (spanning_tree_ext side w1); [done|done| |done].
    intros x y. by apply (passage_flag_ext side).
Qed.

Lemma generate_then_solve_witness :
  unit_interval always_first /\ frontier page_load = [] /\
  ("0"%string, 3) ∈ [("0"%string, 3); ("1"%string, 5); ("2"%string, 10);
                     ("3"%string, 25); ("4"%string, 40)] /\
  exists w, (let* _ := GenerateGrid "0" in
             let* _ := GenerateMaze_settled always_first (Z.to_nat (2 * 3 * 3))
                         (alg_drop_value Backtracker) in
             SolveMaze (S (Z.to_nat (3 * 3))) "0") page_load = Returns (tt, w) /\
            spanning_tree w.
Proof.
  assert (("0"%string, 3) ∈ [("0"%string, 3); ("1"%string, 5); ("2"%string, 10);
                             ("3"%string, 25); ("4"%string, 40)]) as Hv by left.
  split; [exact always_first_unit|]. split; [reflexivity|]. split; [exact Hv|].
  apply (generate_then_solve always_first Backtracker "0" "0" 3 page_load);
    [exact always_first_unit|reflexivity|exact Hv].
Defined.

(** * The draws a generator reads *)

(** ** Computations that draw nothing *)

Lemma quiet_ret {A} (a : A) : quiet (ret a).
Proof. by intros w b w' [= _ <-]. Qed.

Lemma quiet_get : quiet get.
Proof. by intros w b w' [= _ <-]. Qed.

Lemma quiet_throw {A} e : quiet (@throw A e).
Proof. by intros w b w'. Qed.

Lemma quiet_out_of_fuel {A} : quiet (@out_of_fuel A).
Proof. by intros w b w'. Qed.

Lemma quiet_modify f : (forall w, random_calls (f w) = random_calls w) -> quiet (modify f).
Proof. intros Hf w b w' [= _ <-]. apply Hf. Qed.

Lemma quiet_bind {A B} (m : M A) (k : A -> M B) :
  quiet m -> (forall a, quiet (k a)) -> quiet (bind m k).
Proof.
  intros Hm Hk w b w' Hrun. unfold bind in Hrun.
  destruct (m w) as [[a w1]| |] eqn:E; [|done..].
  rewrite (Hk a w1 b w' Hrun). by apply (Hm w a).
Qed.

Lemma quiet_for_of {A} (l : list A) (body : A -> M unit) :
  (forall x, quiet (body x)) -> quiet (for_of l body).
Proof.
  intros Hb. induction l as [|x l IH]; [apply quiet_ret|].
  apply quiet_bind; [apply Hb|]. by intros _.
Qed.

Lemma quiet_update_style idx f : quiet (update_style idx f).
Proof.
  apply quiet_bind.
  - intros w s w' Hrun. unfold get_style in Hrun. by destruct (document w !! idx); simplify_eq.
  - intros s. by apply quiet_modify.
Qed.

Lemma quiet_set_border idx d colour : quiet (set_border idx d colour).
Proof. apply quiet_update_style. Qed.

Lemma quiet_set_background idx colour : quiet (set_background idx colour).
Proof. apply quiet_update_style. Qed.

Lemma quiet_sleep : quiet sleep.
Proof. apply quiet_ret. Qed.

Lemma quiet_mark_visited c : quiet (mark_visited c).
Proof. by apply quiet_modify. Qed.

Lemma quiet_push_frontier c : quiet (push_frontier c).
Proof. by apply quiet_modify. Qed.

Ltac quiet :=
  repeat match goal with
  | |- quiet (bind _ _) => apply quiet_bind
  | |- quiet (ret _) => apply quiet_ret
  | |- quiet get => apply quiet_get
  | |- quiet (throw _) => apply quiet_throw
  | |- quiet out_of_fuel => apply quiet_out_of_fuel
  | |- quiet sleep => apply quiet_sleep
  | |- quiet (set_border _ _ _) => apply quiet_set_border
  | |- quiet (set_background _ _) => apply quiet_set_background
  | |- quiet (mark_visited _) => apply quiet_mark_visited
  | |- quiet (push_frontier _) => apply quiet_push_frontier
  | |- quiet (modify _) => by apply quiet_modify
  | |- quiet (for_of _ _) => apply quiet_for_of
  | |- quiet (match ?x with _ => _ end) => destruct x
  | |- quiet (if ?x then _ else _) => destruct x
  | |- forall _, quiet _ => intro
  end.

Lemma quiet_CutEdge a b : quiet (CutEdge a b).
Proof. unfold CutEdge. quiet. Qed.

(** ** Computations that draw *)

Section Draws.
Context (random1 random2 : nat -> Q).

Lemma follows_quiet {A} (m : M A) : quiet m -> follows random1 random2 m m.
Proof. intros Hq w a w' Hrun. rewrite (Hq w a w' Hrun). by split. Qed.

Lemma follows_bind {A B} (m1 m2 : M A) (k1 k2 : A -> M B) :
  follows random1 random2 m1 m2 -> (forall a, follows random1 random2 (k1 a) (k2 a)) ->
  follows random1 random2 (bind m1 k1) (bind m2 k2).
Proof.
  intros Hm Hk w b w' Hrun. unfold bind in Hrun.
  destruct (m1 w) as [[a w1]| |] eqn:E; [|done..].
  destruct (Hm w a w1 E) as [Hle1 H1]. destruct (Hk a w1 b w' Hrun) as [Hle2 H2].
  split; [lia|]. intros Hsame. unfold bind.
  rewrite H1 by (intros k Hk'; apply Hsame; lia).
  apply H2. intros k Hk'. apply Hsame. lia.
Qed.

Lemma follows_random_below n :
  follows random1 random2 (random_below random1 n) (random_below random2 n).
Proof.
  intros w a w' Hrun. rewrite random_below_eq in Hrun.
  assert (a = Qfloor (random1 (random_calls w) * inject_Z n) /\
          w' = set_random_calls (S (random_calls w)) w) as [-> ->]
    by (split; congruence).
  split; [simpl; lia|]. intros Hsame. rewrite random_below_eq. do 2 f_equal.
  apply Qfloor_comp. rewrite (Hsame (random_calls w)); [done|simpl; lia].
Qed.

Lemma follows_random_element {A} (l : list A) :
  follows random1 random2 (random_element random1 l) (random_element random2 l).
Proof.
  apply follows_bind; [apply follows_random_below|]. intros i. apply follows_quiet, quiet_ret.
Qed.

Ltac follows :=
  repeat match goal with
  | |- follows _ _ (random_element _ _) _ => apply follows_random_element
  | |- follows _ _ (random_below _ _) _ => apply follows_random_below
  | |- follows _ _ (bind _ _) _ => apply follows_bind
  | |- follows _ _ (match ?x with _ => _ end) _ => destruct x
  | |- follows _ _ (if ?x then _ else _) _ => destruct x
  | |- follows _ _ (CutEdge _ _) _ => apply follows_quiet, quiet_CutEdge
  | |- follows _ _ ?m ?m => apply follows_quiet; quiet
  | |- forall _, follows _ _ _ _ => intro
  end.









End Draws.

(** * What the generators leave behind *)

Section AnyFuel.
Context (side : Z) (random : nat -> Q).
Hypothesis random_unit : unit_interval random.

(** Whatever the fuel, a run that returns has carved a spanning tree:
    with too little fuel the run does not return, with enough the
    invariants apply. *)
Lemma run_generator_returns_spanning alg fuel w w' :
  blank side w -> frontier w = [] ->
  run_generator random fuel (alg_drop_value alg) w = Returns (tt, w') ->
  grid_ok side w' /\ spanning_tree w'.
Proof.
  intros Hb Hf Hrun. pose proof Hb as [Hg Hfl Hv]. pose proof (grid_side _ _ Hg) as Hside.
  pose proof (length_grid_cells side ltac:(lia)) as Hlen.
  rewrite run_generator_start in Hrun. cbv zeta in Hrun.
  rewrite (grid_rows _ _ Hg), (grid_columns _ _ Hg) in Hrun.
  set (start := (_, _)) in Hrun. set (w0 := set_random_calls _ w) in Hrun.
  assert (in_grid side start) as Hs by (by apply random_start).
  assert (blank side w0) as Hb0 by (by apply blank_set_random_calls).
  destruct alg; cbn [alg_drop_value] in Hrun.
  - change (String.eqb "0" "0") with true in Hrun. cbv iota in Hrun.
    destruct (PrimsAlgorithm_setup_spec side w0 start Hb0 Hf Hs) as (w2 & Hset & Hp & Hc).
    unfold PrimsAlgorithm, bind in Hrun. rewrite Hset in Hrun.
    destruct (le_lt_dec (length (cells w2)) (fuel + visited_count w2)) as [Hle|Hlt].
    + destruct (PrimsAlgorithm_while side random random_unit fuel w2 Hp Hle)
        as (w3 & Hrun3 & Hinv & Hfr).
      rewrite Hrun3 in Hrun. injection Hrun as <-.
      split; [apply Hinv|]. by eapply prim_inv_done.
    + by rewrite (PrimsAlgorithm_while_out_of_fuel side random random_unit fuel w2 Hp) in Hrun
        by lia.
  - change (String.eqb "1" "0") with false in Hrun.
    change (String.eqb "1" "1") with true in Hrun. cbv iota in Hrun.
    pose proof (backtrack_inv_start side w0 start Hb0 Hs) as Hinv.
    destruct (le_lt_dec (fuel + 2 * visited_count (visit start w0))
                (2 * length (cells (visit start w0)) + length [start])) as [Hle|Hlt].
    + by rewrite (RecursiveBacktrack_out_of_fuel side random random_unit fuel _ _ Hinv Hle)
        in Hrun.
    + destruct (RecursiveBacktrack_terminates side random random_unit fuel _ _ Hinv Hlt)
        as (w3 & Hrun3 & Hinv3).
      rewrite Hrun3 in Hrun. injection Hrun as <-.
      split; [apply Hinv3|]. by eapply backtrack_inv_done.
  - change (String.eqb "2" "0") with false in Hrun.
    change (String.eqb "2" "1") with false in Hrun.
    change (String.eqb "2" "2") with true in Hrun. cbv iota in Hrun.
    set (w1 := visit start w0) in Hrun.
    assert (grid_ok side w1) as Hg1 by (by apply grid_ok_visit, grid_ok_set_random_calls).
    destruct (GetAllEdges w1) as [|e edges] eqn:He.
    + destruct fuel as [|fuel]; [by unfold Kruskals, bind, get in Hrun|].
      by rewrite (Kruskals_empty_pool random fuel w1 He) in Hrun.
    + pose proof (kruskal_inv_start side w1 Hg1 Hfl) as Hinv.
      unfold Kruskals in Hrun. unfold bind at 1 in Hrun. unfold get at 1 in Hrun.
      destruct (le_lt_dec (length (GetAllEdges w1)) fuel) as [Hle|Hlt].
      * destruct (Kruskals_loop_spec side random random_unit fuel (GetAllEdges w1) _ w1 Hinv)
          as (w3 & cm & Hrun3 & Hinv3); [by rewrite He|done|].
        rewrite Hrun3 in Hrun. injection Hrun as <-.
        split; [apply Hinv3|]. by eapply kruskal_inv_done.
      * by rewrite (Kruskals_loop_out_of_fuel side random random_unit fuel _ _ w1 Hinv Hlt)
          in Hrun.
Qed.

End AnyFuel.

(** C1: for every positive side and every sequence of draws of the
    unit interval, a run of Prim's algorithm, of Kruskal's algorithm or of
    the backtracker on the freshly initialized grid that runs to completion
    leaves a passage state in which every cell is reachable from every
    other one, exactly [side * side - 1] passages are open and no passage
    lies on a cycle; and on every grid of side at least 2, the grids of the
    program among them, the run does complete, within [2 * side * side]
    rounds (Prim's algorithm and the backtracker also at side 1). *)
Theorem generators_carve_spanning_tree (random : nat -> Q) (side : Z) (alg : algorithm) :
  0 < side -> unit_interval random ->
  (forall fuel w,
     run_generator random fuel (alg_drop_value alg) (fresh_grid side) = Returns (tt, w) ->
     connected w /\
     Z.of_nat (length (open_passages w)) = side * side - 1 /\
     acyclic w) /\
  ((alg = Kruskal -> 2 <= side) ->
   exists w,
     run_generator random (Z.to_nat (2 * side * side)) (alg_drop_value alg) (fresh_grid side)
       = Returns (tt, w)).
Proof.
  intros Hs Hr.
  assert (blank side (fresh_grid side)) as Hb by (by apply blank_fresh_grid).
  split.
  - intros fuel w Hrun.
    destruct (run_generator_returns_spanning side random Hr alg fuel _ w Hb eq_refl Hrun)
      as (Hg & Hc & Hn & Ha).
    rewrite (grid_ok_length side w Hg) in Hn. done.
  - intros Hk.
    destruct (run_generator_spanning side random alg (fresh_grid side) Hr Hb eq_refl Hk)
      as (w & Hrun & _). by exists w.
Qed.

Lemma generators_carve_spanning_tree_witness :
  0 < 3 /\ unit_interval always_first /\
  (forall fuel w,
     run_generator always_first fuel (alg_drop_value Kruskal) (fresh_grid 3) = Returns (tt, w) ->
     connected w /\
     Z.of_nat (length (open_passages w)) = 3 * 3 - 1 /\
     acyclic w) /\
  exists w,
    run_generator always_first (Z.to_nat (2 * 3 * 3)) (alg_drop_value Kruskal) (fresh_grid 3)
      = Returns (tt, w).
Proof.
  split; [lia|]. split; [exact always_first_unit|].
  destruct (generators_carve_spanning_tree always_first 3 Kruskal ltac:(lia) always_first_unit)
    as [HA HB].
  split; [exact HA|]. apply HB. lia.
Defined.

(** * Determinism *)


